(** * The Instruments [.trace] importer of the profiler

    A shallow embedding of the trace-import module (binary plist header
    check, keyed-archive expansion, the two binary stores of a [.trace]
    package, backtrace resolution and the assembly of the per-thread
    columnar tables) together with the properties its specification
    states about it.

    Conventions of the embedding:
    - a [Uint8Array] is a [list byte]; reading past its end gives
      [None], which stands for JavaScript's [undefined];
    - integers that the importer reads from files are [N]; table
      indices are [nat];
    - a thrown [Error] is the left summand of a sum;
    - a JavaScript [Map] is an association list in insertion order
      (module [JsMap]);
    - objects that are mutated and shared live on an explicit heap. *)

From Stdlib Require Import ZArith NArith QArith Qpower List String Ascii HexString.
From Stdlib.Strings Require Import Byte.
From stdpp Require Import base tactics option list sets strings pretty.

#[local] Open Scope Z_scope.
#[local] Open Scope list_scope.

#[global] Instance byte_eq_decision : EqDecision byte := Byte.byte_eq_dec.

(** ** Thrown errors *)

(** [throw new Error(message)]. *)
Inductive js_error : Type :=
| Error (message : string).

(** The result of a call that either throws or returns. *)
Definition completion (A : Type) : Type := js_error + A.

Definition throw {A : Type} (message : string) : completion A := inl (Error message).
Definition ret {A : Type} (x : A) : completion A := inr x.

(** ** parseBinaryPlist *)

Module Plist.

(** [text.charCodeAt(i)], for a string of 8-bit characters. *)
Definition charCodeAt (text : string) (i : nat) : option N :=
  N_of_ascii <$> String.get i text.

(** [bytes[i]] on a [Uint8Array]. *)
Definition byteAt (bytes : list byte) (i : nat) : option N :=
  Byte.to_N <$> bytes !! i.

(** The comparison [bytes[i] !== text.charCodeAt(i)]. *)
Definition strict_ne (x y : option N) : bool :=
  negb (bool_decide (x = y)).

(** The loop [for (let i = 0; i < 8; i++)] of [parseBinaryPlist]:
    [true] when some iteration throws. *)
Definition header_mismatch (bytes : list byte) (text : string) : bool :=
  existsb (fun i => strict_ne (byteAt bytes i) (charCodeAt text i)) (seq 0 8).

Section WithParser.

  (** The decoded plist value and [new BinaryPlistParser(view).parseRoot()];
      the parser class is imported by the module and is taken as given. *)
Context {plist : Type}.
Variable parseRoot : list byte -> completion plist.

Definition parseBinaryPlist (bytes : list byte) : completion plist :=
    let text := "bplist00"%string in
    if header_mismatch bytes text
    then throw "File is not a binary plist"
    else parseRoot bytes.

End WithParser.

(** The eight bytes [b p l i s t 0 0]. *)
Definition magic_header : list byte :=
  [x62; x70; x6c; x69; x73; x74; x30; x30]%byte.

End Plist.

(** ** NSDecimalNumberPlaceholder *)

Module DecimalNumber.

#[local] Open Scope Q_scope.

(** A JavaScript number, with exact rational arithmetic in place of
    IEEE doubles; [NaN] is kept because arithmetic on [undefined]
    produces it. *)
Inductive number : Type :=
| Num (q : Q)
| NaN.
















End DecimalNumber.

(** ** Calls that may also run out of fuel *)

(** Loops of the source whose termination depends on the data are run
    with a fuel; [None] means that the fuel ran out, [Some (inl _)]
    that the call threw, [Some (inr _)] that it returned. *)
Definition run (A : Type) : Type := option (completion A).

Definition run_bind {A B : Type} (m : run A) (f : A -> run B) : run B :=
  match m with
  | None => None
  | Some (inl e) => Some (inl e)
  | Some (inr x) => f x
  end.

Definition lift {A : Type} (c : completion A) : run A := Some c.

Notation "'let*' x := m 'in' k" := (run_bind m (fun x => k))
  (at level 10, x pattern, m at level 100, k at level 200).

(** ** JavaScript [Map]: association list in insertion order *)

Module JsMap.
Section Ops.
Context {K V : Type} `{EqDecision K}.

Definition t : Type := list (K * V).

Definition empty : t := [].

Fixpoint get (m : t) (k : K) : option V :=
    match m with
    | [] => None
    | (k', v) :: m' => if decide (k = k') then Some v else get m' k
    end.

Definition has (m : t) (k : K) : bool :=
    match get m k with Some _ => true | None => false end.

  (** [map.set(k, v)]: an existing key keeps its position. *)
Fixpoint set (m : t) (k : K) (v : V) : t :=
    match m with
    | [] => [(k, v)]
    | (k', v') :: m' =>
        if decide (k = k') then (k, v) :: m' else (k', v') :: set m' k v
    end.

Definition keys (m : t) : list K := fst <$> m.
Definition values (m : t) : list V := snd <$> m.
Definition size (m : t) : nat := length m.
End Ops.
Arguments t : clear implicits.
End JsMap.

(** [getOrThrow(map, k)]; [show] renders the key in the message. *)
Definition getOrThrow {K V : Type} `{EqDecision K} (show : K -> string)
    (map : JsMap.t K V) (k : K) : completion V :=
  match JsMap.get map k with
  | Some v => ret v
  | None => throw ("Expected key " +:+ show k)
  end.

(** ** BinReader *)

Module BinReader.

(** Modelled from the spec: the byte-cursor reader [BinReader] that the
    import module uses for the two binary stores; its source is not
    part of the module.  The specification fixes what the module relies
    on: unsigned fields of 32, 48 and 64 bits, little-endian, read at a
    cursor that [seek] sets and [skip] moves, and a truncated read is
    an error. *)
Record t : Type := mk { buffer : list byte; bytePos : Z }.

Definition new (buffer : list byte) : t := mk buffer 0.

Definition seek (pos : Z) (r : t) : t := mk (buffer r) pos.

Definition skip (byteCount : Z) (r : t) : t := mk (buffer r) (bytePos r + byteCount).

Definition hasMore (r : t) : bool := bytePos r <? Z.of_nat (length (buffer r)).

(** Little-endian value of a byte sequence. *)
Fixpoint le_value (bs : list byte) : N :=
  match bs with
  | [] => 0%N
  | b :: bs' => (Byte.to_N b + 256 * le_value bs')%N
  end.

(** The bytes [pos .. pos + width) of a buffer, when they all exist. *)
Definition slice (buffer : list byte) (pos : Z) (width : nat) : option (list byte) :=
  if (0 <=? pos) && (pos + Z.of_nat width <=? Z.of_nat (length buffer))
  then Some (take width (drop (Z.to_nat pos) buffer))
  else None.

Definition readUint (width : nat) (r : t) : completion (N * t) :=
  match slice (buffer r) (bytePos r) width with
  | Some bs => ret (le_value bs, mk (buffer r) (bytePos r + Z.of_nat width))
  | None => throw "Truncated read"
  end.

Definition readUint32 : t -> completion (N * t) := readUint 4.
Definition readUint48 : t -> completion (N * t) := readUint 6.
Definition readUint64 : t -> completion (N * t) := readUint 8.

End BinReader.

(** ** The [.trace] package: directory tree and binary stores *)

Module Trace.

(** A file handle together with what [fileReader(file)] gives for it. *)
Record File : Type := mkFile {
  asText : string;
  asArrayBuffer : list byte
}.

#[warnings="-register-all"] Inductive TraceDirectoryTree : Type :=
| Dir (name : string)
      (files : JsMap.t string File)
      (subdirectories : JsMap.t string TraceDirectoryTree).

Definition name (d : TraceDirectoryTree) : string :=
  match d with Dir n _ _ => n end.
Definition files (d : TraceDirectoryTree) : JsMap.t string File :=
  match d with Dir _ f _ => f end.
Definition subdirectories (d : TraceDirectoryTree) : JsMap.t string TraceDirectoryTree :=
  match d with Dir _ _ s => s end.

(** A sample as [getRawSampleList] pushes it; [backtraceStack] is set
    later, by [importRunFromInstrumentsTrace]. *)
Record Sample : Type := mkSample {
  timestamp : N;
  threadID : N;
  backtraceID : N;
  backtraceStack : option (list N)
}.

(** The double quote character. *)
Definition dquote : string := String (ascii_of_nat 34) EmptyString.

(** The text that [/name="time-profile"/] searches for. *)
Definition time_profile_marker : string :=
  ("name=" +:+ dquote +:+ "time-profile" +:+ dquote)%string.

(** [/name="time-profile"/.exec(schema)] is truthy. *)
Definition matches_time_profile (schema : string) : bool :=
  match String.index 0 time_profile_marker schema with
  | Some _ => true
  | None => false
  end.

(** The [while (true)] loop of [getRawSampleList]. *)
Fixpoint sampleLoop (fuel : nat) (bytesPerEntry : N) (bulkstore : BinReader.t)
    (samples : list Sample) : run (list Sample) :=
  match fuel with
  | O => None
  | S fuel' =>
      let* (timestamp, bulkstore) := lift (BinReader.readUint48 bulkstore) in
      if (timestamp =? 0)%N then Some (ret samples)
      else
        let* (threadID, bulkstore) := lift (BinReader.readUint32 bulkstore) in
        let bulkstore := BinReader.skip (Z.of_N bytesPerEntry - 6 - 4 - 4) bulkstore in
        let* (backtraceID, bulkstore) := lift (BinReader.readUint32 bulkstore) in
        sampleLoop fuel' bytesPerEntry bulkstore
          (samples ++ [mkSample timestamp threadID backtraceID None])
  end.

(** Lines 400-425 of [getRawSampleList]: the reader of one [bulkstore]
    file. *)
Definition readBulkstore (fuel : nat) (bytes : list byte) : run (list Sample) :=
  let bulkstore := BinReader.new bytes in
  let* (_, bulkstore) := lift (BinReader.readUint32 bulkstore) in
  let* (_, bulkstore) := lift (BinReader.readUint32 bulkstore) in
  let* (_, bulkstore) := lift (BinReader.readUint32 bulkstore) in
  let* (headerSize, bulkstore) := lift (BinReader.readUint32 bulkstore) in
  let* (bytesPerEntry, bulkstore) := lift (BinReader.readUint32 bulkstore) in
  let bulkstore := BinReader.seek (Z.of_N headerSize) bulkstore in
  sampleLoop fuel bytesPerEntry bulkstore [].

(** The loop over [stores.subdirectories.values()]. *)
Fixpoint scanStores (fuel : nat) (storedirs : list TraceDirectoryTree) : run (list Sample) :=
  match storedirs with
  | [] => lift (throw "Could not find sample list")
  | storedir :: rest =>
      match JsMap.get (files storedir) "schema.xml"%string with
      | None => scanStores fuel rest
      | Some schemaFile =>
          if negb (matches_time_profile (asText schemaFile)) then scanStores fuel rest
          else
            let* bulkstoreFile :=
              lift (getOrThrow id (files storedir) "bulkstore"%string) in
            readBulkstore fuel (asArrayBuffer bulkstoreFile)
      end
  end.

Definition getRawSampleList (fuel : nat) (core : TraceDirectoryTree) : run (list Sample) :=
  let* stores := lift (getOrThrow id (subdirectories core) "stores"%string) in
  scanStores fuel (JsMap.values (subdirectories stores)).

(** The inner loop [while (length--)] of [getIntegerArrays]. *)
Fixpoint readArray (length : nat) (datareader : BinReader.t) (array : list N)
    : completion (list N * BinReader.t) :=
  match length with
  | O => ret (array, datareader)
  | S length' =>
      match BinReader.readUint64 datareader with
      | inl e => inl e
      | inr (x, datareader) => readArray length' datareader (array ++ [x])
      end
  end.

(** The loop [while (indexreader.hasMore())] of [getIntegerArrays]. *)
Fixpoint indexLoop (fuel : nat) (indexreader datareader : BinReader.t)
    (arrays : list (list N)) : run (list (list N)) :=
  match fuel with
  | O => None
  | S fuel' =>
      if BinReader.hasMore indexreader then
        let* (low, indexreader) := lift (BinReader.readUint32 indexreader) in
        let* (high, indexreader) := lift (BinReader.readUint32 indexreader) in
        let byteOffset := (low + high * (1024 * 1024))%N in
        if (byteOffset =? 0)%N then indexLoop fuel' indexreader datareader arrays
        else
          let datareader := BinReader.seek (Z.of_N byteOffset) datareader in
          let* (length, datareader) := lift (BinReader.readUint32 datareader) in
          let* (array, datareader) := lift (readArray (N.to_nat length) datareader []) in
          indexLoop fuel' indexreader datareader (arrays ++ [array])
      else Some (ret arrays)
  end.

(** [getIntegerArrays] once the two files are read. *)
Definition readIntegerArrays (fuel : nat) (index data : list byte) : run (list (list N)) :=
  let indexreader := BinReader.new index in
  let datareader := BinReader.new data in
  let indexreader := BinReader.seek 32 indexreader in
  indexLoop fuel indexreader datareader [].

Definition getIntegerArrays (fuel : nat) (core : TraceDirectoryTree) : run (list (list N)) :=
  let* uniquing := lift (getOrThrow id (subdirectories core) "uniquing"%string) in
  let* arrayUniquer := lift (getOrThrow id (subdirectories uniquing) "arrayUniquer"%string) in
  let* integeruniquerindex :=
    lift (getOrThrow id (files arrayUniquer) "integeruniquer.index"%string) in
  let* integeruniquerdata :=
    lift (getOrThrow id (files arrayUniquer) "integeruniquer.data"%string) in
  readIntegerArrays fuel (asArrayBuffer integeruniquerindex) (asArrayBuffer integeruniquerdata).

(** [getCoreDirForRun]. *)
Definition getCoreDirForRun (tree : TraceDirectoryTree) (selectedRun : N)
    : completion TraceDirectoryTree :=
  match getOrThrow id (subdirectories tree) "corespace"%string with
  | inl e => inl e
  | inr corespace =>
      match getOrThrow id (subdirectories corespace) ("run" +:+ pretty selectedRun) with
      | inl e => inl e
      | inr corespaceRunDir => getOrThrow id (subdirectories corespaceRunDir) "core"%string
      end
  end.

End Trace.

(** ** Layout of the binary stores, in the words of the specification *)

Module StoreLayout.
Import Trace.

(** The unsigned little-endian field of [width] bytes at offset [pos],
    when the buffer holds it. *)
Definition field (width : nat) (bytes : list byte) (pos : Z) : option N :=
  BinReader.le_value <$> BinReader.slice bytes pos width.

(** Fixed-stride records from [pos] on, closed by a zero timestamp:
    each record starts with a 48-bit timestamp, followed at once by a
    32-bit thread id, and ends with a 32-bit backtrace id. *)
Fixpoint records_at (bytes : list byte) (pos stride : Z)
    (records : list (N * N * N)) : Prop :=
  match records with
  | [] => field 6 bytes pos = Some 0%N
  | (ts, tid, bt) :: rest =>
      ts <> 0%N /\
      field 6 bytes pos = Some ts /\
      field 4 bytes (pos + 6) = Some tid /\
      field 4 bytes (pos + stride - 4) = Some bt /\
      records_at bytes (pos + stride) stride rest
  end.

(** A bulkstore whose header-size and stride fields follow a preamble
    of [preamble] ignored 32-bit words. *)
Definition bulkstore_layout (preamble : nat) (bytes : list byte)
    (headerSize stride : N) (records : list (N * N * N)) : Prop :=
  (forall w, (w < preamble)%nat -> is_Some (field 4 bytes (4 * Z.of_nat w))) /\
  field 4 bytes (4 * Z.of_nat preamble) = Some headerSize /\
  field 4 bytes (4 * Z.of_nat preamble + 4) = Some stride /\
  records_at bytes (Z.of_N headerSize) (Z.of_N stride) records.

Definition sample_of (r : N * N * N) : Sample :=
  let '(ts, tid, bt) := r in mkSample ts tid bt None.

(** The [j]-th entry of the index file after its 32-byte header: two
    32-bit words giving the byte offset [low + high * 1048576]. *)
Definition index_offset (index : list byte) (j : nat) : option N :=
  low ← field 4 index (32 + 8 * Z.of_nat j);
  high ← field 4 index (32 + 8 * Z.of_nat j + 4);
  Some (low + high * 1048576)%N.

(** Number of whole entries of the index file. *)
Definition index_count (index : list byte) : nat := (length index - 32) / 8.

(** The array stored at [offset] of the data file: a 32-bit element
    count, then that many 64-bit little-endian integers. *)
Definition array_at (data : list byte) (offset : N) : option (list N) :=
  count ← field 4 data (Z.of_N offset);
  mapM (fun j => field 8 data (Z.of_N offset + 4 + 8 * Z.of_nat j)) (seq 0 (N.to_nat count)).

(** One array per index entry with a non-zero offset, in index order. *)
Definition arrays_of (index data : list byte) : option (list (list N)) :=
  offsets ← mapM (index_offset index) (seq 0 (index_count index));
  mapM (array_at data) (filter (fun o => o <> 0%N) offsets).

(** The stores that the scan passes over: no [schema.xml], or one
    without the marker. *)
Definition passed_over (storedir : TraceDirectoryTree) : Prop :=
  match JsMap.get (files storedir) "schema.xml"%string with
  | None => True
  | Some schemaFile => matches_time_profile (asText schemaFile) = false
  end.

(** A read that the buffer cannot serve is the reader's error. *)
Definition truncated {A : Type} (o : option A) : completion A :=
  match o with
  | Some x => inr x
  | None => inl (Error "Truncated read")
  end.

End StoreLayout.

(** ** Small synthetic stores *)

Module Fixture.
Import Trace.

Definition byte_of (n : N) : byte := default x00 (Byte.of_N (n mod 256)).

Fixpoint le_bytes (width : nat) (n : N) : list byte :=
  match width with
  | O => []
  | S w => byte_of n :: le_bytes w (n / 256)
  end.

Definition zeros (n : nat) : list byte := replicate n x00.

(** One record of [stride] bytes. *)
Definition record_bytes (stride : nat) (r : N * N * N) : list byte :=
  let '(ts, tid, bt) := r in
  le_bytes 6 ts ++ le_bytes 4 tid ++ zeros (stride - 14) ++ le_bytes 4 bt.

(** A bulkstore with [preamble] zero words before the header-size and
    stride fields, the records starting right after these fields. *)
Definition bulkstore_bytes (preamble stride : nat) (records : list (N * N * N)) : list byte :=
  zeros (4 * preamble)
  ++ le_bytes 4 (N.of_nat (4 * preamble + 8)) ++ le_bytes 4 (N.of_nat stride)
  ++ concat (record_bytes stride <$> records) ++ zeros 6.

Definition two_records : list (N * N * N) :=
  [(1000, 7, 3); (2000, 8, 4)]%N.

Definition schema_text : string :=
  ("<schema " +:+ time_profile_marker +:+ ">")%string.

(** A [core] directory with one time-profile store. *)
Definition core_with_bulkstore (bytes : list byte) : TraceDirectoryTree :=
  Dir "core" []
    [("stores"%string,
      Dir "stores" []
        [("0"%string,
          Dir "0"
            [("schema.xml"%string, mkFile schema_text []);
             ("bulkstore"%string, mkFile "" bytes)]
            [])])].

(** An index file with a zero entry and two array offsets, and the
    data file they point into. *)
Definition index_bytes : list byte :=
  zeros 32 ++ le_bytes 4 0 ++ le_bytes 4 0
           ++ le_bytes 4 32 ++ le_bytes 4 0
           ++ le_bytes 4 52 ++ le_bytes 4 0.

Definition data_bytes : list byte :=
  zeros 32 ++ le_bytes 4 2 ++ le_bytes 8 4096 ++ le_bytes 8 8192
           ++ le_bytes 4 1 ++ le_bytes 8 5.

Definition core_with_uniquer (index data : list byte) : TraceDirectoryTree :=
  Dir "core" []
    [("uniquing"%string,
      Dir "uniquing" []
        [("arrayUniquer"%string,
          Dir "arrayUniquer"
            [("integeruniquer.index"%string, mkFile "" index);
             ("integeruniquer.data"%string, mkFile "" data)]
            [])])].

End Fixture.

(** ** Backtrace resolution: importRunFromInstrumentsTrace *)

Module Resolve.
Import Trace.

(** The [key] of a frame is a string for a symbol and the address
    itself for a raw-address frame. *)
Inductive frame_key : Type :=
| KeyString (s : string)
| KeyNumber (n : N).

#[global] Instance frame_key_eq_dec : EqDecision frame_key.
Proof. solve_decision. Defined.

Record FrameInfo : Type := mkFrameInfo {
  key : frame_key;
  name : string;
  file : option string
}.

Definition frameMap : Type := JsMap.t N FrameInfo.

(** [k.toString(16)] for a non-negative integer. *)
Definition toString16 (k : N) : string :=
  match k with
  | N0 => "0"
  | Npos p => HexString.Raw.of_pos p ""
  end.

(** [new Array(n).join(sep)]: [n] empty slots joined by [sep]. *)
Definition Array_join (n : nat) (sep : string) : string :=
  String.concat sep (replicate n ""%string).

(** [zeroPad(s, width)]. *)
Definition zeroPad (s : string) (width : nat) : string :=
  let missing := Z.max (Z.of_nat width - Z.of_nat (String.length s)) 0 in
  (Array_join (Z.to_nat missing + 1) "0" +:+ s)%string.

(** The frame that [appendRecursive] registers for an address that is
    neither a known frame nor an index of [arrays]. *)
Definition rawAddressFrame (k : N) : FrameInfo :=
  mkFrameInfo (KeyNumber k) ("0x" +:+ zeroPad (toString16 k) 16) None.

(** [appendRecursive(k, stack)]; the state is the shared
    [addressToFrameMap] and the [stack] being filled. *)
Fixpoint appendRecursive (fuel : nat) (arrays : list (list N)) (k : N)
    (st : frameMap * list N) : option (frameMap * list N) :=
  match fuel with
  | O => None
  | S fuel' =>
      let '(addressToFrameMap, stack) := st in
      match JsMap.get addressToFrameMap k with
      | Some _ => Some (addressToFrameMap, stack ++ [k])
      | None =>
          match arrays !! N.to_nat k with
          | Some addrs =>
              foldl (fun acc addr => acc ≫= appendRecursive fuel' arrays addr)
                    (Some st) addrs
          | None =>
              Some (JsMap.set addressToFrameMap k (rawAddressFrame k), stack ++ [k])
          end
      end
  end.

(** The fallback passed to [getOrInsert]: a fresh stack, filled and
    then reversed. *)
Definition resolveBacktrace (fuel : nat) (arrays : list (list N)) (id : N)
    (addressToFrameMap : frameMap) : option (frameMap * list N) :=
  '(addressToFrameMap, stack) ← appendRecursive fuel arrays id (addressToFrameMap, []);
  Some (addressToFrameMap, rev stack).

(** [getOrInsert(map, k, fallback)], with the state that the fallback
    of this module changes. *)
Definition getOrInsert {K V S : Type} `{EqDecision K}
    (map : JsMap.t K V) (k : K) (fallback : K -> S -> option (S * V)) (s : S)
    : option (S * JsMap.t K V * option V) :=
  if negb (JsMap.has map k)
  then '(s', v) ← fallback k s;
       let map' := JsMap.set map k v in Some (s', map', JsMap.get map' k)
  else Some (s, map, JsMap.get map k).

(** One iteration of the first loop over the samples. *)
Definition resolve_step (fuel : nat) (arrays : list (list N))
    (acc : option (frameMap * JsMap.t N (list N))) (sample : Sample)
    : option (frameMap * JsMap.t N (list N)) :=
  '(frames, backtraceIDtoStack) ← acc;
  '(frames', backtraceIDtoStack', _) ←
    getOrInsert backtraceIDtoStack (backtraceID sample)
                (resolveBacktrace fuel arrays) frames;
  Some (frames', backtraceIDtoStack').

(** The first loop over the samples. *)
Definition resolveSamples (fuel : nat) (arrays : list (list N)) (samples : list Sample)
    (addressToFrameMap : frameMap)
    : option (frameMap * JsMap.t N (list N)) :=
  foldl (resolve_step fuel arrays) (Some (addressToFrameMap, JsMap.empty)) samples.

(** The second loop: [sample.backtraceStack = backtraceIDtoStack.get(...)]. *)
Definition attachStacks (backtraceIDtoStack : JsMap.t N (list N)) (samples : list Sample)
    : list Sample :=
  (fun sample =>
     mkSample (timestamp sample) (threadID sample) (backtraceID sample)
              (JsMap.get backtraceIDtoStack (backtraceID sample))) <$> samples.

(** Lines 458-489, once [samples] and [arrays] are read. *)
Definition resolveRun (fuel : nat) (arrays : list (list N)) (samples : list Sample)
    (addressToFrameMap : frameMap) : option (frameMap * list Sample) :=
  '(frames, backtraceIDtoStack) ← resolveSamples fuel arrays samples addressToFrameMap;
  Some (frames, attachStacks backtraceIDtoStack samples).

(** [importRunFromInstrumentsTrace]; the result pairs the map, which
    the source updates in place, with the samples it returns. *)
Definition importRunFromInstrumentsTrace (fuel : nat) (tree : TraceDirectoryTree)
    (addressToFrameMap : frameMap) (runNumber : N) : run (frameMap * list Sample) :=
  let* core := lift (getCoreDirForRun tree runNumber) in
  let* samples := getRawSampleList fuel core in
  let* arrays := getIntegerArrays fuel core in
  match resolveRun fuel arrays samples addressToFrameMap with
  | Some r => Some (ret r)
  | None => None
  end.

(** *** The resolution in the words of the specification *)

(** The leaves of the expansion of [k], in order: a known frame
    address ends the branch, an index of [arrays] is expanded element
    by element, anything else is a raw address. *)
Fixpoint expansion (fuel : nat) (known : N -> bool) (arrays : list (list N)) (k : N)
    : option (list N) :=
  match fuel with
  | O => None
  | S fuel' =>
      if known k then Some [k]
      else match arrays !! N.to_nat k with
           | Some addrs =>
               parts ← mapM (expansion fuel' known arrays) addrs;
               Some (concat parts)
           | None => Some [k]
           end
  end.

(** Registration of the raw-address frames, on first encounter. *)
Definition register (frames : frameMap) (k : N) : frameMap :=
  if JsMap.has frames k then frames else JsMap.set frames k (rawAddressFrame k).

Definition register_all (frames : frameMap) (leaves : list N) : frameMap :=
  foldl register frames leaves.

(** [frames] extends [frames0] by raw-address frames only: every
    added key is no index of [arrays]. *)
Definition extends_raw (arrays : list (list N)) (frames0 frames : frameMap) : Prop :=
  (forall k, JsMap.has frames0 k = true -> JsMap.has frames k = true) /\
  (forall k, JsMap.has frames0 k = false -> JsMap.has frames k = true ->
             arrays !! N.to_nat k = None).

(** A sample with its stack: the leaves reversed, root first. *)
Definition attach (sample : Sample) (leaves : list N) : Sample :=
  mkSample (timestamp sample) (threadID sample) (backtraceID sample) (Some (rev leaves)).

(** The whole resolution of a run without the memo table: every
    sample's id is expanded against the frames known at the start. *)
Definition resolved_run (fuel : nat) (arrays : list (list N)) (samples : list Sample)
    (frames : frameMap) : option (frameMap * list Sample) :=
  (fun ls => (register_all frames (concat ls), zip_with attach samples ls))
    <$> mapM (fun s => expansion fuel (JsMap.has frames) arrays (backtraceID s)) samples.

(** What the memo table holds is right for the frames known at the
    start, and its leaves are all registered. *)
Definition memo_ok (fuel : nat) (arrays : list (list N)) (frames0 frames : frameMap)
    (backtraceIDtoStack : JsMap.t N (list N)) : Prop :=
  forall id st, JsMap.get backtraceIDtoStack id = Some st ->
    exists leaves, expansion fuel (JsMap.has frames0) arrays id = Some leaves /\
                   st = rev leaves /\
                   Forall (fun l => JsMap.has frames l = true) leaves.

(** [n] characters [0]. *)
Fixpoint zero_digits (n : nat) : string :=
  match n with
  | O => ""
  | S n' => String "0" (zero_digits n')
  end.

(** Lowercase hexadecimal digits. *)
Definition is_lower_hex (c : ascii) : bool :=
  let n := N_of_ascii c in
  ((48 <=? n) && (n <=? 57) || (97 <=? n) && (n <=? 102))%N.

Fixpoint string_forall (p : ascii -> bool) (s : string) : bool :=
  match s with
  | EmptyString => true
  | String c s' => p c && string_forall p s'
  end.

End Resolve.

(** ** The columnar tables of a thread *)

Module Tables.

(** Modelled from the spec: the string table [UniqueStringArray], whose
    class is not among the sources of the module: it assigns a stable
    index to each distinct string, a new string taking the next
    index. *)
Abbreviation UniqueStringArray := (list string) (only parsing).

Fixpoint index_of (s : string) (table : list string) : option nat :=
  match table with
  | [] => None
  | x :: table' => if decide (s = x) then Some O else S <$> index_of s table'
  end.

Definition indexForString (table : UniqueStringArray) (s : string)
    : nat * UniqueStringArray :=
  match index_of s table with
  | Some i => (i, table)
  | None => (length table, table ++ [s])
  end.

(** A cell that holds an index, [null] or [undefined]. *)
Inductive js_index : Type :=
| Null
| Undefined
| Index (i : nat).

(** The result of [map.get(k)] stored in a cell. *)
Definition cell_of (o : option nat) : js_index :=
  match o with
  | Some i => Index i
  | None => Undefined
  end.

Module FuncTable.
Record t : Type := mk {
  name : list nat;
  fileName : list nat;
  isJS : list bool;
  resource : list Z;
  lineNumber : list (option N);
  columnNumber : list (option N);
  length : nat
}.
Definition empty : t := mk [] [] [] [] [] [] 0.
End FuncTable.

Module FrameTable.
Record t : Type := mk {
  func : list nat;
  category : list nat;
  address : list nat;
  implementation : list (option nat);
  line : list (option N);
  column : list (option N);
  length : nat
}.
Definition empty : t := mk [] [] [] [] [] [] 0.
End FrameTable.

Module StackTable.
Record t : Type := mk {
  prefix : list js_index;
  frame : list (option nat);
  category : list nat;
  length : nat
}.
Definition empty : t := mk [] [] [] 0.
End StackTable.

Module SamplesTable.
Record t : Type := mk {
  stack : list (option nat);
  time : list Q;
  responsiveness : list (option Q);
  length : nat
}.
Definition empty : t := mk [] [] [] 0.
End SamplesTable.

Record Thread : Type := mkThread {
  name : string;
  funcTable : FuncTable.t;
  frameTable : FrameTable.t;
  stackTable : StackTable.t;
  stringTable : UniqueStringArray;
  samples : SamplesTable.t
}.

(** Modelled from the spec: [getEmptyThread], which the module imports
    from the profile data structures: a thread whose append-only
    tables, string table included, have no row yet. *)
Definition getEmptyThread : Thread :=
  mkThread "Empty" FuncTable.empty FrameTable.empty StackTable.empty [] SamplesTable.empty.

Record Profile : Type := mkProfile {
  platform : option string;
  threads : list Thread
}.

(** Modelled from the spec: [getEmptyProfile], imported likewise: a
    profile with no thread. *)
Definition getEmptyProfile : Profile := mkProfile None [].

End Tables.

(** ** The profile assembler *)

Module Assembler.
Import Trace Resolve Tables.

(** [`${x}`] for a frame address or key. *)
Definition show_key (k : frame_key) : string :=
  match k with
  | KeyString s => s
  | KeyNumber n => pretty n
  end.

(** [getOrCreateFunc]. *)
Definition getOrCreateFunc (funcTable : FuncTable.t)
    (funcKeyToIndex : JsMap.t frame_key nat) (stringTable : UniqueStringArray)
    (name fileName : string) (funcKey : frame_key)
    : nat * FuncTable.t * JsMap.t frame_key nat * UniqueStringArray :=
  match JsMap.get funcKeyToIndex funcKey with
  | Some indexToFunc => (indexToFunc, funcTable, funcKeyToIndex, stringTable)
  | None =>
      let funcKeyToIndex := JsMap.set funcKeyToIndex funcKey (FuncTable.length funcTable) in
      let '(nameIndex, stringTable) := indexForString stringTable name in
      let '(fileNameIndex, stringTable) := indexForString stringTable fileName in
      let indexToFunc := FuncTable.length funcTable in
      (indexToFunc,
       FuncTable.mk (FuncTable.name funcTable ++ [nameIndex])
                    (FuncTable.fileName funcTable ++ [fileNameIndex])
                    (FuncTable.isJS funcTable ++ [false])
                    (FuncTable.resource funcTable ++ [(-1)%Z])
                    (FuncTable.lineNumber funcTable ++ [None])
                    (FuncTable.columnNumber funcTable ++ [None])
                    (S (FuncTable.length funcTable)),
       funcKeyToIndex, stringTable)
  end.

(** [createFrame]. *)
Definition createFrame (frameTable : FrameTable.t) (stringTable : UniqueStringArray)
    (frameKeyToIndex : JsMap.t frame_key nat) (indexToFunc : nat) (frameAddress : frame_key)
    : FrameTable.t * UniqueStringArray * JsMap.t frame_key nat :=
  let '(addressIndex, stringTable) := indexForString stringTable (show_key frameAddress) in
  (FrameTable.mk (FrameTable.func frameTable ++ [indexToFunc])
                 (FrameTable.category frameTable ++ [1%nat])
                 (FrameTable.address frameTable ++ [addressIndex])
                 (FrameTable.implementation frameTable ++ [None])
                 (FrameTable.line frameTable ++ [None])
                 (FrameTable.column frameTable ++ [None])
                 (S (FrameTable.length frameTable)),
   stringTable,
   JsMap.set frameKeyToIndex frameAddress (FrameTable.length frameTable)).

(** [createStack]; the string table it is passed is not used. *)
Definition createStack (stackTable : StackTable.t)
    (stackKeyToIndex : JsMap.t string nat) (stackKey : string)
    (parentIndex : js_index) (frame : option nat)
    : StackTable.t * JsMap.t string nat :=
  (StackTable.mk (StackTable.prefix stackTable ++ [parentIndex])
                 (StackTable.frame stackTable ++ [frame])
                 (StackTable.category stackTable ++ [1%nat])
                 (S (StackTable.length stackTable)),
   JsMap.set stackKeyToIndex stackKey (StackTable.length stackTable)).

(** The tables and maps after the root triple and the loop over
    [addressToFrameMap]. *)
Record FrameState : Type := mkFrameState {
  fs_funcTable : FuncTable.t;
  fs_frameTable : FrameTable.t;
  fs_stringTable : UniqueStringArray;
  fs_funcKeyToIndex : JsMap.t frame_key nat;
  fs_frameKeyToIndex : JsMap.t frame_key nat
}.

(** [getOrCreateFunc] followed by [createFrame], as both the root and
    the loop body do. *)
Definition addFrame (st : FrameState) (name fileName : string) (funcKey frameAddress : frame_key)
    : FrameState :=
  let '(indexToFunc, funcTable, funcKeyToIndex, stringTable) :=
    getOrCreateFunc (fs_funcTable st) (fs_funcKeyToIndex st) (fs_stringTable st)
                    name fileName funcKey in
  let '(frameTable, stringTable, frameKeyToIndex) :=
    createFrame (fs_frameTable st) stringTable (fs_frameKeyToIndex st) indexToFunc frameAddress in
  mkFrameState funcTable frameTable stringTable funcKeyToIndex frameKeyToIndex.

(** The body of [for (const frameData of addressToFrameMap)]. *)
Definition addFrameData (st : FrameState) (frameData : N * FrameInfo) : FrameState :=
  let frameMetaData := frameData.2 in
  let frameAddress := frameData.1 in
  addFrame st (Resolve.name frameMetaData) (default ""%string (file frameMetaData))
           (key frameMetaData) (KeyNumber frameAddress).

Definition rootFrameAddress : frame_key := KeyString "$00000000".
Definition rootStackKey : string := "rootStack".

(** The state before the loop over the samples. *)
Record StackState : Type := mkStackState {
  ss_stackTable : StackTable.t;
  ss_stackKeyToIndex : JsMap.t string nat;
  ss_samples : SamplesTable.t
}.

(** [parentIndex] inside a string. *)
Definition show_index (parentIndex : option nat) : string :=
  match parentIndex with
  | Some i => pretty i
  | None => "undefined"
  end.

(** The inner loop over [stackTrace], from the current frame on; the
    test [index === stackTrace.length - 1] holds at the last frame. *)
Fixpoint walkStack (frameKeyToIndex : JsMap.t frame_key nat) (timestamp : N)
    (stackTrace : list N) (parentIndex : option nat) (st : StackState) : StackState :=
  match stackTrace with
  | [] => st
  | frameAddress :: rest =>
      let keyOfStackKeyToIndexMap :=
        ("$" +:+ show_index parentIndex +:+ "$" +:+ pretty frameAddress)%string in
      let '(stackTable, stackKeyToIndex) :=
        if negb (JsMap.has (ss_stackKeyToIndex st) keyOfStackKeyToIndexMap)
        then createStack (ss_stackTable st) (ss_stackKeyToIndex st)
                         keyOfStackKeyToIndexMap (cell_of parentIndex)
                         (JsMap.get frameKeyToIndex (KeyNumber frameAddress))
        else (ss_stackTable st, ss_stackKeyToIndex st) in
      let parentIndex := JsMap.get stackKeyToIndex keyOfStackKeyToIndexMap in
      let samplesTable :=
        match rest with
        | [] =>
            SamplesTable.mk
              (SamplesTable.stack (ss_samples st)
                 ++ [JsMap.get stackKeyToIndex keyOfStackKeyToIndexMap])
              (SamplesTable.time (ss_samples st)
                 ++ [(inject_Z (Z.of_N timestamp) / 1000000)%Q])
              (SamplesTable.responsiveness (ss_samples st) ++ [None])
              (S (SamplesTable.length (ss_samples st)))
        | _ :: _ => ss_samples st
        end in
      walkStack frameKeyToIndex timestamp rest parentIndex
                (mkStackState stackTable stackKeyToIndex samplesTable)
  end.

(** The body of [for (const sample of samples)]; reading [length] of
    a missing [backtraceStack] throws. *)
Definition processSample (frameKeyToIndex : JsMap.t frame_key nat)
    (st : completion StackState) (sample : Sample) : completion StackState :=
  match st with
  | inl e => inl e
  | inr st =>
      match backtraceStack sample with
      | None => throw "TypeError: stackTrace is undefined"
      | Some stackTrace =>
          let parentIndex := JsMap.get (ss_stackKeyToIndex st) rootStackKey in
          ret (walkStack frameKeyToIndex (timestamp sample) stackTrace parentIndex st)
      end
  end.

(** The tables after the root function and frame are created. *)
Definition rootFrames : FrameState :=
  let thread := getEmptyThread in
  let st := mkFrameState (funcTable thread) (frameTable thread) (stringTable thread)
                         JsMap.empty JsMap.empty in
  addFrame st "(root)" "" (KeyString "(root)") rootFrameAddress.

(** The tables after the loop over [addressToFrameMap]. *)
Definition frameTables (addressToFrameMap : frameMap) : FrameState :=
  foldl addFrameData rootFrames addressToFrameMap.

(** The stack table and its map after the root stack is created. *)
Definition rootStack : StackState :=
  let thread := getEmptyThread in
  let '(stackTable, stackKeyToIndex) :=
    createStack (stackTable thread) JsMap.empty rootStackKey Null
                (JsMap.get (fs_frameKeyToIndex rootFrames) rootFrameAddress) in
  mkStackState stackTable stackKeyToIndex (Tables.samples thread).

(** [getProcessedThread]. *)
Definition getProcessedThread (threadId : N) (samples : list Sample)
    (addressToFrameMap : frameMap) : completion Thread :=
  let fs := frameTables addressToFrameMap in
  match foldl (processSample (fs_frameKeyToIndex fs)) (ret rootStack) samples with
  | inl e => inl e
  | inr st =>
      ret (mkThread ("Thread " +:+ pretty threadId)
                    (fs_funcTable fs) (fs_frameTable fs) (ss_stackTable st)
                    (fs_stringTable fs) (ss_samples st))
  end.

(** The first loop of [pushThreadsInProfile]: samples by thread id. *)
Definition groupSample (threadIDToSamples : JsMap.t N (list Sample)) (sample : Sample)
    : JsMap.t N (list Sample) :=
  match JsMap.get threadIDToSamples (threadID sample) with
  | Some group => JsMap.set threadIDToSamples (threadID sample) (group ++ [sample])
  | None => JsMap.set threadIDToSamples (threadID sample) [sample]
  end.

Definition groupSamples (samples : list Sample) : JsMap.t N (list Sample) :=
  foldl groupSample JsMap.empty samples.

(** The second loop: one processed thread per key, pushed in order. *)
Fixpoint pushThreads (threads : list Thread) (addressToFrameMap : frameMap)
    (groups : list (N * list Sample)) : completion (list Thread) :=
  match groups with
  | [] => ret threads
  | (threadID, group) :: rest =>
      match getProcessedThread threadID group addressToFrameMap with
      | inl e => inl e
      | inr processedThread =>
          pushThreads (threads ++ [processedThread]) addressToFrameMap rest
      end
  end.

(** [pushThreadsInProfile]. *)
Definition pushThreadsInProfile (profile : Profile) (addressToFrameMap : frameMap)
    (samples : list Sample) : completion Profile :=
  match pushThreads (threads profile) addressToFrameMap (groupSamples samples) with
  | inl e => inl e
  | inr threads => ret (mkProfile (platform profile) threads)
  end.

(** [convertInstrumentsProfile] from [getEmptyProfile()] on, for the
    run and frame map that the form template gave. *)
Definition convertRun (fuel : nat) (tree : TraceDirectoryTree)
    (addressToFrameMap : frameMap) (number : N) : run Profile :=
  let profile := getEmptyProfile in
  let* (addressToFrameMap, samples) :=
    importRunFromInstrumentsTrace fuel tree addressToFrameMap number in
  let* profile := lift (pushThreadsInProfile profile addressToFrameMap samples) in
  Some (ret (mkProfile (Some "Macintosh"%string) (threads profile))).

(** *** Invariants of the tables *)

(** Row [i] of a prefix column leads to row 0 along its prefixes. *)
Inductive reaches_root (prefix : list js_index) : nat -> Prop :=
| reaches_root_0 : prefix !! 0%nat = Some Null -> reaches_root prefix 0
| reaches_root_step i p :
    prefix !! i = Some (Index p) -> (p < i)%nat -> reaches_root prefix p ->
    reaches_root prefix i.

(** The prefix column is that of a tree whose root is row 0: the root
    has no prefix and every other row has an earlier row as prefix. *)
Definition prefix_tree (prefix : list js_index) : Prop :=
  prefix !! 0%nat = Some Null /\
  forall i c, prefix !! i = Some c ->
    (i = 0%nat /\ c = Null) \/ (exists p, c = Index p /\ (p < i)%nat).

(** The state of the stack table between two iterations. *)
Definition stack_inv (st : StackState) : Prop :=
  length (StackTable.prefix (ss_stackTable st)) = StackTable.length (ss_stackTable st) /\
  JsMap.get (ss_stackKeyToIndex st) rootStackKey = Some 0%nat /\
  (forall k i, JsMap.get (ss_stackKeyToIndex st) k = Some i ->
               (i < StackTable.length (ss_stackTable st))%nat) /\
  prefix_tree (StackTable.prefix (ss_stackTable st)).

(** Every key that the function map holds is a row of the function
    table. *)
Definition func_ok (st : FrameState) : Prop :=
  forall k v, JsMap.get (fs_funcKeyToIndex st) k = Some v ->
              (v < FuncTable.length (fs_funcTable st))%nat.

(** The frame table has one row per key of [keys], in order: the
    address cell of a row is the index of the key's text in the string
    table, and its function cell is a row of the function table. *)
Definition frame_inv (keys : list frame_key) (st : FrameState) : Prop :=
  Forall2 (fun k a => fs_stringTable st !! a = Some (show_key k))
          keys (FrameTable.address (fs_frameTable st)) /\
  FrameTable.length (fs_frameTable st) = length keys /\
  length (FrameTable.func (fs_frameTable st)) = length keys /\
  Forall (fun f => (f < FuncTable.length (fs_funcTable st))%nat)
         (FrameTable.func (fs_frameTable st)) /\
  func_ok st /\
  NoDup (fs_stringTable st).

(** The keys of the frame rows of a thread: the root, then the
    addresses of the shared map in its order. *)
Definition frame_keys (addressToFrameMap : frameMap) : list frame_key :=
  rootFrameAddress :: (KeyNumber <$> JsMap.keys addressToFrameMap).

(** A sample whose resolved stack has at least one frame. *)
Definition has_frames (sample : Sample) : bool :=
  match backtraceStack sample with
  | Some (_ :: _) => true
  | _ => false
  end.

(** [sample.timestamp / 1000000]. *)
Definition scaled_time (sample : Sample) : Q :=
  (inject_Z (Z.of_N (timestamp sample)) / 1000000)%Q.

End Assembler.

(** ** Keyed archives: expandKeyedArchive *)

Module Archive.

(** JavaScript values: primitives, and references to heap objects. *)
Inductive jsval : Type :=
| VUndefined
| VNull
| VBool (b : bool)
| VNumber (n : Z)
| VString (s : string)
| VRef (a : nat).

#[global] Instance value_eq_dec : EqDecision jsval.
Proof. solve_decision. Defined.

(** Heap objects: instances of [UID], arrays, objects with a null
    prototype ([isDictionary]), [Map]s, and byte buffers.  A dictionary
    lists its fields in enumeration order; a [Map] its entries in
    insertion order. *)
Inductive object : Type :=
| OUID (index : nat)
| OArray (elements : list jsval)
| ODict (fields : JsMap.t string jsval)
| OMap (entries : JsMap.t jsval jsval)
| OBytes (bytes : list byte).

(** The heap: the object at address [a] is [h !! a]. *)
Abbreviation heap := (list object) (only parsing).

Definition isDictionary (h : heap) (v : jsval) : bool :=
  match v with
  | VRef a => match h !! a with Some (ODict _) => true | _ => false end
  | _ => false
  end.


(** [v[key]] where [v] is a dictionary; [undefined] otherwise. *)
Definition prop (h : heap) (v : jsval) (key : string) : jsval :=
  match v with
  | VRef a =>
      match h !! a with
      | Some (ODict fields) => default VUndefined (JsMap.get fields key)
      | _ => VUndefined
      end
  | _ => VUndefined
  end.

(** [v[i]] where [v] is an array; [undefined] otherwise. *)
Definition index (h : heap) (v : jsval) (i : nat) : jsval :=
  match v with
  | VRef a =>
      match h !! a with
      | Some (OArray elements) => default VUndefined (elements !! i)
      | _ => VUndefined
      end
  | _ => VUndefined
  end.

(** [v.length] of an array. *)
Definition arrayLength (h : heap) (v : jsval) : nat :=
  match v with
  | VRef a =>
      match h !! a with
      | Some (OArray elements) => length elements
      | _ => O
      end
  | _ => O
  end.

(** [object[i] = v] on the array at [a], for [i] below its length. *)
Definition setIndex (h : heap) (a : nat) (i : nat) (v : jsval) : heap :=
  match h !! a with
  | Some (OArray elements) => <[a := OArray (<[i := v]> elements)]> h
  | _ => h
  end.




(** JavaScript truthiness. *)
Definition truthy (v : jsval) : bool :=
  match v with
  | VUndefined | VNull => false
  | VBool b => b
  | VNumber n => negb (n =? 0)%Z
  | VString s => negb (bool_decide (s = ""%string))
  | VRef _ => true
  end.

Section WithClassCases.

(** The body of [patternMatchObjectiveC] under its guard: the class
    name is looked up and the class-specific rewriting, the caller's
    [interpretClass] included, gives the value to store (or throws);
    it may allocate and change heap objects. *)
Variable classCases : heap -> jsval -> jsval -> completion jsval * heap.

(** [patternMatchObjectiveC(objects, value, interpretClass)]. *)
Definition patternMatchObjectiveC (h : heap) (objects value : jsval)
    : completion jsval * heap :=
  if isDictionary h value && truthy (prop h value "$class")
  then classCases h objects value
  else (ret value, h).

(** The loop [for (let i = 0; i < root.$objects.length; i++)] that
    rewrites the object table in place, from index [i] on. *)
Fixpoint patternMatchLoop (fuel : nat) (root : jsval) (h : heap) (i : nat)
    : option (option js_error * heap) :=
  match fuel with
  | O => None
  | S fuel' =>
      let objects := prop h root "$objects" in
      if (i <? arrayLength h objects)%nat then
        match patternMatchObjectiveC h objects (index h objects i) with
        | (inl e, h') => Some (Some e, h')
        | (inr v, h') =>
            match objects with
            | VRef oa => patternMatchLoop fuel' root (setIndex h' oa i v) (S i)
            | _ => patternMatchLoop fuel' root h' (S i)
            end
        end
      else Some (None, h)
  end.





End WithClassCases.

(** *** Parse trees on the heap *)




(** [h'] has the objects of [h], changed at most at the addresses [fp]. *)
Definition agree_outside (fp : list nat) (h h' : heap) : Prop :=
  length h' = length h /\ forall x, x ∉ fp -> h' !! x = h !! x.




End Archive.

(** ** A small run *)

Module Example.
Import Trace Resolve.

(** Two arrays, one symbol, and three samples on two threads, two of
    them with the same backtrace id. *)
Definition arrays_example : list (list N) := [[5; 1]; [9]]%N.

Definition frames_example : frameMap :=
  [(5%N, mkFrameInfo (KeyString "a.c:main") "main" (Some "a.c"%string))].

Definition samples_example : list Sample :=
  [mkSample 1000 1 0 None; mkSample 2000 2 0 None; mkSample 3000 1 7 None]%N.

(** Resolved samples of two threads, one of them with an empty stack,
    and the frame map after their resolution. *)
Definition frames_resolved : frameMap :=
  frames_example ++ [(9%N, rawAddressFrame 9); (7%N, rawAddressFrame 7)].

Definition thread1_samples : list Sample :=
  [mkSample 1000 1 0 (Some [9; 5]); mkSample 2000 1 2 (Some []);
   mkSample 3000 1 7 (Some [7])]%N.

Definition all_samples : list Sample :=
  thread1_samples ++ [mkSample 4000 2 0 (Some [9; 5]%N)].

(** A keyed archive without class tags whose table holds a cycle:
    entry 1 refers to entry 2 and entry 2, twice, to entry 1. *)
Definition archive_heap : list Archive.object :=
  [ Archive.ODict [("$version"%string, Archive.VNumber 100000);
                   ("$archiver"%string, Archive.VString "NSKeyedArchiver");
                   ("$top"%string, Archive.VRef 1);
                   ("$objects"%string, Archive.VRef 2)];
    Archive.ODict [("root"%string, Archive.VRef 3)];
    Archive.OArray [Archive.VString "$null"; Archive.VRef 4; Archive.VRef 6];
    Archive.OUID 1;
    Archive.ODict [("name"%string, Archive.VString "A"); ("other"%string, Archive.VRef 5)];
    Archive.OUID 2;
    Archive.ODict [("name"%string, Archive.VString "B"); ("other"%string, Archive.VRef 7);
                   ("list"%string, Archive.VRef 8)];
    Archive.OUID 1;
    Archive.OArray [Archive.VRef 9];
    Archive.OUID 1 ].


(** A trace package with one run: two samples on two threads, the
    first with the backtrace id of a two-element array, and one symbol. *)
Definition trace_records : list (N * N * N) := [(1000, 7, 0); (2000, 8, 1)]%N.

Definition trace_frames : frameMap :=
  [(4096%N, mkFrameInfo (KeyString "a.c:main") "main" (Some "a.c"%string))].

Definition trace_tree : TraceDirectoryTree :=
  Dir "example.trace" []
    [("corespace"%string,
      Dir "corespace" []
        [("run1"%string,
          Dir "run1" []
            [("core"%string,
              Dir "core" []
                (subdirectories
                   (Fixture.core_with_bulkstore
                      (Fixture.bulkstore_bytes 3 16 trace_records))
                 ++ subdirectories
                      (Fixture.core_with_uniquer Fixture.index_bytes Fixture.data_bytes)))])])].

End Example.

(** ** References between the arrays of a run *)

Module ArrayGraph.

(** The expansion of [k] goes through [j]: [k] is no known frame
    address and [j] is an element of the array that [k] indexes. *)
Definition refers (known : N -> bool) (arrays : list (list N)) (k j : N) : Prop :=
  known k = false /\ exists addrs, arrays !! N.to_nat k = Some addrs /\ j ∈ addrs.

(** [l] is met while [k] is expanded, at any depth. *)
Inductive reaches (known : N -> bool) (arrays : list (list N)) : N -> N -> Prop :=
| reaches_one k j : refers known arrays k j -> reaches known arrays k j
| reaches_step k j l :
    refers known arrays k j -> reaches known arrays j l -> reaches known arrays k l.

End ArrayGraph.

(** ** The shape of the tables of a thread *)

Module TableShape.
Import Trace Resolve Tables Assembler.

(** The distinct elements of a list, in the order of their first
    occurrence. *)
Definition first_occurrences {A : Type} `{EqDecision A} (l : list A) : list A :=
  foldl (fun acc x => if bool_decide (x ∈ acc) then acc else acc ++ [x]) [] l.

(** Every column of a table has as many cells as the table has rows. *)
Definition FuncTable_rect (t : FuncTable.t) : Prop :=
  length (FuncTable.name t) = FuncTable.length t /\
  length (FuncTable.fileName t) = FuncTable.length t /\
  length (FuncTable.isJS t) = FuncTable.length t /\
  length (FuncTable.resource t) = FuncTable.length t /\
  length (FuncTable.lineNumber t) = FuncTable.length t /\
  length (FuncTable.columnNumber t) = FuncTable.length t.

Definition FrameTable_rect (t : FrameTable.t) : Prop :=
  length (FrameTable.func t) = FrameTable.length t /\
  length (FrameTable.category t) = FrameTable.length t /\
  length (FrameTable.address t) = FrameTable.length t /\
  length (FrameTable.implementation t) = FrameTable.length t /\
  length (FrameTable.line t) = FrameTable.length t /\
  length (FrameTable.column t) = FrameTable.length t.



(** What the loop over the frame map passes to [getOrCreateFunc] for
    one entry: the function key, with the name and the file name. *)
Definition func_entry (info : FrameInfo) : frame_key * (string * string) :=
  (key info, (Resolve.name info, default ""%string (file info))).

(** The function entries of a thread in the order in which their frame
    rows are created: the root, then the entries of the frame map. *)
Definition func_entries (addressToFrameMap : frameMap)
    : list (frame_key * (string * string)) :=
  (KeyString "(root)", ("(root)"%string, ""%string))
    :: (func_entry <$> JsMap.values addressToFrameMap).

(** The function table after the frames of [entries]: the function map
    numbers the distinct keys in the order of their first occurrence, a
    frame row holds the number of its key, and a function row holds
    the name and the file name that came with the first occurrence. *)
Definition func_rows (entries : list (frame_key * (string * string))) (st : FrameState)
    : Prop :=
  let ks := first_occurrences entries.*1 in
  JsMap.keys (fs_funcKeyToIndex st) = ks /\
  JsMap.values (fs_funcKeyToIndex st) = seq 0 (length ks) /\
  FuncTable.length (fs_funcTable st) = length ks /\
  Forall2 (fun e c => JsMap.get (fs_funcKeyToIndex st) e.1 = Some c)
          entries (FrameTable.func (fs_frameTable st)) /\
  Forall2 (fun k a => exists nm fl, JsMap.get entries k = Some (nm, fl) /\
                                    fs_stringTable st !! a = Some nm)
          ks (FuncTable.name (fs_funcTable st)) /\
  Forall2 (fun k a => exists nm fl, JsMap.get entries k = Some (nm, fl) /\
                                    fs_stringTable st !! a = Some fl)
          ks (FuncTable.fileName (fs_funcTable st)).

End TableShape.

(** ** Stacks as rows of the stack table *)

Module StackPaths.
Import Trace Resolve Tables Assembler.

(** Decimal digits. *)
Definition is_digit (c : ascii) : bool :=
  let n := N_of_ascii c in ((48 <=? n) && (n <=? 57))%N.

(** The key under which the walk files the stack that extends the
    stack of row [parentIndex] by the frame [frameAddress]. *)
Definition stack_key (parentIndex : nat) (frameAddress : N) : string :=
  ("$" +:+ pretty parentIndex +:+ "$" +:+ pretty frameAddress)%string.

(** The row that the keys of [stackKeyToIndex] give to the stack
    [stack] (root first) on top of row [parent]. *)
Fixpoint path_row (stackKeyToIndex : JsMap.t string nat) (parent : nat) (stack : list N)
    : option nat :=
  match stack with
  | [] => Some parent
  | frameAddress :: rest =>
      row ← JsMap.get stackKeyToIndex (stack_key parent frameAddress);
      path_row stackKeyToIndex row rest
  end.

(** The stacks of the samples that get a row of the samples table. *)
Definition sample_stacks (samples : list Sample) : list (list N) :=
  omap backtraceStack (List.filter has_frames samples).

(** Reading a stack back from the tables of a thread: the texts of the
    frame addresses from stack row [i] up to the root row, nearest
    first. *)
Fixpoint stack_addresses (fuel : nat) (thread : Thread) (i : nat) : option (list string) :=
  match fuel with
  | O => None
  | S fuel' =>
      cell ← StackTable.frame (stackTable thread) !! i;
      f ← cell;
      a ← FrameTable.address (frameTable thread) !! f;
      text ← stringTable thread !! a;
      match StackTable.prefix (stackTable thread) !! i with
      | Some Null => Some [text]
      | Some (Index p) => rest ← stack_addresses fuel' thread p; Some (text :: rest)
      | _ => None
      end
  end.

(** Every key of the frame map leads to a frame row with the text of
    the key as its address. *)
Definition frame_index_ok (st : FrameState) : Prop :=
  forall k f, JsMap.get (fs_frameKeyToIndex st) k = Some f ->
    exists a, FrameTable.address (fs_frameTable st) !! f = Some a /\
              fs_stringTable st !! a = Some (show_key k).

(** The state of the stack table between two steps of the walk: the
    stack map numbers its keys in the order of the rows, and the row of
    a key has the parent and the frame that the key names. *)
Definition stack_paths (frameKeyToIndex : JsMap.t frame_key nat) (st : StackState) : Prop :=
  let t := ss_stackTable st in
  let m := ss_stackKeyToIndex st in
  NoDup (JsMap.keys m) /\
  JsMap.values m = seq 0 (StackTable.length t) /\
  length (StackTable.prefix t) = StackTable.length t /\
  length (StackTable.frame t) = StackTable.length t /\
  JsMap.get m rootStackKey = Some 0%nat /\
  StackTable.prefix t !! 0%nat = Some Null /\
  StackTable.frame t !! 0%nat = Some (Some 0%nat) /\
  forall p a i, JsMap.get m (stack_key p a) = Some i ->
    (p < i)%nat /\
    StackTable.prefix t !! i = Some (Index p) /\
    StackTable.frame t !! i = Some (JsMap.get frameKeyToIndex (KeyNumber a)).

(** The cells of the samples table are the rows of the stacks. *)
Definition sample_rows (st : StackState) (stacks : list (list N)) : Prop :=
  Forall2 (fun stack cell =>
             cell = path_row (ss_stackKeyToIndex st) 0 stack /\ is_Some cell)
          stacks (SamplesTable.stack (ss_samples st)).

End StackPaths.

(** ** isInstrumentsProfile *)

Module ProfileFile.

(** [s.split(sep)] for a separator of one character: the pieces of [s]
    between the separators, at least one. *)
Fixpoint split (sep : ascii) (s : string) : list string :=
  match s with
  | EmptyString => [EmptyString]
  | String c s' =>
      if bool_decide (c = sep) then EmptyString :: split sep s'
      else match split sep s' with
           | piece :: pieces => String c piece :: pieces
           | [] => [String c EmptyString]
           end
  end.

(** [isInstrumentsProfile(file)].  The argument is [Some name] for an
    object whose [name] is a string and [None] for any other value, for
    which the file name stays empty. *)
Definition isInstrumentsProfile (file : option string) : bool :=
  let fileName := default ""%string file in
  let fileMetaData := split "." fileName in
  if (length fileMetaData =? 1)%nat
     || (bool_decide (fileMetaData !! 0%nat = Some ""%string)
         && (length fileMetaData =? 2)%nat)
  then false
  else bool_decide (last fileMetaData = Some "trace"%string).

End ProfileFile.

(** ** Objective-C containers: the loops of patternMatchObjectiveC *)

Module ObjC.
Import Archive.

(** [value[key]] on the fields of a dictionary. *)
Definition field (value : JsMap.t string jsval) (key : string) : jsval :=
  default VUndefined (JsMap.get value key).

(** The [while (true)] loop of the [NSArray] case: the values of
    [NS.object.0], [NS.object.1], ... as long as the key is in [value]. *)
Fixpoint nsArrayLoop (fuel : nat) (value : JsMap.t string jsval) (array : list jsval)
    : option (list jsval) :=
  match fuel with
  | O => None
  | S fuel' =>
      let object := ("NS.object." +:+ pretty (length array))%string in
      if negb (JsMap.has value object) then Some array
      else nsArrayLoop fuel' value (array ++ [field value object])
  end.

(** The [NSArray] and [NSMutableArray] case on the dictionary [value]:
    the value of [NS.objects] when the key is there, and else a new
    array filled by the loop. *)
Definition nsArray (fuel : nat) (h : heap) (value : JsMap.t string jsval)
    : option (jsval * heap) :=
  if JsMap.has value "NS.objects" then Some (field value "NS.objects", h)
  else array ← nsArrayLoop fuel value [];
       Some (VRef (length h), h ++ [OArray array]).

(** The [while (true)] loop of the [NSDictionary] case, taken when
    [NS.keys] or [NS.objects] is not in [value]: the index of the next
    pair is the size of the map. *)
Fixpoint nsDictionaryLoop (fuel : nat) (value : JsMap.t string jsval)
    (map : JsMap.t jsval jsval) : option (JsMap.t jsval jsval) :=
  match fuel with
  | O => None
  | S fuel' =>
      let key := ("NS.key." +:+ pretty (JsMap.size map))%string in
      let object := ("NS.object." +:+ pretty (JsMap.size map))%string in
      if negb (JsMap.has value key) || negb (JsMap.has value object) then Some map
      else nsDictionaryLoop fuel' value (JsMap.set map (field value key) (field value object))
  end.

(** [x == null]: [null] or [undefined]. *)
Definition isNullish (v : jsval) : bool :=
  match v with
  | VUndefined | VNull => true
  | _ => false
  end.

(** The loop [for (let i = 3; ; i += 2)] of the [PFTSymbolData] case of
    [readInstrumentsArchive], from index [i] on. *)
Fixpoint addressToLineLoop (fuel : nat) (object : JsMap.t string jsval) (i : nat)
    (addressToLine : JsMap.t jsval jsval) : option (JsMap.t jsval jsval) :=
  match fuel with
  | O => None
  | S fuel' =>
      let address := field object ("$" +:+ pretty i) in
      let line := field object ("$" +:+ pretty (i + 1)%nat) in
      if isNullish address || isNullish line then Some addressToLine
      else addressToLineLoop fuel' object (i + 2) (JsMap.set addressToLine address line)
  end.

(** The [PFTSymbolData] case: a new dictionary with the symbol name,
    the source path and a new [Map] from addresses to lines. *)
Definition pftSymbolData (fuel : nat) (h : heap) (object : JsMap.t string jsval)
    : option (jsval * heap) :=
  addressToLine ← addressToLineLoop fuel object 3 JsMap.empty;
  let ret := length h in
  Some (VRef ret,
        h ++ [ODict [("symbolName"%string, field object "$0");
                     ("sourcePath"%string, field object "$1");
                     ("addressToLine"%string, VRef (S ret))];
              OMap addressToLine]).

(** The pairs that the loops read, in the words of the source comments:
    [n] consecutive values of the keys [prefix ++ i]. *)
Definition numbered (value : JsMap.t string jsval) (prefix : string) (start n : nat)
    : list jsval :=
  (fun i => field value (prefix +:+ pretty i)) <$> seq start n.

End ObjC.

(** ** readFormTemplateFile: the frame maps of the runs *)

Module FormTemplate.
Import Resolve.

(** A text field of an expanded object: a string, [null], or missing. *)
Inductive text : Type :=
| TUndefined
| TNull
| TString (s : string).

(** Truthiness of a text field. *)
Definition text_truthy (t : text) : bool :=
  match t with
  | TString s => negb (bool_decide (s = ""%string))
  | _ => false
  end.

(** [`${t}`]. *)
Definition show_text (t : text) : string :=
  match t with
  | TUndefined => "undefined"
  | TNull => "null"
  | TString s => s
  end.

(** A symbol as the loop destructures it; the addresses are the keys of
    [addressToLine]. *)
Record SymbolInfo : Type := mkSymbolInfo {
  sourcePath : text;
  symbolName : text;
  addressToLine : JsMap.t N N
}.

(** [allRunData]: the run numbers, and for each run number the run
    data, of which the loop reads the entry [symbolsByPid]: for each
    process id the list [symbols], whose entries may be [null]. *)
Record RunListData : Type := mkRunListData {
  runNumbers : list N;
  runData : JsMap.t N (JsMap.t string (JsMap.t N (list (option SymbolInfo))))
}.

(** The fallback passed to [getOrInsert] for one address of a symbol. *)
Definition symbolFrame (symbol : SymbolInfo) (address : N) : FrameInfo :=
  let name := if text_truthy (symbolName symbol) then show_text (symbolName symbol)
              else ("0x" +:+ zeroPad (toString16 address) 16)%string in
  mkFrameInfo (KeyString (show_text (sourcePath symbol) +:+ ":" +:+ name)) name
              (if text_truthy (sourcePath symbol)
               then Some (show_text (sourcePath symbol)) else None).

(** [getOrInsert(addressToFrameMap, address, () => ...)]; the map is
    what the call leaves. *)
Definition insertFrame (addressToFrameMap : frameMap) (symbol : SymbolInfo) (address : N)
    : frameMap :=
  match getOrInsert addressToFrameMap address
                    (fun k (_ : unit) => Some (tt, symbolFrame symbol k)) tt with
  | Some (_, map, _) => map
  | None => addressToFrameMap
  end.

(** The body of [for (const symbol of symbols.symbols)]. *)
Definition addSymbol (addressToFrameMap : frameMap) (symbol : option SymbolInfo) : frameMap :=
  match symbol with
  | None => addressToFrameMap
  | Some symbol =>
      foldl (fun m address => insertFrame m symbol address)
            addressToFrameMap (JsMap.keys (addressToLine symbol))
  end.

(** The [Map] objects that the loop allocates, by address, and the
    array [runs], whose entries hold a run number and the address of a
    map. *)
Record RunsState : Type := mkRunsState {
  maps : list frameMap;
  runs : list (N * nat)
}.

(** The body of [for (const symbols of symbolsByPid.values())]: the
    symbols go into the map at [a], and an entry with this map is
    pushed. *)
Definition addPid (a : nat) (runNumber : N) (st : RunsState)
    (symbols : list (option SymbolInfo)) : RunsState :=
  let addressToFrameMap := foldl addSymbol (default [] (maps st !! a)) symbols in
  mkRunsState (<[a := addressToFrameMap]> (maps st)) (runs st ++ [(runNumber, a)]).

(** The body of [for (const runNumber of allRunData.runNumbers)]. *)
Definition addRun (allRunData : RunListData) (st : completion RunsState) (runNumber : N)
    : completion RunsState :=
  match st with
  | inl e => inl e
  | inr st =>
      match getOrThrow pretty (runData allRunData) runNumber with
      | inl e => inl e
      | inr data =>
          match getOrThrow id data "symbolsByPid"%string with
          | inl e => inl e
          | inr symbolsByPid =>
              let a := length (maps st) in
              let st := mkRunsState (maps st ++ [[]]) (runs st) in
              ret (foldl (addPid a runNumber) st (JsMap.values symbolsByPid))
          end
      end
  end.

(** Lines 519-559 of [readFormTemplateFile]: the array [runs] as the
    caller reads it, each entry with the content of its map. *)
Definition readRuns (allRunData : RunListData) : completion (list (N * frameMap)) :=
  match foldl (addRun allRunData) (ret (mkRunsState [] [])) (runNumbers allRunData) with
  | inl e => inl e
  | inr st => ret ((fun entry : N * nat => (entry.1, default [] (maps st !! entry.2)))
                     <$> runs st)
  end.

(** The frames of a run in the words of the source comments: every
    address of every symbol of every process, in order, with the
    frame that its symbol gives it. *)
Definition symbol_entries (symbol : option SymbolInfo) : list (N * FrameInfo) :=
  match symbol with
  | None => []
  | Some symbol => (fun address => (address, symbolFrame symbol address))
                     <$> JsMap.keys (addressToLine symbol)
  end.

Definition run_entries (symbolsByPid : JsMap.t N (list (option SymbolInfo)))
    : list (N * FrameInfo) :=
  concat (symbol_entries <$> concat (JsMap.values symbolsByPid)).

(** An address that has a frame keeps it. *)
Definition keep_first (m : frameMap) (entry : N * FrameInfo) : frameMap :=
  if JsMap.has m entry.1 then m else JsMap.set m entry.1 entry.2.

(** The map that holds, for each address of [entries], the frame of
    its first occurrence, the addresses in the order of their first
    occurrence. *)
Definition first_frames (entries : list (N * FrameInfo)) : frameMap :=
  foldl keep_first [] entries.

(** The symbols of a run: what [getOrThrow] finds for the run number
    and then for [symbolsByPid]. *)
Definition symbolsOf (allRunData : RunListData) (runNumber : N)
    : option (JsMap.t N (list (option SymbolInfo))) :=
  data ← JsMap.get (runData allRunData) runNumber;
  JsMap.get data "symbolsByPid"%string.

(** The entries of [runs] for one run: one per process, each with the
    frames of all the processes of the run. *)
Definition run_group (allRunData : RunListData) (runNumber : N) : list (N * frameMap) :=
  let symbolsByPid := default [] (symbolsOf allRunData runNumber) in
  replicate (length symbolsByPid) (runNumber, first_frames (run_entries symbolsByPid)).

End FormTemplate.


(** * Facts about the insertion-ordered map *)

Section JsMapFacts.
Context {K V : Type} `{EqDecision K}.
Implicit Types (m : JsMap.t K V) (k : K) (v : V).

Lemma JsMap_get_set_eq m k v : JsMap.get (JsMap.set m k v) k = Some v.
Proof.
  induction m as [|[k' v'] m IH]; simpl.
  - by rewrite decide_True.
  - destruct (decide (k = k')) as [->|Hne]; simpl.
    + by rewrite decide_True.
    + by rewrite decide_False.
Qed.

Lemma JsMap_get_set_ne m k k' v :
  k <> k' -> JsMap.get (JsMap.set m k v) k' = JsMap.get m k'.
Proof.
  intros Hne. induction m as [|[k0 v0] m IH]; simpl.
  - by rewrite decide_False by congruence.
  - destruct (decide (k = k0)) as [->|Hk]; simpl.
    + by rewrite !decide_False by congruence.
    + destruct (decide (k' = k0)); [done|apply IH].
Qed.

Lemma JsMap_has_true m k : JsMap.has m k = true <-> is_Some (JsMap.get m k).
Proof.
  unfold JsMap.has. destruct (JsMap.get m k); split; try done; eauto.
  all: try (intros [? ?]; done).
Qed.

Lemma JsMap_has_false m k : JsMap.has m k = false <-> JsMap.get m k = None.
Proof. unfold JsMap.has. by destruct (JsMap.get m k). Qed.

Lemma JsMap_has_set m k k' v :
  JsMap.has (JsMap.set m k v) k' = bool_decide (k = k') || JsMap.has m k'.
Proof.
  unfold JsMap.has. destruct (decide (k = k')) as [->|Hne].
  - by rewrite JsMap_get_set_eq, bool_decide_eq_true_2.
  - by rewrite JsMap_get_set_ne, bool_decide_eq_false_2.
Qed.

Lemma JsMap_set_absent m k v :
  JsMap.get m k = None -> JsMap.set m k v = m ++ [(k, v)].
Proof.
  induction m as [|[k' v'] m IH]; simpl; [done|].
  destruct (decide (k = k')); [done|]. intros Hm. by rewrite IH.
Qed.

Lemma JsMap_get_elem_of m k v : JsMap.get m k = Some v -> (k, v) ∈ m.
Proof.
  induction m as [|[k' v'] m IH]; simpl; [done|].
  destruct (decide (k = k')) as [->|].
  - intros [= ->]. apply list_elem_of_here.
  - intros Hm. apply list_elem_of_further. by apply IH.
Qed.

Lemma JsMap_get_keys m k : is_Some (JsMap.get m k) <-> k ∈ JsMap.keys m.
Proof.
  unfold JsMap.keys. induction m as [|[k' v'] m IH]; simpl.
  - split; [intros [? ?]; done|intros Hin; by apply elem_of_nil in Hin].
  - destruct (decide (k = k')) as [->|Hne].
    + split; [intros _; apply list_elem_of_here|eauto].
    + rewrite IH. split; [apply list_elem_of_further|].
      intros Hin. apply elem_of_cons in Hin as [?|?]; [congruence|done].
Qed.

End JsMapFacts.


(** * Properties *)

(** ** The magic header of a binary plist *)

Section PlistFacts.
Import Plist.

Lemma byteAt_inj bytes i (b : byte) :
  byteAt bytes i = Some (Byte.to_N b) <-> bytes !! i = Some b.
Proof.
  unfold byteAt. split.
  - destruct (bytes !! i) as [b'|]; simpl; [|done].
    intros [= H]. f_equal.
    apply (f_equal Byte.of_N) in H. rewrite !Byte.of_to_N in H. congruence.
  - intros ->. done.
Qed.

Lemma charCodeAt_magic i :
  (i < 8)%nat -> charCodeAt "bplist00" i = Byte.to_N <$> magic_header !! i.
Proof.
  intros Hi. do 8 (destruct i as [|i]; [reflexivity|]). lia.
Qed.

Lemma header_ok_iff bytes :
  header_mismatch bytes "bplist00" = false <-> take 8 bytes = magic_header.
Proof.
  unfold header_mismatch. rewrite <- not_true_iff_false, existsb_exists.
  split.
  - intros Hno. apply list_eq. intros i.
    destruct (decide (i < 8)%nat) as [Hi|Hi].
    + rewrite lookup_take_lt by done.
      destruct (magic_header !! i) as [b|] eqn:Hb.
      * apply byteAt_inj.
        destruct (decide (byteAt bytes i = charCodeAt "bplist00" i)) as [He|Hne].
        -- rewrite He, charCodeAt_magic, Hb by done. done.
        -- exfalso. apply Hno. exists i. split; [apply in_seq; lia|].
           unfold strict_ne. by rewrite bool_decide_eq_false_2.
      * apply lookup_ge_None in Hb. simpl in Hb. lia.
    + rewrite lookup_take_ge by lia.
      symmetry. apply lookup_ge_None. simpl. lia.
  - intros Heq (i & Hin & Hne). apply in_seq in Hin.
    unfold strict_ne in Hne. apply negb_true_iff, bool_decide_eq_false in Hne.
    apply Hne. rewrite charCodeAt_magic by lia.
    unfold byteAt. rewrite <- Heq, lookup_take_lt by lia. done.
Qed.

(** C8. [parseBinaryPlist] throws its error, and returns nothing,
    exactly when the first eight bytes of the buffer are not the ASCII
    characters [bplist00] (a buffer shorter than eight bytes included);
    a buffer that begins with them passes the check and is handed to
    the parser, whose completion is the result. *)
Theorem parseBinaryPlist_magic_header
    {plist : Type} (parseRoot : list byte -> completion plist) (bytes : list byte) :
  parseBinaryPlist parseRoot bytes =
    if decide (take 8 bytes = magic_header)
    then parseRoot bytes
    else inl (Error "File is not a binary plist").
Proof.
  unfold parseBinaryPlist.
  destruct (header_mismatch bytes "bplist00") eqn:Hm.
  - rewrite decide_False; [done|].
    intros H. apply header_ok_iff in H. congruence.
  - rewrite decide_True; [done|]. by apply header_ok_iff.
Qed.

End PlistFacts.

(** ** The decimal-number placeholder *)

Section DecimalFacts.
Import DecimalNumber.
#[local] Open Scope Q_scope.









End DecimalFacts.


(** ** The binary stores *)

Section StoreFacts.
Import Trace StoreLayout.

Lemma readUint_field width r v :
  field width (BinReader.buffer r) (BinReader.bytePos r) = Some v ->
  BinReader.readUint width r
  = inr (v, BinReader.mk (BinReader.buffer r) (BinReader.bytePos r + Z.of_nat width)).
Proof.
  unfold field, BinReader.readUint.
  destruct (BinReader.slice _ _ _); simpl; [|done]. by intros [= ->].
Qed.

Lemma readUint_truncated width r :
  field width (BinReader.buffer r) (BinReader.bytePos r) = None ->
  BinReader.readUint width r = inl (Error "Truncated read").
Proof.
  unfold field, BinReader.readUint.
  by destruct (BinReader.slice _ _ _).
Qed.

Lemma sampleLoop_records bytes stride records : forall fuel pos samples,
  records_at bytes pos (Z.of_N stride) records ->
  (length records < fuel)%nat ->
  sampleLoop fuel stride (BinReader.mk bytes pos) samples
  = Some (inr (samples ++ (sample_of <$> records))).
Proof.
  induction records as [|[[ts tid] bt] rest IH]; intros fuel pos samples Hrec Hfuel;
    (destruct fuel as [|fuel]; [simpl in Hfuel; lia|]); simpl in Hrec |- *.
  - unfold BinReader.readUint48. rewrite (readUint_field 6 _ 0%N) by done. simpl.
    by rewrite app_nil_r.
  - destruct Hrec as (Hts & Hf1 & Hf2 & Hf3 & Hrest).
    unfold BinReader.readUint48, BinReader.readUint32.
    rewrite (readUint_field 6 _ ts) by done. simpl.
    destruct (N.eqb_spec ts 0) as [|_]; [done|].
    rewrite (readUint_field 4 _ tid) by done. simpl.
    rewrite (readUint_field 4 _ bt); simpl.
    2:{ rewrite <- Hf3. f_equal. lia. }
    match goal with |- context [BinReader.mk bytes ?p] =>
      replace p with (pos + Z.of_N stride) by lia end.
    rewrite IH by (done || simpl in Hfuel; lia).
    by rewrite <- app_assoc.
Qed.

Lemma readBulkstore_layout bytes headerSize stride records fuel :
  bulkstore_layout 3 bytes headerSize stride records ->
  (length records < fuel)%nat ->
  readBulkstore fuel bytes = Some (inr (sample_of <$> records)).
Proof.
  intros (Hpre & Hh & Hs & Hrec) Hfuel. unfold readBulkstore, BinReader.new.
  destruct (Hpre 0%nat) as [w0 Hw0]; [lia|].
  destruct (Hpre 1%nat) as [w1 Hw1]; [lia|].
  destruct (Hpre 2%nat) as [w2 Hw2]; [lia|].
  unfold BinReader.readUint32.
  rewrite (readUint_field 4 _ w0) by done. simpl.
  rewrite (readUint_field 4 _ w1) by done. simpl.
  rewrite (readUint_field 4 _ w2) by done. simpl.
  rewrite (readUint_field 4 _ headerSize) by done. simpl.
  rewrite (readUint_field 4 _ stride) by done. simpl.
  unfold BinReader.seek. simpl.
  by rewrite (sampleLoop_records bytes stride records).
Qed.

Lemma scanStores_selected fuel skipped storedir rest schemaFile bulkstoreFile :
  Forall passed_over skipped ->
  JsMap.get (files storedir) "schema.xml"%string = Some schemaFile ->
  matches_time_profile (asText schemaFile) = true ->
  JsMap.get (files storedir) "bulkstore"%string = Some bulkstoreFile ->
  scanStores fuel (skipped ++ storedir :: rest)
  = readBulkstore fuel (asArrayBuffer bulkstoreFile).
Proof.
  intros Hskip Hschema Hmatch Hbulk.
  induction Hskip as [|d skipped Hd _ IH]; simpl.
  - rewrite Hschema, Hmatch. simpl. unfold getOrThrow. by rewrite Hbulk.
  - unfold passed_over in Hd. destruct (JsMap.get (files d) "schema.xml"%string); [|done].
    by rewrite Hd.
Qed.

(** C4 (as amended). In the first store directory whose schema text
    contains the time-profile marker, [getRawSampleList] ignores a
    preamble of three 32-bit words, reads the header size and the
    per-entry stride as the fourth and fifth words, seeks to the header
    size and reads fixed-stride records up to a zero timestamp: each
    record gives its 48-bit timestamp, the 32-bit thread id that
    follows it, and the 32-bit backtrace id in its last four bytes.
    A buffer laid out this way yields exactly its records, in order. *)
Theorem getRawSampleList_reads_records
    (core stores storedir : TraceDirectoryTree)
    (skipped rest : list TraceDirectoryTree) (schemaFile bulkstoreFile : File)
    (headerSize stride : N) (records : list (N * N * N)) (fuel : nat)
    (Hstores : JsMap.get (subdirectories core) "stores"%string = Some stores)
    (Hdirs : JsMap.values (subdirectories stores) = skipped ++ storedir :: rest)
    (Hskip : Forall passed_over skipped)
    (Hschema : JsMap.get (files storedir) "schema.xml"%string = Some schemaFile)
    (Hmatch : matches_time_profile (asText schemaFile) = true)
    (Hbulk : JsMap.get (files storedir) "bulkstore"%string = Some bulkstoreFile)
    (Hlayout : bulkstore_layout 3 (asArrayBuffer bulkstoreFile) headerSize stride records)
    (Hfuel : (length records < fuel)%nat) :
  getRawSampleList fuel core = Some (inr (sample_of <$> records)).
Proof.
  unfold getRawSampleList, getOrThrow. rewrite Hstores. simpl. rewrite Hdirs.
  rewrite (scanStores_selected fuel skipped storedir rest schemaFile bulkstoreFile) by done.
  by eapply readBulkstore_layout.
Qed.

Lemma getRawSampleList_two_records :
  let bytes := Fixture.bulkstore_bytes 3 16 Fixture.two_records in
  bulkstore_layout 3 bytes 20 16 Fixture.two_records /\
  getRawSampleList 3 (Fixture.core_with_bulkstore bytes)
  = Some (inr [mkSample 1000 7 3 None; mkSample 2000 8 4 None]).
Proof.
  intros bytes.
  assert (Hlayout : bulkstore_layout 3 bytes 20 16 Fixture.two_records).
  { split; [|vm_compute; repeat split; discriminate].
    intros w Hw. do 3 (destruct w as [|w]; [vm_compute; eauto|]). lia. }
  split; [exact Hlayout|].
  eapply (getRawSampleList_reads_records (Fixture.core_with_bulkstore bytes)
            _ _ [] [] _ _ 20 16 Fixture.two_records 3);
    try reflexivity; [constructor|exact Hlayout|simpl; lia].
Defined.

(** C4 (as stated) fails: a bulkstore laid out with a preamble of four
    ignored words, then header size 24 and stride 16, two records and
    the sentinel, does not yield its two records; the reader takes the
    fourth preamble word as the header size and stops at once. *)
Lemma getRawSampleList_four_word_preamble :
  let bytes := Fixture.bulkstore_bytes 4 16 Fixture.two_records in
  bulkstore_layout 4 bytes 24 16 Fixture.two_records /\
  (forall fuel, getRawSampleList fuel (Fixture.core_with_bulkstore bytes)
                <> Some (inr (sample_of <$> Fixture.two_records))) /\
  getRawSampleList 1 (Fixture.core_with_bulkstore bytes) = Some (inr []).
Proof.
  intros bytes. split; [|split].
  - split; [|vm_compute; repeat split; discriminate].
    intros w Hw. do 4 (destruct w as [|w]; [vm_compute; eauto|]). lia.
  - intros [|fuel]; vm_compute; discriminate.
  - reflexivity.
Qed.

End StoreFacts.

Section IntegerArrayFacts.
Import Trace StoreLayout.

Lemma readUint_truncated_eq width r :
  BinReader.readUint width r
  = truncated ((fun v => (v, BinReader.mk (BinReader.buffer r)
                                (BinReader.bytePos r + Z.of_nat width)))
                 <$> field width (BinReader.buffer r) (BinReader.bytePos r)).
Proof.
  destruct (field width (BinReader.buffer r) (BinReader.bytePos r)) as [v|] eqn:Hf.
  - by rewrite (readUint_field _ _ v).
  - by rewrite readUint_truncated.
Qed.

Lemma readArray_spec data base n : forall i array,
  readArray n (BinReader.mk data (base + 8 * Z.of_nat i)) array
  = truncated ((fun xs => (array ++ xs, BinReader.mk data (base + 8 * Z.of_nat (i + n))))
                 <$> mapM (fun j => field 8 data (base + 8 * Z.of_nat j)) (seq i n)).
Proof.
  induction n as [|n IH]; intros i array; simpl.
  - rewrite app_nil_r, Nat.add_0_r. done.
  - unfold BinReader.readUint64. rewrite readUint_truncated_eq. simpl.
    destruct (field 8 data (base + 8 * Z.of_nat i)) as [x|]; simpl; [|done].
    replace (base + 8 * Z.of_nat i + Z.of_nat 8) with (base + 8 * Z.of_nat (S i)) by lia.
    rewrite IH.
    destruct (mapM _ (seq (S i) n)) as [xs|]; simpl; [|done].
    rewrite <- app_assoc. simpl. do 4 f_equal. lia.
Qed.

Lemma field_Some_bound width bytes pos v :
  field width bytes pos = Some v ->
  0 <= pos /\ pos + Z.of_nat width <= Z.of_nat (length bytes).
Proof.
  unfold field, BinReader.slice.
  destruct (0 <=? pos) eqn:H0; simpl; [|done].
  destruct (pos + Z.of_nat width <=? Z.of_nat (length bytes)) eqn:H1; simpl; [|done].
  intros _. lia.
Qed.

Lemma field_is_Some width bytes pos :
  0 <= pos -> pos + Z.of_nat width <= Z.of_nat (length bytes) ->
  is_Some (field width bytes pos).
Proof.
  intros H0 H1. unfold field, BinReader.slice.
  rewrite (proj2 (Z.leb_le _ _) H0), (proj2 (Z.leb_le _ _) H1). simpl. eauto.
Qed.

Lemma indexLoop_spec index data offs : forall i fuel dpos arrays,
  (forall j o, offs !! j = Some o -> index_offset index (i + j) = Some o) ->
  Z.of_nat (length index) <= 32 + 8 * Z.of_nat (i + length offs) ->
  (length offs < fuel)%nat ->
  indexLoop fuel (BinReader.mk index (32 + 8 * Z.of_nat i)) (BinReader.mk data dpos) arrays
  = Some (truncated ((fun new => arrays ++ new)
                       <$> mapM (array_at data) (filter (fun o => o <> 0%N) offs))).
Proof.
  induction offs as [|o offs IH]; intros i fuel dpos arrays Hoffs Hend Hfuel;
    (destruct fuel as [|fuel]; [simpl in Hfuel; lia|]); simpl in Hend, Hfuel.
  - simpl. unfold BinReader.hasMore. simpl.
    destruct (Z.ltb_spec (32 + 8 * Z.of_nat i) (Z.of_nat (length index))); [lia|].
    by rewrite app_nil_r.
  - pose proof (Hoffs 0%nat o eq_refl) as Ho. rewrite Nat.add_0_r in Ho.
    unfold index_offset in Ho.
    destruct (field 4 index (32 + 8 * Z.of_nat i)) as [low|] eqn:Hlow; simpl in Ho; [|done].
    destruct (field 4 index (32 + 8 * Z.of_nat i + 4)) as [high|] eqn:Hhigh; simpl in Ho; [|done].
    injection Ho as Ho.
    pose proof (field_Some_bound _ _ _ _ Hlow) as Hb.
    cbn [indexLoop]. unfold BinReader.hasMore. cbn [BinReader.bytePos BinReader.buffer].
    destruct (Z.ltb_spec (32 + 8 * Z.of_nat i) (Z.of_nat (length index))); [|lia].
    unfold BinReader.readUint32.
    rewrite (readUint_field 4 _ low) by done. cbn [lift run_bind BinReader.bytePos BinReader.buffer].
    rewrite (readUint_field 4 _ high) by done. cbn [lift run_bind BinReader.bytePos BinReader.buffer].
    change (1024 * 1024)%N with 1048576%N. rewrite Ho.
    replace (32 + 8 * Z.of_nat i + Z.of_nat 4 + Z.of_nat 4) with (32 + 8 * Z.of_nat (S i)) by lia.
    assert (Hnext : forall j o', offs !! j = Some o' -> index_offset index (S i + j) = Some o').
    { intros j o' Hj. specialize (Hoffs (S j) o' Hj).
      by replace (S i + j)%nat with (i + S j)%nat by lia. }
    assert (Hend' : Z.of_nat (length index) <= 32 + 8 * Z.of_nat (S i + length offs)) by lia.
    rewrite filter_cons.
    destruct (N.eqb_spec o 0) as [->|Hne].
    + rewrite decide_False by (intros H'; by apply H').
      apply IH; [done|done|lia].
    + rewrite decide_True by done.
      unfold BinReader.seek. cbn [BinReader.bytePos BinReader.buffer].
      rewrite readUint_truncated_eq. cbn [BinReader.bytePos BinReader.buffer].
      cbn [mapM].
      change (array_at data o) with
        (count ← field 4 data (Z.of_N o);
         mapM (fun j => field 8 data (Z.of_N o + 4 + 8 * Z.of_nat j)) (seq 0 (N.to_nat count))).
      destruct (field 4 data (Z.of_N o)) as [count|]; [|done].
      cbn [fmap option_fmap option_map truncated lift run_bind mbind option_bind].
      pose proof (readArray_spec data (Z.of_N o + 4) (N.to_nat count) 0 []) as Harr.
      rewrite Z.mul_0_r, Z.add_0_r in Harr.
      change (Z.of_nat 4) with 4. rewrite Harr. clear Harr.
      match goal with |- context [mapM ?f (seq 0 (N.to_nat count))] =>
        destruct (mapM f (seq 0 (N.to_nat count))) as [xs|] end; [|done].
      cbn [fmap option_fmap option_map truncated lift run_bind mbind option_bind app].
      rewrite (IH (S i) fuel _ (arrays ++ [xs])) by (done || lia).
      destruct (mapM (array_at data) _) as [new|]; [|done].
      cbn. by rewrite <- app_assoc.
Qed.

Lemma index_offset_total index j :
  ((length index - 32) `mod` 8 = 0)%nat ->
  (j < index_count index)%nat ->
  is_Some (index_offset index j).
Proof.
  unfold index_count, index_offset. intros Hmod Hj.
  pose proof (Nat.div_mod_eq (length index - 32) 8) as Hdiv. rewrite Hmod in Hdiv.
  destruct (field_is_Some 4 index (32 + 8 * Z.of_nat j)) as [low ->]; [lia|lia|].
  destruct (field_is_Some 4 index (32 + 8 * Z.of_nat j + 4)) as [high ->]; [lia|lia|].
  simpl. eauto.
Qed.

Lemma index_offsets_total index :
  ((length index - 32) `mod` 8 = 0)%nat ->
  exists offs, mapM (index_offset index) (seq 0 (index_count index)) = Some offs /\
               length offs = index_count index.
Proof.
  intros Hmod.
  destruct (mapM (index_offset index) (seq 0 (index_count index))) as [offs|] eqn:Hm.
  - exists offs. split; [done|]. apply length_mapM in Hm. by rewrite length_seq in Hm.
  - apply mapM_None_1, Exists_exists in Hm. destruct Hm as (j & Hin & Hnone).
    apply elem_of_seq in Hin.
    destruct (index_offset_total index j) as [o Ho]; [done|lia|]. congruence.
Qed.

Lemma readIntegerArrays_spec index data fuel :
  ((length index - 32) `mod` 8 = 0)%nat ->
  (index_count index < fuel)%nat ->
  readIntegerArrays fuel index data = Some (truncated (arrays_of index data)).
Proof.
  intros Hmod Hfuel. destruct (index_offsets_total index Hmod) as (offs & Hoffs & Hlen).
  unfold readIntegerArrays, arrays_of, BinReader.new, BinReader.seek.
  cbn [BinReader.buffer BinReader.bytePos].
  rewrite Hoffs. cbn [mbind option_bind].
  pose proof (indexLoop_spec index data offs 0 fuel 0 []) as H.
  change (32 + 8 * Z.of_nat 0) with 32 in H. rewrite H; clear H.
  - by destruct (mapM (array_at data) _).
  - intros j o Hj. apply mapM_Some_1 in Hoffs.
    eapply Forall2_lookup_r in Hoffs as (j' & Hj' & Ho); [|done].
    apply lookup_seq in Hj' as [-> _]. done.
  - rewrite Hlen. unfold index_count.
    pose proof (Nat.div_mod_eq (length index - 32) 8) as Hdiv. rewrite Hmod in Hdiv. lia.
  - lia.
Qed.

(** C5. [getIntegerArrays] treats [integeruniquer.index] as a 32-byte
    header followed by pairs of 32-bit words, each pair giving the byte
    offset [low + high * 1048576] into [integeruniquer.data]; pairs
    whose offset is zero are skipped, and for every other pair, in
    index order, it reads at that offset of the data file a 32-bit
    element count and then exactly that many 64-bit little-endian
    integers, which form one array of the result.  (The index file is
    taken to end on a whole pair; a read past the end of the data file
    is the reader's error.) *)
Theorem getIntegerArrays_reads_index_order
    (core uniquing arrayUniquer : TraceDirectoryTree) (indexFile dataFile : File)
    (fuel : nat)
    (Huniquing : JsMap.get (subdirectories core) "uniquing"%string = Some uniquing)
    (Huniquer : JsMap.get (subdirectories uniquing) "arrayUniquer"%string = Some arrayUniquer)
    (Hindex : JsMap.get (files arrayUniquer) "integeruniquer.index"%string = Some indexFile)
    (Hdata : JsMap.get (files arrayUniquer) "integeruniquer.data"%string = Some dataFile)
    (Hwhole : ((length (asArrayBuffer indexFile) - 32) `mod` 8 = 0)%nat)
    (Hfuel : (index_count (asArrayBuffer indexFile) < fuel)%nat) :
  getIntegerArrays fuel core
  = Some (truncated (arrays_of (asArrayBuffer indexFile) (asArrayBuffer dataFile))).
Proof.
  unfold getIntegerArrays, getOrThrow.
  rewrite Huniquing. simpl. rewrite Huniquer. simpl. rewrite Hindex. simpl.
  rewrite Hdata. simpl. by apply readIntegerArrays_spec.
Qed.

Lemma getIntegerArrays_two_arrays :
  let core := Fixture.core_with_uniquer Fixture.index_bytes Fixture.data_bytes in
  ((length Fixture.index_bytes - 32) `mod` 8 = 0)%nat /\
  getIntegerArrays 4 core = Some (inr [[4096; 8192]; [5]]%N).
Proof.
  intros core. split; [reflexivity|].
  pose proof (getIntegerArrays_reads_index_order core _ _ _ _ 4
                eq_refl eq_refl eq_refl eq_refl eq_refl) as H.
  rewrite H; [reflexivity|vm_compute; lia].
Defined.

End IntegerArrayFacts.


(** ** Backtrace resolution *)

Section ResolveFacts.
Import Trace Resolve.

Variable arrays : list (list N).

Lemma extends_raw_refl frames : extends_raw arrays frames frames.
Proof. split; [done|]. intros k H1 H2. congruence. Qed.

Lemma expansion_stable (known known' : N -> bool) :
  (forall k, known k = true -> known' k = true) ->
  (forall k, known k = false -> known' k = true -> arrays !! N.to_nat k = None) ->
  forall fuel k, expansion fuel known' arrays k = expansion fuel known arrays k.
Proof.
  intros Hmono Hnew. induction fuel as [|fuel IH]; intros k; simpl; [done|].
  destruct (known k) eqn:Hk.
  - by rewrite (Hmono k Hk).
  - destruct (known' k) eqn:Hk'.
    + by rewrite (Hnew k Hk Hk').
    + destruct (arrays !! N.to_nat k); [|done].
      by rewrite (mapM_ext _ _ _ IH).
Qed.

Lemma expansion_leaves (known : N -> bool) : forall fuel k leaves,
  expansion fuel known arrays k = Some leaves ->
  Forall (fun l => known l = true \/ arrays !! N.to_nat l = None) leaves.
Proof.
  induction fuel as [|fuel IH]; intros k leaves; simpl; [done|].
  destruct (known k) eqn:Hk.
  - intros [= <-]. constructor; [by left|constructor].
  - destruct (arrays !! N.to_nat k) as [addrs|] eqn:Harr.
    + destruct (mapM _ addrs) as [parts|] eqn:Hparts; simpl; [|done].
      intros [= <-]. apply mapM_Some_1 in Hparts.
      apply Forall_concat. clear Harr.
      induction Hparts as [|a p addrs parts Ha _ IHp]; constructor; eauto.
    + intros [= <-]. constructor; [by right|constructor].
Qed.

Lemma register_has frames k k' :
  JsMap.has (register frames k) k' = bool_decide (k = k') || JsMap.has frames k'.
Proof.
  unfold register. destruct (JsMap.has frames k) eqn:Hk.
  - destruct (decide (k = k')) as [<-|Hne].
    + by rewrite Hk, bool_decide_eq_true_2.
    + by rewrite bool_decide_eq_false_2.
  - apply JsMap_has_set.
Qed.

Lemma register_all_has frames leaves k :
  JsMap.has (register_all frames leaves) k
  = bool_decide (k ∈ leaves) || JsMap.has frames k.
Proof.
  unfold register_all. revert frames.
  induction leaves as [|l leaves IH]; intros frames; cbn [foldl].
  - rewrite bool_decide_eq_false_2; [done|]. apply not_elem_of_nil.
  - rewrite IH, register_has.
    destruct (decide (l = k)) as [->|Hne].
    + rewrite (bool_decide_eq_true_2 (k = k)) by done.
      rewrite (bool_decide_eq_true_2 (k ∈ k :: leaves)) by apply list_elem_of_here.
      by rewrite orb_true_r.
    + rewrite (bool_decide_eq_false_2 (l = k)) by done. simpl.
      f_equal. apply bool_decide_ext. rewrite elem_of_cons.
      split; [by right|intros [?|?]; [congruence|done]].
Qed.

Lemma register_all_extends frames0 frames leaves :
  Forall (fun l => JsMap.has frames0 l = true \/ arrays !! N.to_nat l = None) leaves ->
  extends_raw arrays frames0 frames ->
  extends_raw arrays frames0 (register_all frames leaves).
Proof.
  intros Hleaves [Hmono Hnew]. split; intros k Hk.
  - rewrite register_all_has, (Hmono k Hk). apply orb_true_r.
  - rewrite register_all_has. intros Hor. apply orb_true_iff in Hor as [Hin|Hin].
    + apply bool_decide_eq_true in Hin.
      rewrite Forall_forall in Hleaves. destruct (Hleaves k Hin); [congruence|done].
    + by apply Hnew.
Qed.

Lemma register_all_app frames l1 l2 :
  register_all frames (l1 ++ l2) = register_all (register_all frames l1) l2.
Proof. unfold register_all. apply foldl_app. Qed.

Lemma foldl_bind_None {A B : Type} (f : B -> A -> option A) (l : list B) :
  foldl (fun acc x => acc ≫= f x) None l = None.
Proof. induction l; simpl; done. Qed.

Lemma appendRecursive_expansion_gen (frames0 : frameMap) : forall fuel k frames stack,
  extends_raw arrays frames0 frames ->
  appendRecursive fuel arrays k (frames, stack)
  = (fun leaves => (register_all frames leaves, stack ++ leaves))
      <$> expansion fuel (JsMap.has frames0) arrays k.
Proof.
  induction fuel as [|fuel IH]; intros k frames stack Hext; simpl; [done|].
  destruct (JsMap.get frames k) as [f|] eqn:Hget.
  - assert (Hhas : JsMap.has frames k = true) by (apply JsMap_has_true; eauto).
    assert (Hreg : register_all frames [k] = frames).
    { unfold register_all, register. simpl. by rewrite Hhas. }
    destruct (JsMap.has frames0 k) eqn:Hk0; cbn [fmap option_fmap option_map].
    + by rewrite Hreg.
    + rewrite (proj2 Hext k Hk0 Hhas). cbn [fmap option_fmap option_map]. by rewrite Hreg.
  - assert (Hhas : JsMap.has frames k = false) by (by apply JsMap_has_false).
    assert (Hk0 : JsMap.has frames0 k = false).
    { destruct (JsMap.has frames0 k) eqn:Hk0; [|done].
      rewrite (proj1 Hext k Hk0) in Hhas. done. }
    rewrite Hk0.
    destruct (arrays !! N.to_nat k) as [addrs|] eqn:Harr.
    + clear Harr Hget Hhas. revert frames stack Hext.
      induction addrs as [|a addrs IHa]; intros frames stack Hext; simpl.
      * by rewrite app_nil_r.
      * rewrite (IH a frames stack Hext).
        destruct (expansion fuel (JsMap.has frames0) arrays a) as [la|] eqn:Ha; simpl.
        -- rewrite IHa.
           2:{ apply register_all_extends; [|done]. by eapply expansion_leaves. }
           destruct (mapM _ addrs) as [parts|]; simpl; [|done].
           by rewrite register_all_app, app_assoc.
        -- apply foldl_bind_None.
    + simpl. unfold register_all, register. simpl. by rewrite Hhas.
Qed.

Lemma register_all_id frames leaves :
  Forall (fun l => JsMap.has frames l = true) leaves ->
  register_all frames leaves = frames.
Proof.
  unfold register_all. induction 1 as [|l leaves Hl _ IH]; simpl; [done|].
  unfold register at 2. by rewrite Hl.
Qed.

Lemma register_all_registered frames leaves :
  Forall (fun l => JsMap.has (register_all frames leaves) l = true) leaves.
Proof.
  apply Forall_forall. intros l Hl. rewrite register_all_has.
  by rewrite bool_decide_eq_true_2.
Qed.

Lemma resolveBacktrace_expansion frames0 fuel id frames :
  extends_raw arrays frames0 frames ->
  resolveBacktrace fuel arrays id frames
  = (fun leaves => (register_all frames leaves, rev leaves))
      <$> expansion fuel (JsMap.has frames0) arrays id.
Proof.
  intros Hext. unfold resolveBacktrace.
  rewrite (appendRecursive_expansion_gen frames0 fuel id frames [] Hext).
  by destruct (expansion fuel (JsMap.has frames0) arrays id).
Qed.

Lemma resolve_step_None fuel samples : foldl (resolve_step fuel arrays) None samples = None.
Proof. induction samples; simpl; done. Qed.

Lemma resolveSamples_gen fuel frames0 : forall samples frames b2s,
  extends_raw arrays frames0 frames ->
  memo_ok fuel arrays frames0 frames b2s ->
  match mapM (fun s => expansion fuel (JsMap.has frames0) arrays (backtraceID s)) samples with
  | None => foldl (resolve_step fuel arrays) (Some (frames, b2s)) samples = None
  | Some ls =>
      exists b2s',
        foldl (resolve_step fuel arrays) (Some (frames, b2s)) samples
        = Some (register_all frames (concat ls), b2s') /\
        (forall id st, JsMap.get b2s id = Some st -> JsMap.get b2s' id = Some st) /\
        Forall2 (fun s l => JsMap.get b2s' (backtraceID s) = Some (rev l)) samples ls
  end.
Proof.
  induction samples as [|s samples IH]; intros frames b2s Hext Hmemo.
  - simpl. exists b2s. split; [done|]. split; [done|constructor].
  - cbn [mapM foldl]. set (id := backtraceID s).
    assert (Hstep : resolve_step fuel arrays (Some (frames, b2s)) s
      = match expansion fuel (JsMap.has frames0) arrays id with
        | None => None
        | Some leaves =>
            Some (register_all frames leaves,
                  if JsMap.has b2s id then b2s else JsMap.set b2s id (rev leaves))
        end).
    { unfold resolve_step, getOrInsert. cbn [mbind option_bind]. fold id.
      destruct (JsMap.has b2s id) eqn:Hhas; cbn [negb].
      - apply JsMap_has_true in Hhas as [st Hst].
        destruct (Hmemo id st Hst) as (leaves & -> & _ & Hreg).
        by rewrite (register_all_id _ _ Hreg).
      - rewrite (resolveBacktrace_expansion frames0) by done.
        by destruct (expansion fuel (JsMap.has frames0) arrays id). }
    rewrite Hstep. clear Hstep.
    destruct (expansion fuel (JsMap.has frames0) arrays id) as [leaves|] eqn:Hexp;
      cbn [mbind option_bind]; [|apply resolve_step_None].
    set (b2s1 := if JsMap.has b2s id then b2s else JsMap.set b2s id (rev leaves)).
    assert (Hext1 : extends_raw arrays frames0 (register_all frames leaves)).
    { apply register_all_extends; [|done]. by eapply expansion_leaves. }
    assert (Hget1 : JsMap.get b2s1 id = Some (rev leaves)).
    { subst b2s1. destruct (JsMap.has b2s id) eqn:Hhas.
      - apply JsMap_has_true in Hhas as [st Hst].
        destruct (Hmemo id st Hst) as (leaves' & Hexp' & -> & _). congruence.
      - apply JsMap_get_set_eq. }
    assert (Hkeep : forall id' st, JsMap.get b2s id' = Some st -> JsMap.get b2s1 id' = Some st).
    { intros id' st Hst. subst b2s1. destruct (JsMap.has b2s id) eqn:Hhas; [done|].
      rewrite JsMap_get_set_ne; [done|]. intros <-.
      apply JsMap_has_false in Hhas. congruence. }
    assert (Hmemo1 : memo_ok fuel arrays frames0 (register_all frames leaves) b2s1).
    { intros id' st Hst. destruct (decide (id' = id)) as [->|Hne].
      - exists leaves. rewrite Hget1 in Hst. injection Hst as <-.
        split; [done|]. split; [done|]. apply register_all_registered.
      - assert (Hold : JsMap.get b2s id' = Some st).
        { subst b2s1. destruct (JsMap.has b2s id); [done|].
          by rewrite JsMap_get_set_ne in Hst by done. }
        destruct (Hmemo id' st Hold) as (leaves' & Hexp' & -> & Hreg).
        exists leaves'. split; [done|]. split; [done|].
        eapply Forall_impl; [exact Hreg|]. intros l Hl. simpl in Hl.
        rewrite register_all_has, Hl. apply orb_true_r. }
    specialize (IH (register_all frames leaves) b2s1 Hext1 Hmemo1).
    destruct (mapM _ samples) as [ls|]; cbn [mbind option_bind mret option_ret]; [|done].
    destruct IH as (b2s' & Hfold & Hkeep' & Hall).
    exists b2s'. split; [|split].
    + rewrite Hfold. cbn [concat]. by rewrite register_all_app.
    + eauto.
    + constructor; [|done]. by apply Hkeep'.
Qed.

Lemma attachStacks_zip b2s samples ls :
  Forall2 (fun s l => JsMap.get b2s (backtraceID s) = Some (rev l)) samples ls ->
  attachStacks b2s samples = zip_with attach samples ls.
Proof.
  unfold attachStacks. induction 1 as [|s l samples ls Hs _ IH]; simpl; [done|].
  f_equal; [|exact IH]. unfold attach. by rewrite Hs.
Qed.

Lemma resolveRun_resolved_run fuel samples frames :
  resolveRun fuel arrays samples frames = resolved_run fuel arrays samples frames.
Proof.
  unfold resolveRun, resolved_run, resolveSamples.
  pose proof (resolveSamples_gen fuel frames samples frames JsMap.empty
                (extends_raw_refl frames)) as H.
  destruct (mapM _ samples) as [ls|].
  - destruct H as (b2s' & -> & _ & Hall); [intros id st; done|].
    cbn. by rewrite (attachStacks_zip _ _ ls).
  - rewrite H; [done|]. intros id st. done.
Qed.

End ResolveFacts.


(** ** The name of a raw-address frame *)

Section HexFacts.
Import Resolve.

Lemma string_length_append (s1 s2 : string) :
  String.length (s1 +:+ s2) = (String.length s1 + String.length s2)%nat.
Proof. induction s1 as [|c s1 IH]; simpl; [done|]. by rewrite IH. Qed.

Lemma string_forall_append p (s1 s2 : string) :
  string_forall p (s1 +:+ s2) = string_forall p s1 && string_forall p s2.
Proof. induction s1 as [|c s1 IH]; simpl; [done|]. by rewrite IH, andb_assoc. Qed.

Lemma Array_join_zero n : Array_join (S n) "0" = zero_digits n.
Proof.
  unfold Array_join. induction n as [|n IH]; [done|].
  change (replicate (S (S n)) ""%string) with (""%string :: replicate (S n) ""%string).
  cbn [String.concat]. cbn [replicate] in IH |- *. cbn [replicate String.concat] in *.
  simpl in *. by rewrite IH.
Qed.

Lemma zeroPad_eq s width :
  zeroPad s width = (zero_digits (width - String.length s) +:+ s)%string.
Proof.
  unfold zeroPad. rewrite Nat.add_1_r, Array_join_zero. do 2 f_equal. lia.
Qed.

Lemma zero_digits_length n : String.length (zero_digits n) = n.
Proof. induction n; simpl; congruence. Qed.

Lemma zero_digits_lower_hex n : string_forall is_lower_hex (zero_digits n) = true.
Proof. induction n; simpl; done. Qed.

Lemma zero_digits_value n s :
  HexString.Raw.to_N (zero_digits n +:+ s) 0 = HexString.Raw.to_N s 0.
Proof. induction n; simpl; done. Qed.

Lemma div4_step n : ((S (S (S (S n))) + 3) / 4 = S ((n + 3) / 4))%nat.
Proof.
  replace (S (S (S (S n))) + 3)%nat with (n + 3 + 1 * 4)%nat by lia.
  rewrite Nat.div_add by done. lia.
Qed.

Lemma of_pos_length : forall (p : positive) (rest : string),
  String.length (HexString.Raw.of_pos p rest)
  = (String.length rest + (Pos.size_nat p + 3) / 4)%nat.
Proof.
  fix of_pos_length 1. intros p rest.
  do 4 try destruct p as [p|p|];
    try (cbn [HexString.Raw.of_pos Pos.size_nat]; rewrite of_pos_length, div4_step;
         cbn [String.length]; lia);
    cbn; lia.
Qed.

Lemma of_pos_lower_hex : forall (p : positive) (rest : string),
  string_forall is_lower_hex rest = true ->
  string_forall is_lower_hex (HexString.Raw.of_pos p rest) = true.
Proof.
  fix of_pos_lower_hex 1. intros p rest Hrest.
  do 4 try destruct p as [p|p|];
    try (cbn [HexString.Raw.of_pos]; apply of_pos_lower_hex);
    cbn [HexString.Raw.of_pos string_forall]; by rewrite ?Hrest.
Qed.

Lemma size_nat_bound p : forall n,
  (Npos p < 2 ^ N.of_nat n)%N -> (Pos.size_nat p <= n)%nat.
Proof.
  induction p as [p IH|p IH|]; intros [|n] Hlt; simpl in *; try lia.
  - rewrite Nat2N.inj_succ, N.pow_succ_r' in Hlt.
    apply le_n_S, IH. lia.
  - rewrite Nat2N.inj_succ, N.pow_succ_r' in Hlt.
    apply le_n_S, IH. lia.
Qed.

Lemma toString16_length k :
  (k < 2 ^ 64)%N -> (String.length (toString16 k) <= 16)%nat.
Proof.
  destruct k as [|p]; simpl; [lia|]. intros Hlt.
  rewrite of_pos_length. cbn [String.length]. rewrite Nat.add_0_l.
  pose proof (size_nat_bound p 64 Hlt) as Hsize.
  change 16%nat with ((64 + 3) / 4)%nat.
  apply Nat.Div0.div_le_mono. lia.
Qed.

Lemma toString16_value k : HexString.Raw.to_N (toString16 k) 0 = k.
Proof. destruct k as [|p]; [done|]. apply HexString.Raw.to_N_of_pos. Qed.

Lemma toString16_lower_hex k : string_forall is_lower_hex (toString16 k) = true.
Proof. destruct k as [|p]; [done|]. by apply of_pos_lower_hex. Qed.

(** The name is [0x] followed by lowercase hexadecimal digits that
    read back as [k]; there are sixteen of them whenever [k] fits in
    64 bits (never fewer). *)
Lemma rawAddressFrame_name k :
  exists digits,
    name (rawAddressFrame k) = ("0x" +:+ digits)%string /\
    digits = zeroPad (toString16 k) 16 /\
    string_forall is_lower_hex digits = true /\
    HexString.Raw.to_N digits 0 = k /\
    (16 <= String.length digits)%nat /\
    ((k < 2 ^ 64)%N -> String.length digits = 16%nat).
Proof.
  exists (zeroPad (toString16 k) 16). split; [done|]. split; [done|].
  rewrite zeroPad_eq.
  rewrite string_forall_append, zero_digits_lower_hex, toString16_lower_hex.
  rewrite zero_digits_value, toString16_value.
  rewrite string_length_append, zero_digits_length.
  repeat split; [lia|]. intros Hk. pose proof (toString16_length k Hk). lia.
Qed.

End HexFacts.

(** ** Resolution of a run *)

Section ResolutionTheorem.
Import Trace Resolve.

Lemma register_get frames x l :
  JsMap.get (register frames x) l
  = match JsMap.get frames l with
    | Some f => Some f
    | None => if bool_decide (l = x) then Some (rawAddressFrame l) else None
    end.
Proof.
  unfold register. destruct (JsMap.has frames x) eqn:Hx.
  - destruct (JsMap.get frames l) eqn:Hl; [done|].
    rewrite bool_decide_eq_false_2; [done|]. intros ->.
    apply JsMap_has_true in Hx as [? ?]. congruence.
  - apply JsMap_has_false in Hx. destruct (decide (l = x)) as [->|Hne].
    + by rewrite JsMap_get_set_eq, Hx, bool_decide_eq_true_2.
    + rewrite JsMap_get_set_ne by done. rewrite bool_decide_eq_false_2 by done.
      by destruct (JsMap.get frames l).
Qed.

Lemma register_all_get leaves : forall frames l,
  JsMap.get (register_all frames leaves) l
  = match JsMap.get frames l with
    | Some f => Some f
    | None => if bool_decide (l ∈ leaves) then Some (rawAddressFrame l) else None
    end.
Proof.
  unfold register_all.
  induction leaves as [|x leaves IH]; intros frames l; cbn [foldl].
  - rewrite bool_decide_eq_false_2 by apply not_elem_of_nil.
    by destruct (JsMap.get frames l).
  - rewrite IH, register_get.
    destruct (JsMap.get frames l); [done|].
    destruct (decide (l = x)) as [->|Hne].
    + rewrite bool_decide_eq_true_2 by done.
      by rewrite (bool_decide_eq_true_2 (x ∈ x :: leaves)) by apply list_elem_of_here.
    + rewrite bool_decide_eq_false_2 by done.
      apply (f_equal (fun b : bool => if b then _ else _)).
      apply bool_decide_ext. rewrite elem_of_cons.
      split; [by right|intros [?|?]; [congruence|done]].
Qed.

Lemma resolved_run_sample fuel arrays samples frames frames' samples' s' :
  resolved_run fuel arrays samples frames = Some (frames', samples') ->
  s' ∈ samples' ->
  exists leaves,
    expansion fuel (JsMap.has frames) arrays (backtraceID s') = Some leaves /\
    backtraceStack s' = Some (rev leaves).
Proof.
  unfold resolved_run.
  destruct (mapM _ samples) as [ls|] eqn:Hls; simpl; [|done].
  intros [= _ <-] Hin. apply list_elem_of_lookup in Hin as [i Hi].
  apply lookup_zip_with_Some in Hi as (s & l & -> & Hs & Hl).
  apply mapM_Some_1 in Hls.
  destruct (Forall2_lookup_l _ _ _ _ _ Hls Hs) as (l' & Hl' & Hexp).
  exists l. simpl. split; [congruence|done].
Qed.

(** C6. Resolution of backtrace ids is the recursive expansion of the
    specification, and it is memoized per id.  For the frame map
    [frames] known when the run starts: [appendRecursive] appends to
    the stack the leaves of the expansion of [k], in order (a known
    frame address ends its branch, an index of [arrays] is expanded
    element by element, anything else is a raw address), and registers
    a frame for every raw address met; the stacks attached to the
    samples are these leaf sequences reversed, the memo table giving
    the same result as expanding every sample afresh; an id already in
    the table is answered from it, with no change of state; two
    samples with the same id get the same stack; registration leaves
    known frames alone and adds, for a raw address, the frame named
    [0x] followed by the address in lowercase hexadecimal, zero-padded
    to sixteen digits. *)
Theorem backtrace_resolution_memoized
    (fuel : nat) (arrays : list (list N)) (frames : frameMap) :
  (forall k stack,
      appendRecursive fuel arrays k (frames, stack)
      = (fun leaves => (register_all frames leaves, stack ++ leaves))
          <$> expansion fuel (JsMap.has frames) arrays k)
  /\ (forall samples,
      resolveRun fuel arrays samples frames = resolved_run fuel arrays samples frames)
  /\ (forall (b2s : JsMap.t N (list N)) id frames',
      JsMap.has b2s id = true ->
      getOrInsert b2s id (resolveBacktrace fuel arrays) frames'
      = Some (frames', b2s, JsMap.get b2s id))
  /\ (forall samples frames' samples' s1 s2,
      resolveRun fuel arrays samples frames = Some (frames', samples') ->
      s1 ∈ samples' -> s2 ∈ samples' -> backtraceID s1 = backtraceID s2 ->
      is_Some (backtraceStack s1) /\ backtraceStack s1 = backtraceStack s2)
  /\ (forall leaves l,
      JsMap.get (register_all frames leaves) l
      = match JsMap.get frames l with
        | Some f => Some f
        | None => if bool_decide (l ∈ leaves) then Some (rawAddressFrame l) else None
        end)
  /\ (forall k, exists digits,
      name (rawAddressFrame k) = ("0x" +:+ digits)%string /\
      digits = zeroPad (toString16 k) 16 /\
      string_forall is_lower_hex digits = true /\
      HexString.Raw.to_N digits 0 = k /\
      (16 <= String.length digits)%nat /\
      ((k < 2 ^ 64)%N -> String.length digits = 16%nat)).
Proof.
  split; [|split; [|split; [|split; [|split]]]].
  - intros k stack. apply appendRecursive_expansion_gen, extends_raw_refl.
  - intros samples. apply resolveRun_resolved_run.
  - intros b2s id frames' Hhas. unfold getOrInsert. by rewrite Hhas.
  - intros samples frames' samples' s1 s2 Hrun H1 H2 Hid.
    rewrite resolveRun_resolved_run in Hrun.
    destruct (resolved_run_sample _ _ _ _ _ _ _ Hrun H1) as (l1 & He1 & Hs1).
    destruct (resolved_run_sample _ _ _ _ _ _ _ Hrun H2) as (l2 & He2 & Hs2).
    rewrite Hid, He2 in He1. injection He1 as <-.
    split; [eauto|congruence].
  - intros leaves l. apply register_all_get.
  - apply rawAddressFrame_name.
Qed.

Lemma backtrace_resolution_example :
  let run := resolveRun 3 Example.arrays_example Example.samples_example
               Example.frames_example in
  let s1 := mkSample 1000 1 0 (Some [9; 5]%N) in
  let s2 := mkSample 2000 2 0 (Some [9; 5]%N) in
  let s3 := mkSample 3000 1 7 (Some [7%N]) in
  (exists frames', run = Some (frames', [s1; s2; s3])) /\
  (is_Some (backtraceStack s1) /\ backtraceStack s1 = backtraceStack s2) /\
  name (rawAddressFrame 9) = "0x0000000000000009"%string.
Proof.
  intros run s1 s2 s3.
  destruct (backtrace_resolution_memoized 3 Example.arrays_example Example.frames_example)
    as (_ & _ & _ & Hsame & _ & _).
  split; [eexists; reflexivity|]. split; [|reflexivity].
  eapply (Hsame Example.samples_example _ [s1; s2; s3] s1 s2).
  - reflexivity.
  - apply list_elem_of_here.
  - apply list_elem_of_further, list_elem_of_here.
  - reflexivity.
Defined.

End ResolutionTheorem.


(** ** The stack table of a thread *)

Section StackTableFacts.
Import Trace Resolve Tables Assembler.

Lemma stack_key_not_root (parentIndex : option nat) (frameAddress : N) :
  ("$" +:+ show_index parentIndex +:+ "$" +:+ pretty frameAddress)%string <> rootStackKey.
Proof. done. Qed.

Lemma rootStack_inv : stack_inv rootStack.
Proof.
  unfold stack_inv, rootStack. simpl. repeat split.
  - intros k i. destruct (decide (k = rootStackKey)); [|done]. intros [= <-]. lia.
  - intros [|i] c; simpl.
    + intros [= <-]. by left.
    + by rewrite lookup_nil.
Qed.

Lemma createStack_inv st key p frame :
  stack_inv st ->
  (p < StackTable.length (ss_stackTable st))%nat ->
  key <> rootStackKey ->
  stack_inv (mkStackState (createStack (ss_stackTable st) (ss_stackKeyToIndex st)
                                       key (Index p) frame).1
                          (createStack (ss_stackTable st) (ss_stackKeyToIndex st)
                                       key (Index p) frame).2
                          (ss_samples st)).
Proof.
  intros (Hlen & Hroot & Hbound & Hfirst & Htree) Hp Hkey.
  unfold stack_inv, createStack. simpl. repeat split.
  - rewrite length_app. simpl. lia.
  - by rewrite JsMap_get_set_ne.
  - intros k i. destruct (decide (key = k)) as [<-|Hne].
    + rewrite JsMap_get_set_eq. intros [= <-]. lia.
    + rewrite JsMap_get_set_ne by done. intros Hk. specialize (Hbound k i Hk). lia.
  - rewrite lookup_app_l; [done|]. apply lookup_lt_Some in Hfirst. done.
  - intros i c Hi. apply lookup_app_Some in Hi as [Hi|[Hge Hi]].
    + by apply Htree.
    + apply list_lookup_singleton_Some in Hi as [Hi <-].
      right. exists p. split; [done|]. lia.
Qed.

Lemma walkStack_inv frameKeyToIndex timestamp stackTrace : forall parentIndex st,
  stack_inv st ->
  (exists p, parentIndex = Some p /\ (p < StackTable.length (ss_stackTable st))%nat) ->
  stack_inv (walkStack frameKeyToIndex timestamp stackTrace parentIndex st).
Proof.
  induction stackTrace as [|frameAddress rest IH]; intros parentIndex st Hinv (p & -> & Hp);
    [done|].
  cbn [walkStack].
  set (key := ("$" +:+ show_index (Some p) +:+ "$" +:+ pretty frameAddress)%string).
  destruct (JsMap.has (ss_stackKeyToIndex st) key) eqn:Hhas; cbn [negb].
  - apply JsMap_has_true in Hhas as [i Hi].
    apply IH.
    + exact Hinv.
    + exists i. split; [done|]. destruct Hinv as (_ & _ & Hbound & _). simpl. eauto.
  - pose proof (createStack_inv st key p
                  (JsMap.get frameKeyToIndex (KeyNumber frameAddress)) Hinv Hp
                  (stack_key_not_root _ _)) as Hinv'.
    destruct (createStack _ _ key _ _) as [stackTable stackKeyToIndex] eqn:Hcreate.
    simpl in Hinv'.
    assert (Hget : JsMap.get stackKeyToIndex key = Some (StackTable.length (ss_stackTable st))).
    { unfold createStack in Hcreate. injection Hcreate as <- <-. apply JsMap_get_set_eq. }
    apply IH.
    + exact Hinv'.
    + exists (StackTable.length (ss_stackTable st)). split; [done|].
      unfold createStack in Hcreate. injection Hcreate as <- <-. simpl. lia.
Qed.

Lemma processSamples_inv frameKeyToIndex samples : forall st st',
  stack_inv st ->
  foldl (processSample frameKeyToIndex) (inr st) samples = inr st' ->
  stack_inv st'.
Proof.
  induction samples as [|sample samples IH]; intros st st' Hinv; simpl.
  - by intros [= <-].
  - destruct (backtraceStack sample) as [stackTrace|].
    + apply IH, walkStack_inv; [done|].
      destruct Hinv as (Hlen & Hroot & Hbound & Htree).
      exists 0%nat. split; [done|]. eauto.
    + intros Hthrow. exfalso. clear -Hthrow.
      induction samples as [|s samples IHs]; simpl in Hthrow; [done|eauto].
Qed.

Lemma prefix_tree_reaches_root prefix i :
  prefix_tree prefix -> (i < length prefix)%nat -> reaches_root prefix i.
Proof.
  intros [Hroot Htree]. induction i as [i IH] using lt_wf_ind. intros Hi.
  destruct (lookup_lt_is_Some_2 prefix i Hi) as [c Hc].
  destruct (Htree i c Hc) as [[-> ->]|(p & -> & Hp)].
  - by constructor.
  - eapply reaches_root_step; [done|done|]. apply IH; lia.
Qed.

(** C3. In the stack table of every thread that [getProcessedThread]
    returns, row 0 is the root and has the prefix [null], and every
    other row has as prefix the index of a row created before it (in
    particular never [undefined]); so every row leads to the root along
    its prefixes, and the table is a tree rooted at the synthetic root
    stack. *)
Theorem stack_table_prefix_is_earlier_row
    (threadId : N) (samples : list Sample) (addressToFrameMap : frameMap)
    (thread : Thread)
    (Hthread : getProcessedThread threadId samples addressToFrameMap = inr thread) :
  let prefix := StackTable.prefix (stackTable thread) in
  length prefix = StackTable.length (stackTable thread) /\
  prefix !! 0%nat = Some Null /\
  (forall i c, prefix !! i = Some c ->
     (i = 0%nat /\ c = Null) \/ (exists p, c = Index p /\ (p < i)%nat)) /\
  (forall i, (i < length prefix)%nat -> reaches_root prefix i).
Proof.
  unfold getProcessedThread in Hthread.
  destruct (foldl _ _ samples) as [e|st] eqn:Hfold; [done|].
  injection Hthread as <-. simpl.
  destruct (processSamples_inv _ _ _ _ rootStack_inv Hfold) as (Hlen & _ & _ & Htree).
  split; [done|]. split; [apply Htree|]. split; [apply Htree|].
  intros i Hi. by apply prefix_tree_reaches_root.
Qed.

End StackTableFacts.


(** ** The sample table of a thread *)

Section SampleTableFacts.
Import Trace Resolve Tables Assembler.

Lemma walkStack_samples frameKeyToIndex ts stackTrace : forall parentIndex st,
  match stackTrace with
  | [] => ss_samples (walkStack frameKeyToIndex ts stackTrace parentIndex st) = ss_samples st
  | _ :: _ =>
      exists idx,
        ss_samples (walkStack frameKeyToIndex ts stackTrace parentIndex st)
        = SamplesTable.mk
            (SamplesTable.stack (ss_samples st) ++ [idx])
            (SamplesTable.time (ss_samples st) ++ [(inject_Z (Z.of_N ts) / 1000000)%Q])
            (SamplesTable.responsiveness (ss_samples st) ++ [None])
            (S (SamplesTable.length (ss_samples st)))
  end.
Proof.
  induction stackTrace as [|a rest IH]; intros parentIndex st; [done|].
  cbn [walkStack].
  destruct (if negb _ then _ else _) as [stackTable stackKeyToIndex].
  destruct rest as [|b rest].
  - eexists. reflexivity.
  - match goal with |- context [walkStack _ _ _ ?p ?s] => destruct (IH p s) as [idx ->] end.
    by exists idx.
Qed.

Lemma processSample_throw frameKeyToIndex samples e :
  foldl (processSample frameKeyToIndex) (inl e) samples = inl e.
Proof. induction samples; simpl; done. Qed.

Lemma processSamples_table frameKeyToIndex samples : forall st st',
  foldl (processSample frameKeyToIndex) (inr st) samples = inr st' ->
  SamplesTable.time (ss_samples st')
  = SamplesTable.time (ss_samples st) ++ (scaled_time <$> List.filter has_frames samples) /\
  SamplesTable.length (ss_samples st')
  = (SamplesTable.length (ss_samples st) + length (List.filter has_frames samples))%nat /\
  length (SamplesTable.stack (ss_samples st'))
  = (length (SamplesTable.stack (ss_samples st)) + length (List.filter has_frames samples))%nat.
Proof.
  induction samples as [|sample samples IH]; intros st st'; cbn [foldl List.filter].
  - intros [= <-]. simpl. rewrite app_nil_r. split; [done|split; lia].
  - destruct (backtraceStack sample) as [stackTrace|] eqn:Hstack.
    2:{ assert (Hstep : processSample frameKeyToIndex (inr st) sample
                        = inl (Error "TypeError: stackTrace is undefined")).
        { unfold processSample. by rewrite Hstack. }
        rewrite Hstep, processSample_throw. done. }
    assert (Hstep : processSample frameKeyToIndex (inr st) sample
                    = inr (walkStack frameKeyToIndex (timestamp sample) stackTrace
                             (JsMap.get (ss_stackKeyToIndex st) rootStackKey) st)).
    { unfold processSample. by rewrite Hstack. }
    rewrite Hstep. clear Hstep.
    intros Hfold. apply IH in Hfold as (Htime & Hlen & Hstk).
    pose proof (walkStack_samples frameKeyToIndex (timestamp sample) stackTrace
                  (JsMap.get (ss_stackKeyToIndex st) rootStackKey) st) as Hwalk.
    destruct stackTrace as [|a rest].
    + assert (Hf : has_frames sample = false) by (unfold has_frames; by rewrite Hstack).
      rewrite Hf. rewrite Hwalk in Htime, Hlen, Hstk. done.
    + assert (Hf : has_frames sample = true) by (unfold has_frames; by rewrite Hstack).
      rewrite Hf. destruct Hwalk as [idx Hwalk]. rewrite Hwalk in Htime, Hlen, Hstk.
      cbn [SamplesTable.time SamplesTable.length SamplesTable.stack] in Htime, Hlen, Hstk.
      rewrite <- app_assoc in Htime. rewrite length_app in Hstk.
      cbn [fmap list_fmap length app] in *.
      split; [exact Htime|]. split; lia.
Qed.

(** C10. A sample whose resolved stack is empty adds no row to the
    sample table of its thread: the table that [getProcessedThread]
    returns has one row per sample with a non-empty stack, in order
    (its times are theirs, divided by 1000000), so its length is the
    number of those samples, not the number of samples given. *)
Theorem samples_table_skips_empty_stacks
    (threadId : N) (samples : list Sample) (addressToFrameMap : frameMap)
    (thread : Thread)
    (Hthread : getProcessedThread threadId samples addressToFrameMap = inr thread) :
  SamplesTable.length (Tables.samples thread) = length (List.filter has_frames samples) /\
  length (SamplesTable.stack (Tables.samples thread))
  = length (List.filter has_frames samples) /\
  SamplesTable.time (Tables.samples thread) = scaled_time <$> List.filter has_frames samples /\
  (forall before sample after,
      samples = before ++ sample :: after -> backtraceStack sample = Some [] ->
      exists thread',
        getProcessedThread threadId (before ++ after) addressToFrameMap = inr thread' /\
        SamplesTable.length (Tables.samples thread')
        = SamplesTable.length (Tables.samples thread)).
Proof.
  unfold getProcessedThread in *.
  destruct (foldl _ _ samples) as [e|st] eqn:Hfold; [done|].
  injection Hthread as <-. cbn [Tables.samples].
  destruct (processSamples_table _ _ _ _ Hfold) as (Htime & Hlen & Hstk).
  split; [exact Hlen|]. split; [exact Hstk|]. split; [exact Htime|].
  intros before sample after -> Hempty.
  rewrite foldl_app in Hfold. cbn [foldl] in Hfold.
  destruct (foldl _ _ before) as [e|st1] eqn:Hbefore.
  { simpl in Hfold. by rewrite processSample_throw in Hfold. }
  rewrite foldl_app, Hbefore.
  unfold processSample at 2 in Hfold. rewrite Hempty in Hfold.
  cbn [walkStack] in Hfold. unfold ret in *. rewrite Hfold.
  eexists. split; [reflexivity|]. done.
Qed.

End SampleTableFacts.


(** ** The string, function and frame tables of a thread *)

Section FrameTableFacts.
Import Trace Resolve Tables Assembler.

Lemma index_of_Some s table i : index_of s table = Some i -> table !! i = Some s.
Proof.
  revert i. induction table as [|x table IH]; intros i; simpl; [done|].
  destruct (decide (s = x)) as [->|Hne].
  - by intros [= <-].
  - destruct (index_of s table) as [j|]; simpl; [|done].
    intros [= <-]. simpl. by apply IH.
Qed.

Lemma index_of_None s table : index_of s table = None -> s ∉ table.
Proof.
  induction table as [|x table IH]; simpl.
  - intros _. apply not_elem_of_nil.
  - destruct (decide (s = x)) as [->|Hne]; [done|].
    destruct (index_of s table); simpl; [done|].
    intros _. rewrite elem_of_cons. intros [?|?]; [done|]. by apply IH.
Qed.

Lemma indexForString_spec table s :
  (indexForString table s).2 !! (indexForString table s).1 = Some s /\
  table `prefix_of` (indexForString table s).2 /\
  (NoDup table -> NoDup (indexForString table s).2).
Proof.
  unfold indexForString. destruct (index_of s table) as [i|] eqn:Hi; cbn [fst snd].
  - split; [by apply index_of_Some|]. split; [done|done].
  - split; [|split].
    + rewrite lookup_app_r by lia. by rewrite Nat.sub_diag.
    + by apply prefix_app_r.
    + intros Hnd. apply NoDup_app. split; [done|]. split.
      * intros x Hx Hx'. apply list_elem_of_singleton in Hx'. subst.
        by apply index_of_None in Hi.
      * apply NoDup_singleton.
Qed.

Lemma getOrCreateFunc_spec funcTable funcKeyToIndex stringTable name fileName funcKey :
  let r := getOrCreateFunc funcTable funcKeyToIndex stringTable name fileName funcKey in
  stringTable `prefix_of` r.2 /\
  (NoDup stringTable -> NoDup r.2) /\
  ((forall k v, JsMap.get funcKeyToIndex k = Some v -> (v < FuncTable.length funcTable)%nat) ->
   (forall k v, JsMap.get r.1.2 k = Some v -> (v < FuncTable.length r.1.1.2)%nat) /\
   (r.1.1.1 < FuncTable.length r.1.1.2)%nat /\
   (FuncTable.length funcTable <= FuncTable.length r.1.1.2)%nat).
Proof.
  unfold getOrCreateFunc.
  destruct (JsMap.get funcKeyToIndex funcKey) as [i|] eqn:Hget; simpl.
  - split; [done|]. split; [done|]. intros Hok. split; [done|]. split; [by eapply Hok|done].
  - destruct (indexForString_spec stringTable name) as (_ & Hp1 & Hn1).
    destruct (indexForString stringTable name) as [nameIndex strings1].
    destruct (indexForString_spec strings1 fileName) as (_ & Hp2 & Hn2).
    destruct (indexForString strings1 fileName) as [fileNameIndex strings2].
    simpl in *. split; [by etrans|]. split; [eauto|].
    intros Hok. split; [|lia].
    intros k v. destruct (decide (funcKey = k)) as [<-|Hne].
    + rewrite JsMap_get_set_eq. intros [= <-]. lia.
    + rewrite JsMap_get_set_ne by done. intros Hk. specialize (Hok k v Hk). lia.
Qed.

Lemma frame_inv_addFrame keys st name fileName funcKey frameAddress :
  frame_inv keys st ->
  frame_inv (keys ++ [frameAddress]) (addFrame st name fileName funcKey frameAddress).
Proof.
  intros (Hrows & Hlen & Hflen & Hfunc & Hok & Hnd).
  unfold addFrame.
  pose proof (getOrCreateFunc_spec (fs_funcTable st) (fs_funcKeyToIndex st)
                (fs_stringTable st) name fileName funcKey) as Hg.
  destruct (getOrCreateFunc _ _ _ _ _ _) as [[[indexToFunc funcTable] funcKeyToIndex] strings1].
  simpl in Hg. destruct Hg as (Hp1 & Hn1 & Hg). destruct (Hg Hok) as (Hok1 & Hidx & Hle).
  unfold createFrame.
  destruct (indexForString_spec strings1 (show_key frameAddress)) as (Hlook & Hp2 & Hn2).
  destruct (indexForString strings1 (show_key frameAddress)) as [addressIndex strings2].
  simpl in *.
  assert (Hp : fs_stringTable st `prefix_of` strings2) by (by etrans).
  unfold frame_inv. simpl. repeat split.
  - apply Forall2_app.
    + eapply Forall2_impl; [exact Hrows|]. intros k a Ha. simpl in Ha.
      by eapply prefix_lookup_Some.
    + by constructor.
  - rewrite length_app. simpl. lia.
  - rewrite !length_app. simpl. lia.
  - apply Forall_app. split.
    + eapply Forall_impl; [exact Hfunc|]. intros f Hf. simpl in Hf. lia.
    + by constructor.
  - exact Hok1.
  - eauto.
Qed.

Lemma rootFrames_inv : frame_inv [rootFrameAddress] rootFrames.
Proof.
  apply (frame_inv_addFrame [] _ "(root)" "" (KeyString "(root)") rootFrameAddress).
  unfold frame_inv, func_ok. simpl. repeat split; try constructor. done.
Qed.

Lemma frameTables_fold frames : forall keys st,
  frame_inv keys st ->
  frame_inv (keys ++ (KeyNumber <$> JsMap.keys frames)) (foldl addFrameData st frames).
Proof.
  induction frames as [|[addr info] frames IH]; intros keys st Hinv; simpl.
  - by rewrite app_nil_r.
  - rewrite cons_middle, app_assoc. apply IH.
    unfold addFrameData. simpl. by apply frame_inv_addFrame.
Qed.

Lemma frameTables_inv frames : frame_inv (frame_keys frames) (frameTables frames).
Proof. apply (frameTables_fold frames [rootFrameAddress]), rootFrames_inv. Qed.

Lemma getProcessedThread_tables threadId samples frames thread :
  getProcessedThread threadId samples frames = inr thread ->
  funcTable thread = fs_funcTable (frameTables frames) /\
  frameTable thread = fs_frameTable (frameTables frames) /\
  stringTable thread = fs_stringTable (frameTables frames).
Proof.
  unfold getProcessedThread. destruct (foldl _ _ samples); [done|].
  by intros [= <-].
Qed.

Lemma pushThreads_spec frames groups : forall threads threads',
  pushThreads threads frames groups = inr threads' ->
  exists new, threads' = threads ++ new /\
    Forall2 (fun g t => getProcessedThread g.1 g.2 frames = inr t) groups new.
Proof.
  induction groups as [|[threadID group] groups IH]; intros threads threads'; simpl.
  - intros [= <-]. exists []. by rewrite app_nil_r.
  - destruct (getProcessedThread threadID group frames) as [e|t] eqn:Ht; [done|].
    intros Hpush. apply IH in Hpush as (new & -> & Hall).
    exists (t :: new). split; [by rewrite <- app_assoc|]. by constructor.
Qed.

Lemma pushThreadsInProfile_spec profile frames samples profile' :
  pushThreadsInProfile profile frames samples = inr profile' ->
  exists new, threads profile' = threads profile ++ new /\
    Forall2 (fun g t => getProcessedThread g.1 g.2 frames = inr t)
            (groupSamples samples) new.
Proof.
  unfold pushThreadsInProfile.
  destruct (pushThreads _ _ _) as [e|threads'] eqn:Hpush; [done|].
  intros [= <-]. simpl. by apply pushThreads_spec.
Qed.


End FrameTableFacts.


(** ** The frame map shared by the threads of one import *)

Section SharedFrameMapFacts.
Import Trace Resolve Tables Assembler.

Lemma run_bind_inr {A B : Type} (m : run A) (f : A -> run B) (y : B) :
  run_bind m f = Some (inr y) -> exists x, m = Some (inr x) /\ f x = Some (inr y).
Proof. destruct m as [[e|x]|]; simpl; [done| |done]. eauto. Qed.

Lemma importRun_resolveRun fuel tree frames number frames' samples :
  importRunFromInstrumentsTrace fuel tree frames number = Some (inr (frames', samples)) ->
  exists arrays raws, resolveRun fuel arrays raws frames = Some (frames', samples).
Proof.
  unfold importRunFromInstrumentsTrace. intros H.
  apply run_bind_inr in H as (core & _ & H).
  apply run_bind_inr in H as (raws & _ & H).
  apply run_bind_inr in H as (arrays & _ & H).
  exists arrays, raws. destruct (resolveRun fuel arrays raws frames); [|done].
  by injection H as ->.
Qed.

Lemma resolved_run_frames fuel arrays raws (frames frames' : frameMap) samples :
  resolved_run fuel arrays raws frames = Some (frames', samples) ->
  (forall k f, JsMap.get frames k = Some f -> JsMap.get frames' k = Some f) /\
  (forall s stack k, s ∈ samples -> backtraceStack s = Some stack -> k ∈ stack ->
     JsMap.get frames' k = Some (default (rawAddressFrame k) (JsMap.get frames k))).
Proof.
  unfold resolved_run.
  destruct (mapM _ raws) as [ls|] eqn:Hls; simpl; [|done].
  intros [= <- <-]. split.
  - intros k f Hk. by rewrite register_all_get, Hk.
  - intros s stack k Hs Hstack Hk.
    apply list_elem_of_lookup in Hs as [i Hi].
    apply lookup_zip_with_Some in Hi as (raw & l & -> & _ & Hl).
    simpl in Hstack. injection Hstack as <-.
    rewrite register_all_get. destruct (JsMap.get frames k); [done|].
    rewrite bool_decide_eq_true_2; [done|].
    apply list_elem_of_In, in_concat. exists l. split.
    + apply list_elem_of_In. by eapply list_elem_of_lookup_2.
    + apply in_rev, list_elem_of_In. exact Hk.
Qed.

(** C9. The threads of one import are all built from the one
    [addressToFrameMap] that backtrace resolution has updated: the map
    keeps the frames known from the form template and holds a frame for
    every address of every sample's stack (a raw-address frame where
    none was known), and every thread's frame table has the root row
    followed by exactly one row per entry of this map, in its order,
    whatever the thread's own samples refer to; each row's address cell
    indexes the address text in the string table and its function cell
    is a row of the function table. *)
Theorem threads_take_every_shared_frame
    (fuel : nat) (tree : TraceDirectoryTree) (addressToFrameMap : frameMap)
    (number : N) (profile : Profile)
    (Hconvert : convertRun fuel tree addressToFrameMap number = Some (inr profile)) :
  exists (frames' : frameMap) (samples : list Sample),
    importRunFromInstrumentsTrace fuel tree addressToFrameMap number
      = Some (inr (frames', samples)) /\
    (forall k f, JsMap.get addressToFrameMap k = Some f -> JsMap.get frames' k = Some f) /\
    (forall s stack k, s ∈ samples -> backtraceStack s = Some stack -> k ∈ stack ->
       JsMap.get frames' k
       = Some (default (rawAddressFrame k) (JsMap.get addressToFrameMap k))) /\
    length (threads profile) = length (groupSamples samples) /\
    forall t, t ∈ threads profile ->
      FrameTable.length (frameTable t) = S (length frames') /\
      Forall2 (fun k a => stringTable t !! a = Some (show_key k))
              (frame_keys frames') (FrameTable.address (frameTable t)) /\
      length (FrameTable.func (frameTable t)) = S (length frames') /\
      Forall (fun f => (f < FuncTable.length (funcTable t))%nat)
             (FrameTable.func (frameTable t)).
Proof.
  unfold convertRun in Hconvert.
  apply run_bind_inr in Hconvert as ([frames' samples] & Himport & Hconvert).
  apply run_bind_inr in Hconvert as (profile1 & Hpush & Hconvert).
  injection Hconvert as <-. injection Hpush as Hpush.
  exists frames', samples. split; [done|].
  destruct (importRun_resolveRun _ _ _ _ _ _ Himport) as (arrays & raws & Hrun).
  rewrite resolveRun_resolved_run in Hrun.
  destruct (resolved_run_frames _ _ _ _ _ _ Hrun) as (Hkeep & Hraw).
  split; [done|]. split; [done|].
  destruct (pushThreadsInProfile_spec _ _ _ _ Hpush) as (new & Hnew & Hall).
  simpl in Hnew |- *. rewrite Hnew.
  split; [symmetry; by eapply Forall2_length|].
  intros t Ht. apply list_elem_of_lookup in Ht as [i Ht].
  destruct (Forall2_lookup_r _ _ _ _ _ Hall Ht) as (g & _ & Hg).
  apply getProcessedThread_tables in Hg as (-> & -> & ->).
  destruct (frameTables_inv frames') as (Hrows & Hlen & Hflen & Hfunc & _ & _).
  assert (Hkeys : length (frame_keys frames') = S (length frames')).
  { unfold frame_keys, JsMap.keys. simpl. by rewrite !length_fmap. }
  rewrite Hlen, Hflen, Hkeys. done.
Qed.

Lemma threads_take_every_shared_frame_example :
  exists profile,
    convertRun 4 Example.trace_tree Example.trace_frames 1 = Some (inr profile) /\
    length (threads profile) = 2%nat /\
    forall t, t ∈ threads profile -> FrameTable.length (frameTable t) = 4%nat.
Proof.
  eexists. split; [vm_compute; reflexivity|].
  match goal with |- length (threads ?p) = _ /\ _ =>
    destruct (threads_take_every_shared_frame 4 Example.trace_tree Example.trace_frames 1 p
                eq_refl)
      as (frames' & samples & Himport & _ & _ & Hlen & Hthreads)
  end.
  vm_compute in Himport. injection Himport as <- <-.
  split; [reflexivity|].
  intros t Ht. destruct (Hthreads t Ht) as (Hrows & _). exact Hrows.
Defined.

End SharedFrameMapFacts.


(** ** The assembler on a small run *)

Section AssemblerExamples.
Import Trace Resolve Tables Assembler.

Lemma stack_table_example :
  exists thread,
    getProcessedThread 1 Example.thread1_samples Example.frames_resolved = inr thread /\
    StackTable.prefix (stackTable thread) = [Null; Index 0; Index 1; Index 0] /\
    reaches_root (StackTable.prefix (stackTable thread)) 2.
Proof.
  eexists. split; [vm_compute; reflexivity|]. split; [reflexivity|].
  match goal with |- reaches_root (StackTable.prefix (stackTable ?t)) _ =>
    destruct (stack_table_prefix_is_earlier_row 1 Example.thread1_samples
                Example.frames_resolved t eq_refl) as (_ & _ & _ & Hreach)
  end.
  apply Hreach. vm_compute. lia.
Defined.

Lemma samples_table_example :
  exists thread,
    getProcessedThread 1 Example.thread1_samples Example.frames_resolved = inr thread /\
    length Example.thread1_samples = 3%nat /\
    SamplesTable.length (Tables.samples thread) = 2%nat /\
    SamplesTable.stack (Tables.samples thread) = [Some 2; Some 3]%nat.
Proof.
  eexists. split; [vm_compute; reflexivity|]. split; [reflexivity|].
  match goal with |- SamplesTable.length (Tables.samples ?t) = _ /\ _ =>
    destruct (samples_table_skips_empty_stacks 1 Example.thread1_samples
                Example.frames_resolved t eq_refl) as (Hlen & _)
  end.
  split; [exact Hlen|reflexivity].
Defined.


End AssemblerExamples.


(** ** Expansion of a keyed archive *)

Section HeapFacts.
Import Archive.



Lemma agree_outside_weaken fp fp' (h h' : list object) :
  agree_outside fp h h' -> (forall x, x ∈ fp -> x ∈ fp') -> agree_outside fp' h h'.
Proof. intros [Hl H] Hin. split; [done|]. intros x Hx. apply H. intros Hc. eauto. Qed.











End HeapFacts.




Section VisitFacts.
Import Archive.

Variables (r oa : nat) (objects : list jsval).

Lemma JsMap_get_app_r {K V : Type} `{EqDecision K} (m1 m2 : JsMap.t K V) k :
  k ∉ JsMap.keys m1 -> JsMap.get (m1 ++ m2) k = JsMap.get m2 k.
Proof.
  induction m1 as [|[k' v'] m1 IH]; simpl; [done|].
  rewrite not_elem_of_cons. intros [Hne Hk]. simpl in Hne.
  rewrite decide_False by done. by apply IH.
Qed.







End VisitFacts.


Section ExpandFacts.
Import Archive.







End ExpandFacts.


Section ExpandTheorem.
Import Archive.





End ExpandTheorem.


(** ** The binary stores: progress and failure of the readers *)

Section StoreEdgeFacts.
Import Trace StoreLayout.

Lemma readUint_cases width r :
  BinReader.readUint width r = inl (Error "Truncated read") \/
  exists v, field width (BinReader.buffer r) (BinReader.bytePos r) = Some v /\
            BinReader.readUint width r
            = inr (v, BinReader.mk (BinReader.buffer r) (BinReader.bytePos r + Z.of_nat width)).
Proof.
  rewrite readUint_truncated_eq.
  destruct (field width (BinReader.buffer r) (BinReader.bytePos r)) as [v|]; simpl; eauto.
Qed.

(** With a stride of at least one byte every iteration of the sample
    loop moves the cursor forward, so the loop is over within as many
    iterations as the buffer has bytes. *)
Lemma sampleLoop_is_Some stride bytes :
  (0 < stride)%N ->
  forall fuel pos samples,
    Z.of_nat (length bytes) - pos <= Z.of_nat fuel ->
    is_Some (sampleLoop (S fuel) stride (BinReader.mk bytes pos) samples).
Proof.
  intros Hstride. induction fuel as [|fuel IH]; intros pos samples Hfuel.
  - cbn [sampleLoop]. unfold BinReader.readUint48.
    destruct (readUint_cases 6 (BinReader.mk bytes pos)) as [->|(v & Hf & _)];
      [simpl; eauto|].
    apply field_Some_bound in Hf. simpl in Hf. lia.
  - remember (S fuel) as fuel1 eqn:Hfuel1. cbn [sampleLoop].
    unfold BinReader.readUint48, BinReader.readUint32.
    destruct (readUint_cases 6 (BinReader.mk bytes pos)) as [->|(ts & Hts & ->)];
      [simpl; eauto|].
    cbn [lift run_bind]. destruct (ts =? 0)%N; [eauto|].
    match goal with |- context [BinReader.readUint 4 ?r] =>
      destruct (readUint_cases 4 r) as [->|(tid & _ & ->)] end; [simpl; eauto|].
    cbn [lift run_bind].
    match goal with |- context [BinReader.readUint 4 ?r] =>
      destruct (readUint_cases 4 r) as [->|(bt & _ & ->)] end; [simpl; eauto|].
    cbn [lift run_bind BinReader.skip BinReader.buffer BinReader.bytePos].
    subst fuel1. apply IH.
    apply field_Some_bound in Hts. simpl in Hts. lia.
Qed.


Lemma readBulkstore_header bytes headerSize stride fuel :
  field 4 bytes 12 = Some headerSize ->
  field 4 bytes 16 = Some stride ->
  readBulkstore fuel bytes
  = sampleLoop fuel stride (BinReader.mk bytes (Z.of_N headerSize)) [].
Proof.
  intros Hh Hs. pose proof (field_Some_bound _ _ _ _ Hh) as Hb. simpl in Hb.
  destruct (field_is_Some 4 bytes 0) as [w0 Hw0]; [lia|simpl; lia|].
  destruct (field_is_Some 4 bytes 4) as [w1 Hw1]; [lia|simpl; lia|].
  destruct (field_is_Some 4 bytes 8) as [w2 Hw2]; [lia|simpl; lia|].
  unfold readBulkstore, BinReader.new, BinReader.readUint32.
  rewrite (readUint_field 4 _ w0) by done. simpl.
  rewrite (readUint_field 4 _ w1) by done. simpl.
  rewrite (readUint_field 4 _ w2) by done. simpl.
  rewrite (readUint_field 4 _ headerSize) by done. simpl.
  rewrite (readUint_field 4 _ stride) by done. simpl.
  done.
Qed.

Lemma readBulkstore_short bytes fuel :
  field 4 bytes 16 = None ->
  readBulkstore fuel bytes = Some (inl (Error "Truncated read")).
Proof.
  intros Hs. unfold readBulkstore, BinReader.new, BinReader.readUint32.
  assert (Hstep : forall pos,
             BinReader.readUint 4 (BinReader.mk bytes pos)
             = truncated ((fun v => (v, BinReader.mk bytes (pos + 4))) <$> field 4 bytes pos)).
  { intros pos. by rewrite readUint_truncated_eq. }
  rewrite Hstep. destruct (field 4 bytes 0); simpl; [|done].
  rewrite Hstep. destruct (field 4 bytes (0 + 4)); simpl; [|done].
  rewrite Hstep. destruct (field 4 bytes (0 + 4 + 4)); simpl; [|done].
  rewrite Hstep. destruct (field 4 bytes (0 + 4 + 4 + 4)); simpl; [|done].
  rewrite Hstep. change (0 + 4 + 4 + 4 + 4) with 16. by rewrite Hs.
Qed.

(** The reader of a [bulkstore] file comes to an end on every buffer
    whose stride field is not zero: it returns or throws within as many
    iterations as the buffer has bytes. *)
Theorem readBulkstore_terminates (bytes : list byte) (fuel : nat)
    (Hstride : field 4 bytes 16 <> Some 0%N)
    (Hfuel : (length bytes < fuel)%nat) :
  is_Some (readBulkstore fuel bytes).
Proof.
  destruct (field 4 bytes 16) as [stride|] eqn:Hs.
  2:{ rewrite readBulkstore_short by done. eauto. }
  destruct (field 4 bytes 12) as [headerSize|] eqn:Hh.
  2:{ apply field_Some_bound in Hs. simpl in Hs.
      destruct (field_is_Some 4 bytes 12) as [? ?]; [lia|simpl; lia|congruence]. }
  rewrite (readBulkstore_header _ headerSize stride) by done.
  destruct fuel as [|fuel]; [lia|].
  apply sampleLoop_is_Some; [|lia].
  destruct stride; [done|lia].
Qed.

Lemma readBulkstore_terminates_example :
  is_Some (readBulkstore 49 (Fixture.bulkstore_bytes 3 16 [(1000, 7, 3)]%N)).
Proof.
  apply readBulkstore_terminates; [vm_compute; discriminate|vm_compute; lia].
Defined.



(** Every iteration of the index loop that goes on has read one pair. *)
Lemma indexLoop_is_Some (index : list byte) :
  forall fuel pos dreader arrays,
    Z.of_nat (length index) - pos <= 8 * Z.of_nat fuel ->
    is_Some (indexLoop (S fuel) (BinReader.mk index pos) dreader arrays).
Proof.
  induction fuel as [|fuel IH]; intros pos dreader arrays Hfuel.
  - cbn [indexLoop]. unfold BinReader.hasMore. cbn [BinReader.buffer BinReader.bytePos].
    destruct (Z.ltb_spec pos (Z.of_nat (length index))); [lia|eauto].
  - remember (S fuel) as fuel1 eqn:Hfuel1. cbn [indexLoop].
    destruct (BinReader.hasMore _); [|eauto].
    unfold BinReader.readUint32.
    destruct (readUint_cases 4 (BinReader.mk index pos)) as [->|(low & _ & ->)];
      [simpl; eauto|].
    cbn [lift run_bind BinReader.buffer BinReader.bytePos].
    match goal with |- context [BinReader.readUint 4 ?r] =>
      destruct (readUint_cases 4 r) as [->|(high & _ & ->)] end; [simpl; eauto|].
    cbn [lift run_bind BinReader.buffer BinReader.bytePos].
    assert (Hnext : Z.of_nat (length index) - (pos + Z.of_nat 4 + Z.of_nat 4)
                    <= 8 * Z.of_nat fuel) by lia.
    destruct (_ =? 0)%N; [subst fuel1; by apply IH|].
    match goal with |- context [BinReader.readUint 4 ?r] =>
      destruct (readUint_cases 4 r) as [->|(len & _ & ->)] end; [simpl; eauto|].
    cbn [lift run_bind].
    match goal with |- context [readArray ?n ?r ?a] =>
      destruct (readArray n r a) as [e|[array dreader']] end; [simpl; eauto|].
    cbn [lift run_bind]. subst fuel1. by apply IH.
Qed.

(** The reader of the two [integeruniquer] files comes to an end on
    every pair of buffers: it returns or throws within one iteration
    per eight bytes of the index file; and an index file that holds
    nothing beyond its 32-byte header gives no array, whatever the data
    file holds. *)
Theorem readIntegerArrays_terminates (index data : list byte) (fuel : nat)
    (Hfuel : (length index < 8 * fuel)%nat) :
  is_Some (readIntegerArrays fuel index data) /\
  ((length index <= 32)%nat -> readIntegerArrays fuel index data = Some (inr [])).
Proof.
  destruct fuel as [|fuel]; [lia|]. split.
  - unfold readIntegerArrays, BinReader.new, BinReader.seek.
    cbn [BinReader.buffer BinReader.bytePos]. apply indexLoop_is_Some. lia.
  - intros Hshort. unfold readIntegerArrays, BinReader.new, BinReader.seek.
    cbn [BinReader.buffer BinReader.bytePos indexLoop]. unfold BinReader.hasMore.
    cbn [BinReader.buffer BinReader.bytePos].
    destruct (Z.ltb_spec 32 (Z.of_nat (length index))); [lia|done].
Qed.

Lemma readIntegerArrays_terminates_example :
  is_Some (readIntegerArrays 8 Fixture.index_bytes Fixture.data_bytes) /\
  readIntegerArrays 8 (Fixture.zeros 32) Fixture.data_bytes = Some (inr []).
Proof.
  split.
  - apply (readIntegerArrays_terminates Fixture.index_bytes Fixture.data_bytes 8).
    vm_compute. lia.
  - apply (readIntegerArrays_terminates (Fixture.zeros 32) Fixture.data_bytes 8);
      vm_compute; lia.
Defined.

Lemma scanStores_passed_over fuel storedirs :
  Forall passed_over storedirs ->
  scanStores fuel storedirs = Some (inl (Error "Could not find sample list")).
Proof.
  induction 1 as [|d storedirs Hd _ IH]; [done|]. simpl.
  unfold passed_over in Hd. destruct (JsMap.get (files d) "schema.xml"%string); [|done].
  by rewrite Hd.
Qed.

Lemma sampleLoop_not_missing fuel stride : forall reader samples,
  sampleLoop fuel stride reader samples <> Some (inl (Error "Could not find sample list")).
Proof.
  induction fuel as [|fuel IH]; intros reader samples; [done|].
  cbn [sampleLoop]. unfold BinReader.readUint48, BinReader.readUint32.
  destruct (readUint_cases 6 reader) as [->|(ts & _ & ->)]; [done|].
  cbn [lift run_bind]. destruct (ts =? 0)%N; [done|].
  match goal with |- context [BinReader.readUint 4 ?r] =>
    destruct (readUint_cases 4 r) as [->|(tid & _ & ->)] end; [done|].
  cbn [lift run_bind].
  match goal with |- context [BinReader.readUint 4 ?r] =>
    destruct (readUint_cases 4 r) as [->|(bt & _ & ->)] end; [done|].
  cbn [lift run_bind]. apply IH.
Qed.

Lemma readBulkstore_not_missing fuel bytes :
  readBulkstore fuel bytes <> Some (inl (Error "Could not find sample list")).
Proof.
  unfold readBulkstore, BinReader.readUint32.
  repeat (match goal with |- context [BinReader.readUint 4 ?r] =>
            destruct (readUint_cases 4 r) as [->|(? & _ & ->)] end; [done|];
          cbn [lift run_bind]).
  apply sampleLoop_not_missing.
Qed.

Lemma scanStores_missing fuel storedirs :
  scanStores fuel storedirs = Some (inl (Error "Could not find sample list")) ->
  Forall passed_over storedirs.
Proof.
  induction storedirs as [|d storedirs IH]; [constructor|]. simpl.
  destruct (JsMap.get (files d) "schema.xml"%string) as [schemaFile|] eqn:Hschema.
  - destruct (matches_time_profile (asText schemaFile)) eqn:Hmatch; simpl.
    + unfold getOrThrow. destruct (JsMap.get (files d) "bulkstore"%string); simpl.
      * intros H. by apply readBulkstore_not_missing in H.
      * done.
    + intros H. constructor; [|by apply IH]. unfold passed_over. by rewrite Hschema.
  - intros H. constructor; [|by apply IH]. unfold passed_over. by rewrite Hschema.
Qed.

(** [getRawSampleList] throws [Could not find sample list] exactly when
    no store directory has a [schema.xml] whose text contains the
    time-profile marker; a store that has one decides the call, even if
    reading it fails. *)
Theorem getRawSampleList_no_time_profile
    (core stores : TraceDirectoryTree) (fuel : nat)
    (Hstores : JsMap.get (subdirectories core) "stores"%string = Some stores) :
  getRawSampleList fuel core = Some (inl (Error "Could not find sample list"))
  <-> Forall passed_over (JsMap.values (subdirectories stores)).
Proof.
  unfold getRawSampleList, getOrThrow. rewrite Hstores. cbn [lift run_bind ret].
  split; [apply scanStores_missing|apply scanStores_passed_over].
Qed.

Lemma getRawSampleList_no_time_profile_example :
  getRawSampleList 0
    (Dir "core" []
       [("stores"%string,
         Dir "stores" []
           [("0"%string, Dir "0" [("bulkstore"%string, mkFile "" [])] []);
            ("1"%string, Dir "1" [("schema.xml"%string, mkFile "<schema/>" []);
                                  ("bulkstore"%string, mkFile "" [])] [])])])
  = Some (inl (Error "Could not find sample list")).
Proof.
  eapply getRawSampleList_no_time_profile; [reflexivity|].
  repeat constructor.
Defined.

End StoreEdgeFacts.


(** ** Edge cases of the decimal decoder and of the zero padding *)

Section DecimalEdgeFacts.
Import DecimalNumber.
#[local] Open Scope Q_scope.







End DecimalEdgeFacts.

Section ZeroPadFacts.
Import Resolve.

Lemma string_app_zero_digits_suffix n s :
  exists p, (zero_digits n +:+ s)%string = (p +:+ s)%string /\
            string_forall (fun c => bool_decide (c = "0"%char)) p = true.
Proof.
  exists (zero_digits n). split; [done|]. induction n as [|n IH]; simpl; done.
Qed.

(** [zeroPad] puts zeros, and nothing else, in front of the string, up
    to the width: the result is as long as the longer of the two, and a
    string that already has the width, or more, is returned as it is
    (nothing is cut). *)
Theorem zeroPad_pads_to_width (s : string) (width : nat) :
  (exists zeros,
      zeroPad s width = (zeros +:+ s)%string /\
      string_forall (fun c => bool_decide (c = "0"%char)) zeros = true) /\
  String.length (zeroPad s width) = Nat.max width (String.length s) /\
  ((width <= String.length s)%nat -> zeroPad s width = s).
Proof.
  rewrite zeroPad_eq. split; [apply string_app_zero_digits_suffix|]. split.
  - rewrite string_length_append, zero_digits_length. lia.
  - intros Hlong. by replace (width - String.length s)%nat with 0%nat by lia.
Qed.

End ZeroPadFacts.


(** ** Backtrace resolution: when the recursion ends *)

Section RecursionFacts.
Import Trace Resolve ArrayGraph.

Lemma reaches_inv known arrays a b :
  reaches known arrays a b ->
  exists j, refers known arrays a j /\ (j = b \/ reaches known arrays j b).
Proof. destruct 1 as [a b Hab|a j b Haj Hjb]; eauto. Qed.

(** An id whose expansion leads into a cycle has an element with the
    same property. *)
Lemma cycle_next known arrays k c :
  k = c \/ reaches known arrays k c -> reaches known arrays c c ->
  exists j, refers known arrays k j /\ (j = c \/ reaches known arrays j c).
Proof.
  intros [->|Hkc] Hcc; [by apply reaches_inv|by apply reaches_inv].
Qed.

Lemma expansion_cycle known arrays c (Hcc : reaches known arrays c c) :
  forall fuel k, k = c \/ reaches known arrays k c ->
    expansion fuel known arrays k = None.
Proof.
  induction fuel as [|fuel IH]; intros k Hk; [done|].
  destruct (cycle_next known arrays k c Hk Hcc) as (j & (Hknown & addrs & Harr & Hj) & Hjc).
  cbn [expansion]. rewrite Hknown, Harr.
  assert (Hnone : mapM (expansion fuel known arrays) addrs = None).
  { apply mapM_None_2, Exists_exists. exists j. split; [done|]. by apply IH. }
  by rewrite Hnone.
Qed.

Lemma expansion_ranked known arrays (rank : N -> nat)
    (Hrank : forall k j, refers known arrays k j -> (rank j < rank k)%nat) :
  forall fuel k, (rank k < fuel)%nat -> is_Some (expansion fuel known arrays k).
Proof.
  induction fuel as [|fuel IH]; intros k Hk; [lia|].
  cbn [expansion]. destruct (known k) eqn:Hknown; [eauto|].
  destruct (arrays !! N.to_nat k) as [addrs|] eqn:Harr; [|eauto].
  assert (Hall : Forall (fun j => is_Some (expansion fuel known arrays j)) addrs).
  { apply Forall_forall. intros j Hj. apply IH.
    assert (rank j < rank k)%nat; [|lia].
    apply Hrank. split; [done|]. eauto. }
  destruct (mapM (expansion fuel known arrays) addrs) as [parts|] eqn:Hparts; [eauto|].
  apply mapM_None_1, Exists_exists in Hparts as (j & Hj & Hnone).
  rewrite Forall_forall in Hall. destruct (Hall j Hj) as [? ?]. congruence.
Qed.

(** A backtrace id is never resolved when its expansion leads into a
    cycle of the array table (ids that are no known frame addresses and
    index arrays that hold one another): [appendRecursive] calls itself
    without end, and the import of a run with such a sample does not
    return. *)
Theorem appendRecursive_cycle_never_returns
    (arrays : list (list N)) (frames : frameMap) (k c : N)
    (Hleads : k = c \/ reaches (JsMap.has frames) arrays k c)
    (Hcycle : reaches (JsMap.has frames) arrays c c) :
  (forall fuel stack, appendRecursive fuel arrays k (frames, stack) = None) /\
  (forall fuel samples sample,
      sample ∈ samples -> backtraceID sample = k ->
      resolveRun fuel arrays samples frames = None).
Proof.
  split.
  - intros fuel stack.
    rewrite (appendRecursive_expansion_gen arrays frames) by apply extends_raw_refl.
    by rewrite (expansion_cycle _ _ c Hcycle).
  - intros fuel samples sample Hin Hid.
    rewrite resolveRun_resolved_run. unfold resolved_run.
    assert (Hnone : mapM (fun s => expansion fuel (JsMap.has frames) arrays (backtraceID s))
                         samples = None).
    { apply mapM_None_2, Exists_exists. exists sample. split; [done|].
      rewrite Hid. by apply (expansion_cycle _ _ c Hcycle). }
    by rewrite Hnone.
Qed.

Lemma appendRecursive_cycle_example :
  appendRecursive 1000 [[1]; [0]]%N 0 ([], []) = None /\
  resolveRun 1000 [[1]; [0]]%N [mkSample 1000 1 0 None] [] = None.
Proof.
  assert (H01 : refers (JsMap.has ([] : frameMap)) [[1]; [0]]%N 0 1).
  { split; [reflexivity|]. exists [1%N]. split; [reflexivity|]. apply list_elem_of_here. }
  assert (H10 : refers (JsMap.has ([] : frameMap)) [[1]; [0]]%N 1 0).
  { split; [reflexivity|]. exists [0%N]. split; [reflexivity|]. apply list_elem_of_here. }
  destruct (appendRecursive_cycle_never_returns [[1]; [0]]%N [] 0 0) as [Hcall Hrun].
  - by left.
  - eapply reaches_step; [exact H01|]. apply reaches_one. exact H10.
  - split; [apply Hcall|].
    apply (Hrun 1000%nat _ (mkSample 1000 1 0 None)); [apply list_elem_of_here|reflexivity].
Defined.

(** Resolution comes to an end when the array table is well founded:
    if the ids can be ranked so that every element of an array that is
    expanded has a smaller rank than the id of the array, then a fuel
    above the rank of an id is enough for [appendRecursive] to return
    on it, and a fuel above the rank of every sample's id is enough for
    the resolution of the run. *)
Theorem appendRecursive_returns_on_ranked_arrays
    (arrays : list (list N)) (frames : frameMap) (rank : N -> nat)
    (Hrank : forall k j, refers (JsMap.has frames) arrays k j -> (rank j < rank k)%nat) :
  (forall fuel k stack, (rank k < fuel)%nat ->
      exists leaves,
        appendRecursive fuel arrays k (frames, stack)
        = Some (register_all frames leaves, stack ++ leaves)) /\
  (forall fuel samples,
      Forall (fun sample => (rank (backtraceID sample) < fuel)%nat) samples ->
      is_Some (resolveRun fuel arrays samples frames)).
Proof.
  split.
  - intros fuel k stack Hfuel.
    rewrite (appendRecursive_expansion_gen arrays frames) by apply extends_raw_refl.
    destruct (expansion_ranked _ _ rank Hrank fuel k Hfuel) as [leaves ->]. eauto.
  - intros fuel samples Hall.
    rewrite resolveRun_resolved_run. unfold resolved_run.
    destruct (mapM _ samples) as [ls|] eqn:Hls; [simpl; eauto|].
    apply mapM_None_1, Exists_exists in Hls as (s & Hs & Hnone).
    rewrite Forall_forall in Hall.
    destruct (expansion_ranked _ _ rank Hrank fuel (backtraceID s) (Hall s Hs)) as [? ?].
    congruence.
Qed.

Lemma appendRecursive_returns_example :
  exists leaves,
    appendRecursive 3 Example.arrays_example 0 (Example.frames_example, [])
    = Some (register_all Example.frames_example leaves, [] ++ leaves).
Proof.
  refine (proj1 (appendRecursive_returns_on_ranked_arrays
                   Example.arrays_example Example.frames_example
                   (fun k => match k with 0%N => 2%nat | 1%N => 1%nat | _ => 0%nat end) _)
                3%nat 0%N [] _); [|simpl; lia].
  intros k j (Hknown & addrs & Harr & Hj).
  destruct k as [|[p|p|]].
  - simpl in Harr. injection Harr as <-.
    apply elem_of_cons in Hj as [->|Hj]; [simpl; lia|].
    apply list_elem_of_singleton in Hj as ->. simpl. lia.
  - exfalso. revert Harr. apply eq_None_ne_Some_1, lookup_ge_None_2.
    change (length Example.arrays_example) with 2%nat.
    rewrite positive_N_nat, Pos2Nat.inj_xI. pose proof (Pos2Nat.is_pos p). lia.
  - exfalso. revert Harr. apply eq_None_ne_Some_1, lookup_ge_None_2.
    change (length Example.arrays_example) with 2%nat.
    rewrite positive_N_nat, Pos2Nat.inj_xO. pose proof (Pos2Nat.is_pos p). lia.
  - simpl in Harr. injection Harr as <-.
    apply list_elem_of_singleton in Hj as ->. simpl. lia.
Defined.

End RecursionFacts.


(** ** The shape of the tables *)

Section TableShapeFacts.
Import Trace Resolve Tables Assembler TableShape.

Lemma addFrame_rect st name fileName funcKey frameAddress :
  FuncTable_rect (fs_funcTable st) -> FrameTable_rect (fs_frameTable st) ->
  FuncTable_rect (fs_funcTable (addFrame st name fileName funcKey frameAddress)) /\
  FrameTable_rect (fs_frameTable (addFrame st name fileName funcKey frameAddress)).
Proof.
  intros (F1 & F2 & F3 & F4 & F5 & F6) (R1 & R2 & R3 & R4 & R5 & R6).
  unfold addFrame, getOrCreateFunc, createFrame.
  destruct (JsMap.get (fs_funcKeyToIndex st) funcKey) as [i|].
  - destruct (indexForString _ _) as [a strings]. simpl.
    unfold FuncTable_rect, FrameTable_rect. simpl. rewrite !length_app. simpl.
    repeat split; lia.
  - destruct (indexForString (fs_stringTable st) name) as [a1 s1].
    destruct (indexForString s1 fileName) as [a2 s2].
    destruct (indexForString s2 (show_key frameAddress)) as [a3 s3]. simpl.
    unfold FuncTable_rect, FrameTable_rect. simpl. rewrite !length_app. simpl.
    repeat split; lia.
Qed.

Lemma frameTables_rect frames :
  FuncTable_rect (fs_funcTable (frameTables frames)) /\
  FrameTable_rect (fs_frameTable (frameTables frames)).
Proof.
  unfold frameTables.
  assert (Hroot : FuncTable_rect (fs_funcTable rootFrames) /\
                  FrameTable_rect (fs_frameTable rootFrames)).
  { unfold rootFrames. apply addFrame_rect; unfold FuncTable_rect, FrameTable_rect; simpl; done. }
  revert Hroot. generalize rootFrames.
  induction frames as [|[addr info] frames IH]; intros st [Hf Hr]; simpl; [done|].
  apply IH. unfold addFrameData. by apply addFrame_rect.
Qed.






End TableShapeFacts.

(** ** Function rows *)

Section FuncRowsFacts.
Import Trace Resolve Tables Assembler TableShape.

Lemma first_occurrences_snoc {A : Type} `{EqDecision A} (l : list A) x :
  first_occurrences (l ++ [x])
  = if bool_decide (x ∈ first_occurrences l)
    then first_occurrences l else first_occurrences l ++ [x].
Proof. unfold first_occurrences. by rewrite foldl_app. Qed.

Lemma first_occurrences_spec {A : Type} `{EqDecision A} (l : list A) :
  NoDup (first_occurrences l) /\ forall x, x ∈ first_occurrences l <-> x ∈ l.
Proof.
  induction l as [|x l [IHnd IHin]] using rev_ind.
  - split; [constructor|done].
  - rewrite first_occurrences_snoc. case_bool_decide as Hx.
    + split; [done|]. intros y. rewrite elem_of_app, list_elem_of_singleton, IHin.
      split; [by left|]. intros [?| ->]; [done|]. by apply IHin.
    + split.
      * apply NoDup_app. split; [done|]. split; [|apply NoDup_singleton].
        intros y Hy Hy'. apply list_elem_of_singleton in Hy' as ->. done.
      * intros y. rewrite !elem_of_app, IHin. done.
Qed.

Lemma JsMap_get_app_l {K V : Type} `{EqDecision K} (m1 m2 : JsMap.t K V) k v :
  JsMap.get m1 k = Some v -> JsMap.get (m1 ++ m2) k = Some v.
Proof.
  induction m1 as [|[k' v'] m1 IH]; simpl; [done|].
  destruct (decide (k = k')); [done|]. apply IH.
Qed.

Lemma JsMap_get_lookup {K V : Type} `{EqDecision K} (m : JsMap.t K V) k v :
  JsMap.get m k = Some v -> exists i, m !! i = Some (k, v).
Proof.
  intros Hget. apply JsMap_get_elem_of in Hget. by apply list_elem_of_lookup_1.
Qed.

Lemma JsMap_lookup_get {K V : Type} `{EqDecision K} (m : JsMap.t K V) i k v :
  NoDup (JsMap.keys m) -> m !! i = Some (k, v) -> JsMap.get m k = Some v.
Proof.
  unfold JsMap.keys. revert i. induction m as [|[k' v'] m IH]; intros i Hnd; [done|].
  simpl in Hnd. apply NoDup_cons in Hnd as [Hk' Hnd].
  destruct i as [|i]; simpl.
  - intros [= -> ->]. by rewrite decide_True.
  - intros Hi. destruct (decide (k = k')) as [->|Hne]; [|by eapply IH].
    exfalso. apply Hk'. apply list_elem_of_fmap. exists (k', v). split; [done|].
    by eapply list_elem_of_lookup_2.
Qed.

(** A map that numbers the keys [ks] sends a key to its position. *)
Lemma JsMap_numbering {K : Type} `{EqDecision K} (m : JsMap.t K nat) (ks : list K) k f :
  JsMap.keys m = ks -> JsMap.values m = seq 0 (length ks) -> NoDup ks ->
  JsMap.get m k = Some f <-> ks !! f = Some k.
Proof.
  intros Hkeys Hvalues Hnd.
  assert (Hrow : forall i k' v, m !! i = Some (k', v) -> v = i /\ ks !! i = Some k').
  { intros i k' v Hi. split.
    - assert (Hv : JsMap.values m !! i = Some v).
      { unfold JsMap.values. rewrite list_lookup_fmap.
        change (@lookup nat (K * nat) (JsMap.t K nat) _ i m) with (m !! i) in Hi.
        unfold JsMap.t in *. by rewrite Hi. }
      rewrite Hvalues in Hv. apply lookup_seq in Hv. lia.
    - rewrite <- Hkeys. unfold JsMap.keys. rewrite list_lookup_fmap.
      unfold JsMap.t in *. by rewrite Hi. }
  split.
  - intros Hget. apply JsMap_get_lookup in Hget as [i Hi].
    destruct (Hrow _ _ _ Hi) as [-> Hk]. done.
  - intros Hk.
    assert (Hf : (f < length m)%nat).
    { apply lookup_lt_Some in Hk. rewrite <- Hkeys in Hk. unfold JsMap.keys in Hk.
      by rewrite length_fmap in Hk. }
    destruct (lookup_lt_is_Some_2 m f Hf) as [[k' v] Hi].
    destruct (Hrow _ _ _ Hi) as [-> Hk']. rewrite Hk in Hk'. injection Hk' as <-.
    eapply JsMap_lookup_get; [by rewrite Hkeys|done].
Qed.

Lemma func_rows_addFrame entries st name fileName funcKey frameAddress :
  func_rows entries st ->
  func_rows (entries ++ [(funcKey, (name, fileName))])
            (addFrame st name fileName funcKey frameAddress).
Proof.
  unfold func_rows. intros (Hkeys & Hvalues & Hlen & Hfunc & Hname & Hfile).
  rewrite fmap_app. cbn [fmap list_fmap fst]. rewrite first_occurrences_snoc.
  destruct (first_occurrences_spec entries.*1) as [Hnd Hin].
  set (ks := first_occurrences entries.*1) in *.
  assert (Hold : forall k, k ∈ ks ->
            JsMap.get (entries ++ [(funcKey, (name, fileName))]) k = JsMap.get entries k).
  { intros k Hk. apply Hin in Hk.
    assert (is_Some (JsMap.get entries k)) as [v Hv] by (by apply JsMap_get_keys).
    rewrite Hv. by apply JsMap_get_app_l. }
  unfold addFrame, getOrCreateFunc, createFrame.
  destruct (JsMap.get (fs_funcKeyToIndex st) funcKey) as [i|] eqn:Hget.
  - assert (Hk : funcKey ∈ ks).
    { rewrite <- Hkeys. apply JsMap_get_keys. eauto. }
    rewrite bool_decide_eq_true_2 by done.
    destruct (indexForString_spec (fs_stringTable st) (show_key frameAddress)) as (_ & Hp & _).
    destruct (indexForString _ _) as [a strings]. cbn [fst snd] in Hp.
    cbn [fs_funcKeyToIndex fs_funcTable fs_frameTable fs_stringTable FrameTable.func].
    split; [done|]. split; [done|]. split; [done|]. split; [|split].
    + apply Forall2_app; [done|]. by constructor.
    + eapply Forall2_impl; [exact Hname|]. intros k b (nm & fl & Hk1 & Hb).
      exists nm, fl. split; [|by eapply prefix_lookup_Some].
      destruct (decide (k ∈ ks)) as [Hks|Hks]; [by rewrite Hold|].
      exfalso. apply Hks, Hin, JsMap_get_keys. eauto.
    + eapply Forall2_impl; [exact Hfile|]. intros k b (nm & fl & Hk1 & Hb).
      exists nm, fl. split; [|by eapply prefix_lookup_Some].
      destruct (decide (k ∈ ks)) as [Hks|Hks]; [by rewrite Hold|].
      exfalso. apply Hks, Hin, JsMap_get_keys. eauto.
  - assert (Hk : funcKey ∉ ks).
    { rewrite <- Hkeys. intros Hk. apply JsMap_get_keys in Hk as [? ?]. congruence. }
    rewrite bool_decide_eq_false_2 by done.
    destruct (indexForString_spec (fs_stringTable st) name) as (Hl1 & Hp1 & _).
    destruct (indexForString (fs_stringTable st) name) as [a1 s1]. cbn [fst snd] in Hl1, Hp1.
    destruct (indexForString_spec s1 fileName) as (Hl2 & Hp2 & _).
    destruct (indexForString s1 fileName) as [a2 s2]. cbn [fst snd] in Hl2, Hp2.
    destruct (indexForString_spec s2 (show_key frameAddress)) as (_ & Hp3 & _).
    destruct (indexForString s2 (show_key frameAddress)) as [a3 s3]. cbn [fst snd] in Hp3.
    cbn [fs_funcKeyToIndex fs_funcTable fs_frameTable fs_stringTable FrameTable.func
         FuncTable.name FuncTable.fileName FuncTable.length].
    rewrite JsMap_set_absent by done.
    unfold JsMap.keys, JsMap.values in *. rewrite !fmap_app, length_app. cbn [fmap list_fmap].
    rewrite Hkeys, Hvalues, Hlen. cbn [length fst snd].
    assert (Hnew : JsMap.get (entries ++ [(funcKey, (name, fileName))]) funcKey
                   = Some (name, fileName)).
    { rewrite JsMap_get_app_r.
      - simpl. by rewrite decide_True.
      - intros Hk'. by apply Hk, Hin. }
    split; [done|]. split; [by rewrite Nat.add_1_r, seq_S|].
    split; [lia|]. split; [|split].
    + apply Forall2_app.
      * eapply Forall2_impl; [exact Hfunc|]. intros e c Hc. by apply JsMap_get_app_l.
      * constructor; [|constructor]. cbn [fst].
        rewrite JsMap_get_app_r; [simpl; by rewrite decide_True|].
        unfold JsMap.keys. by rewrite Hkeys.
    + apply Forall2_app.
      * eapply Forall2_impl; [exact Hname|]. intros k b (nm & fl & Hk1 & Hb).
        exists nm, fl. split.
        -- by apply JsMap_get_app_l.
        -- eapply prefix_lookup_Some; [exact Hb|]. by repeat (etrans; [eassumption|]).
      * constructor; [|constructor]. exists name, fileName. split; [done|].
        eapply prefix_lookup_Some; [exact Hl1|]. by etrans.
    + apply Forall2_app.
      * eapply Forall2_impl; [exact Hfile|]. intros k b (nm & fl & Hk1 & Hb).
        exists nm, fl. split.
        -- by apply JsMap_get_app_l.
        -- eapply prefix_lookup_Some; [exact Hb|]. by repeat (etrans; [eassumption|]).
      * constructor; [|constructor]. exists name, fileName. split; [done|].
        by eapply prefix_lookup_Some.
Qed.

Lemma func_rows_fold frames : forall entries st,
  func_rows entries st ->
  func_rows (entries ++ (func_entry <$> JsMap.values frames)) (foldl addFrameData st frames).
Proof.
  unfold JsMap.values.
  induction frames as [|[addr info] frames IH]; intros entries st Hst; simpl.
  - by rewrite app_nil_r.
  - rewrite cons_middle, app_assoc. apply IH.
    unfold addFrameData, func_entry. simpl. by apply func_rows_addFrame.
Qed.

Lemma frameTables_func_rows frames : func_rows (func_entries frames) (frameTables frames).
Proof.
  apply (func_rows_fold frames [(KeyString "(root)", ("(root)"%string, ""%string))]).
  apply (func_rows_addFrame [] _ "(root)" "" (KeyString "(root)") rootFrameAddress).
  unfold func_rows. simpl. repeat split; constructor.
Qed.

(** The function table has one row per distinct function key, the
    root's included: two frame rows hold the same function exactly
    when their keys are equal, and a function row carries the name and
    the file name that came with the first frame of its key (those of
    later frames with the same key are not looked at).  Here
    [JsMap.get entries k] is the first entry with key [k]. *)
Theorem function_rows_follow_function_keys
    (threadId : N) (samples : list Sample) (addressToFrameMap : frameMap)
    (thread : Thread)
    (Hthread : getProcessedThread threadId samples addressToFrameMap = inr thread) :
  let entries := func_entries addressToFrameMap in
  let funcs := FrameTable.func (frameTable thread) in
  FuncTable.length (funcTable thread) = length (first_occurrences entries.*1) /\
  length funcs = length entries /\
  (forall i j ei ej fi fj,
      entries !! i = Some ei -> entries !! j = Some ej ->
      funcs !! i = Some fi -> funcs !! j = Some fj ->
      (fi = fj <-> ei.1 = ej.1)) /\
  (forall i e f,
      entries !! i = Some e -> funcs !! i = Some f ->
      exists nm fl a b,
        JsMap.get entries e.1 = Some (nm, fl) /\
        FuncTable.name (funcTable thread) !! f = Some a /\
        stringTable thread !! a = Some nm /\
        FuncTable.fileName (funcTable thread) !! f = Some b /\
        stringTable thread !! b = Some fl).
Proof.
  intros entries funcs.
  apply getProcessedThread_tables in Hthread as (Hft & Hfr & Hst).
  subst funcs. rewrite Hft, Hfr, Hst.
  destruct (frameTables_func_rows addressToFrameMap)
    as (Hkeys & Hvalues & Hlen & Hfunc & Hname & Hfile).
  fold entries in Hkeys, Hvalues, Hlen, Hfunc, Hname, Hfile.
  destruct (first_occurrences_spec entries.*1) as [Hnd Hin].
  set (ks := first_occurrences entries.*1) in *.
  set (st := frameTables addressToFrameMap) in *.
  assert (Hrow : forall i e f, entries !! i = Some e ->
            FrameTable.func (fs_frameTable st) !! i = Some f -> ks !! f = Some e.1).
  { intros i e f He Hf.
    destruct (Forall2_lookup_l _ _ _ _ _ Hfunc He) as (f' & Hf' & Hget).
    rewrite Hf in Hf'. injection Hf' as <-.
    by apply (JsMap_numbering (fs_funcKeyToIndex st) ks). }
  split; [done|]. split; [symmetry; by eapply Forall2_length|]. split.
  - intros i j ei ej fi fj Hei Hej Hfi Hfj.
    pose proof (Hrow _ _ _ Hei Hfi) as Hi. pose proof (Hrow _ _ _ Hej Hfj) as Hj.
    split.
    + intros <-. congruence.
    + intros Heq. rewrite <- Heq in Hj. by eapply NoDup_lookup.
  - intros i e f He Hf. pose proof (Hrow _ _ _ He Hf) as Hk.
    destruct (Forall2_lookup_l _ _ _ _ _ Hname Hk) as (a & Ha & nm & fl & Hget & Hnm).
    destruct (Forall2_lookup_l _ _ _ _ _ Hfile Hk) as (b & Hb & nm' & fl' & Hget' & Hfl).
    rewrite Hget in Hget'. injection Hget' as <- <-.
    exists nm, fl, a, b. done.
Qed.

Lemma function_rows_example :
  exists thread,
    getProcessedThread 1 Example.thread1_samples
      (Example.frames_resolved
         ++ [(6%N, mkFrameInfo (KeyString "a.c:main") "main2" None)]) = inr thread /\
    FuncTable.length (funcTable thread) = 4%nat /\
    FrameTable.func (frameTable thread) = [0; 1; 2; 3; 1]%nat.
Proof.
  eexists. split; [vm_compute; reflexivity|].
  match goal with |- FuncTable.length (funcTable ?t) = _ /\ _ =>
    destruct (function_rows_follow_function_keys 1 Example.thread1_samples
                (Example.frames_resolved
                   ++ [(6%N, mkFrameInfo (KeyString "a.c:main") "main2" None)]) t eq_refl)
      as (Hlen & _)
  end.
  split; [exact Hlen|reflexivity].
Defined.

End FuncRowsFacts.


(** ** Samples by thread *)

Section GroupFacts.
Import Trace Resolve Tables Assembler TableShape.

Lemma JsMap_keys_set {K V : Type} `{EqDecision K} (m : JsMap.t K V) k v :
  JsMap.keys (JsMap.set m k v)
  = if bool_decide (k ∈ JsMap.keys m) then JsMap.keys m else JsMap.keys m ++ [k].
Proof.
  unfold JsMap.keys. induction m as [|[k' v'] m IH]; cbn [JsMap.set fmap list_fmap fst].
  - rewrite bool_decide_eq_false_2; [done|]. apply not_elem_of_nil.
  - destruct (decide (k = k')) as [->|Hne]; cbn [fmap list_fmap fst].
    + rewrite bool_decide_eq_true_2; [done|]. apply list_elem_of_here.
    + rewrite IH. case_bool_decide as Hin.
      * rewrite bool_decide_eq_true_2; [done|]. by apply list_elem_of_further.
      * rewrite bool_decide_eq_false_2; [done|].
        rewrite elem_of_cons. intros [?|?]; done.
Qed.

Lemma groupSample_keys m sample :
  JsMap.keys (groupSample m sample)
  = if bool_decide (threadID sample ∈ JsMap.keys m)
    then JsMap.keys m else JsMap.keys m ++ [threadID sample].
Proof.
  unfold groupSample. destruct (JsMap.get m (threadID sample)); apply JsMap_keys_set.
Qed.

Lemma groupSample_get m sample tid :
  JsMap.get (groupSample m sample) tid
  = if bool_decide (threadID sample = tid)
    then Some (default [] (JsMap.get m tid) ++ [sample])
    else JsMap.get m tid.
Proof.
  unfold groupSample. case_bool_decide as Htid.
  - subst tid. destruct (JsMap.get m (threadID sample)); by rewrite JsMap_get_set_eq.
  - destruct (JsMap.get m (threadID sample)); by rewrite JsMap_get_set_ne.
Qed.

Lemma groupSamples_fold_keys l : forall m,
  JsMap.keys (foldl groupSample m l)
  = foldl (fun acc x => if bool_decide (x ∈ acc) then acc else acc ++ [x])
          (JsMap.keys m) (threadID <$> l).
Proof.
  induction l as [|s l IH]; intros m; simpl; [done|].
  by rewrite IH, groupSample_keys.
Qed.

Lemma groupSamples_fold_get tid l : forall m,
  JsMap.get (foldl groupSample m l) tid
  = match JsMap.get m tid, filter (fun s => threadID s = tid) l with
    | Some g, own => Some (g ++ own)
    | None, [] => None
    | None, own => Some own
    end.
Proof.
  induction l as [|s l IH]; intros m; simpl.
  - destruct (JsMap.get m tid); [by rewrite app_nil_r|done].
  - rewrite IH, groupSample_get. rewrite filter_cons.
    destruct (decide (threadID s = tid)) as [Heq|Hne].
    + rewrite bool_decide_eq_true_2 by done.
      destruct (JsMap.get m tid) as [g|]; simpl.
      * by rewrite <- app_assoc.
      * done.
    + rewrite bool_decide_eq_false_2 by done. done.
Qed.

(** The first loop of [pushThreadsInProfile] sorts the samples by
    thread id without losing or repeating any: the map has one key per
    distinct thread id, in the order in which the ids first occur, and
    the group of an id holds exactly the samples of that id, in their
    original order. *)
Theorem groupSamples_partitions_by_thread (samples : list Sample) :
  JsMap.keys (groupSamples samples) = first_occurrences (threadID <$> samples) /\
  forall tid,
    JsMap.get (groupSamples samples) tid
    = if bool_decide (tid ∈ threadID <$> samples)
      then Some (filter (fun s => threadID s = tid) samples)
      else None.
Proof.
  split; [apply (groupSamples_fold_keys samples JsMap.empty)|].
  intros tid. unfold groupSamples. rewrite groupSamples_fold_get. simpl.
  destruct (filter (fun s => threadID s = tid) samples) as [|s own] eqn:Hown.
  - rewrite bool_decide_eq_false_2; [done|].
    intros Hin. apply list_elem_of_fmap in Hin as (s & -> & Hs).
    assert (Hs' : s ∈ filter (fun s0 => threadID s0 = threadID s) samples)
      by (by apply list_elem_of_filter).
    rewrite Hown in Hs'. by apply elem_of_nil in Hs'.
  - rewrite bool_decide_eq_true_2; [done|].
    assert (Hs : s ∈ filter (fun s => threadID s = tid) samples)
      by (rewrite Hown; apply list_elem_of_here).
    apply list_elem_of_filter in Hs as [<- Hs]. by apply list_elem_of_fmap_2.
Qed.

Lemma getProcessedThread_name_samples threadId group frames thread :
  getProcessedThread threadId group frames = inr thread ->
  Tables.name thread = ("Thread " +:+ pretty threadId)%string /\
  SamplesTable.time (Tables.samples thread) = scaled_time <$> List.filter has_frames group.
Proof.
  unfold getProcessedThread.
  destruct (foldl _ _ group) as [e|st] eqn:Hfold; [done|].
  intros [= <-]. split; [done|]. cbn [Tables.samples].
  by destruct (processSamples_table _ _ _ _ Hfold) as (-> & _ & _).
Qed.

Lemma thread_name_inj (a b : N) :
  ("Thread " +:+ pretty a)%string = ("Thread " +:+ pretty b)%string -> a = b.
Proof. simpl. intros [= H]. by apply (inj pretty). Qed.

(** [pushThreadsInProfile] adds one thread per distinct thread id, in
    the order in which the ids first occur among the samples; the
    thread of an id is named [Thread] followed by the id, so no two
    of them have the same name, and its samples table has the times of
    exactly the samples of that id that have a frame, in their original
    order. *)
Theorem threads_follow_thread_ids
    (profile profile' : Profile) (addressToFrameMap : frameMap) (samples : list Sample)
    (Hpush : pushThreadsInProfile profile addressToFrameMap samples = inr profile') :
  exists new,
    threads profile' = threads profile ++ new /\
    Forall2 (fun tid thread =>
               Tables.name thread = ("Thread " +:+ pretty tid)%string /\
               SamplesTable.time (Tables.samples thread)
               = scaled_time <$> List.filter has_frames
                                   (filter (fun s => threadID s = tid) samples))
            (first_occurrences (threadID <$> samples)) new /\
    NoDup (Tables.name <$> new).
Proof.
  destruct (pushThreadsInProfile_spec _ _ _ _ Hpush) as (new & Hnew & Hall).
  exists new. split; [done|].
  pose proof (groupSamples_fold_keys samples JsMap.empty) as Hkeys.
  fold (groupSamples samples) in Hkeys. simpl in Hkeys.
  fold (first_occurrences (threadID <$> samples)) in Hkeys.
  destruct (first_occurrences_spec (threadID <$> samples)) as [Hnd Hin].
  assert (Hthreads : Forall2 (fun tid thread =>
               Tables.name thread = ("Thread " +:+ pretty tid)%string /\
               SamplesTable.time (Tables.samples thread)
               = scaled_time <$> List.filter has_frames
                                   (filter (fun s => threadID s = tid) samples))
            (first_occurrences (threadID <$> samples)) new).
  { rewrite <- Hkeys. unfold JsMap.keys. apply Forall2_fmap_l.
    apply Forall2_same_length_lookup. split; [by eapply Forall2_length|].
    intros i [tid group] thread Hg Ht.
    destruct (Forall2_lookup_l _ _ _ _ _ Hall Hg) as (thread' & Ht' & Hthread).
    rewrite Ht in Ht'. injection Ht' as <-. cbn [fst snd] in Hthread |- *.
    apply getProcessedThread_name_samples in Hthread as [Hname Htime].
    split; [done|]. rewrite Htime. do 2 f_equal.
    assert (Hget : JsMap.get (groupSamples samples) tid = Some group).
    { eapply JsMap_lookup_get; [by rewrite Hkeys|done]. }
    unfold groupSamples in Hget. rewrite groupSamples_fold_get in Hget. simpl in Hget.
    cbn [fst].
    destruct (filter (fun s => threadID s = tid) samples); congruence. }
  split; [done|].
  assert (Hnames : Tables.name <$> new
                   = (fun tid => ("Thread " +:+ pretty tid)%string)
                       <$> first_occurrences (threadID <$> samples)).
  { clear -Hthreads. induction Hthreads as [|tid t tids ts [Hname _] _ IH]; [done|].
    rewrite !fmap_cons. by rewrite Hname, IH. }
  rewrite Hnames. apply NoDup_fmap_2_strong; [|done].
  intros a b _ _. apply thread_name_inj.
Qed.

Lemma threads_follow_thread_ids_example :
  exists t1 t2,
    pushThreadsInProfile getEmptyProfile Example.frames_resolved Example.all_samples
    = inr (mkProfile None [t1; t2]) /\
    Tables.name t1 = "Thread 1"%string /\ Tables.name t2 = "Thread 2"%string.
Proof.
  eexists. eexists. split; [vm_compute; reflexivity|].
  match goal with |- Tables.name ?t1 = _ /\ Tables.name ?t2 = _ =>
    destruct (threads_follow_thread_ids getEmptyProfile (mkProfile None [t1; t2])
                Example.frames_resolved Example.all_samples eq_refl)
      as (new & Hnew & Hall & _)
  end.
  simpl in Hnew. subst new.
  apply Forall2_cons_inv_r in Hall as (tid1 & tids & [Hn1 _] & Hall & Htids).
  apply Forall2_cons_inv_r in Hall as (tid2 & tids' & [Hn2 _] & _ & ->).
  vm_compute in Htids. injection Htids as <- <-.
  split; [exact Hn1|exact Hn2].
Defined.

End GroupFacts.


(** ** Stack keys *)

Section StackKeyFacts.
Import Trace Resolve Tables Assembler TableShape StackPaths.

Lemma pretty_N_char_digit x : is_digit (pretty_N_char x) = true.
Proof. unfold pretty_N_char. by repeat case_match. Qed.

Lemma pretty_N_go_digits x : forall s,
  string_forall is_digit s = true -> string_forall is_digit (pretty_N_go x s) = true.
Proof.
  induction (N.lt_wf_0 x) as [x _ IH]. intros s Hs.
  destruct (decide (x = 0)%N) as [->|Hx]; [by rewrite pretty_N_go_0|].
  rewrite pretty_N_go_step by lia. apply IH.
  - apply N.div_lt; lia.
  - simpl. by rewrite pretty_N_char_digit.
Qed.

Lemma pretty_N_digits (x : N) : string_forall is_digit (pretty x) = true.
Proof.
  unfold pretty, pretty_N. destruct (decide (x = 0)%N); [done|].
  by apply pretty_N_go_digits.
Qed.

Lemma pretty_nat_digits (x : nat) : string_forall is_digit (pretty x) = true.
Proof. apply pretty_N_digits. Qed.

Lemma append_nil_l (s : string) : ("" +:+ s)%string = s.
Proof. reflexivity. Qed.

Lemma append_cons (c : ascii) (s1 s2 : string) :
  (String c s1 +:+ s2)%string = String c (s1 +:+ s2).
Proof. reflexivity. Qed.

(** Two digit strings that are followed by [$] in equal strings are
    equal, and so are the rests. *)
Lemma digits_dollar_inj (d1 d2 e1 e2 : string) :
  string_forall is_digit d1 = true -> string_forall is_digit d2 = true ->
  (d1 +:+ "$" +:+ e1)%string = (d2 +:+ "$" +:+ e2)%string ->
  d1 = d2 /\ e1 = e2.
Proof.
  revert d2. induction d1 as [|c1 d1 IH]; intros [|c2 d2] H1 H2 Heq;
    rewrite ?append_nil_l, ?append_cons, ?append_nil_l in Heq; cbn in H1, H2.
  - by injection Heq as ->.
  - injection Heq as <- _. done.
  - injection Heq as -> _. done.
  - injection Heq as -> Heq.
    apply andb_true_iff in H1 as [_ H1]. apply andb_true_iff in H2 as [_ H2].
    destruct (IH d2 H1 H2 Heq) as [-> ->]. done.
Qed.

Lemma stack_key_inj p1 a1 p2 a2 :
  stack_key p1 a1 = stack_key p2 a2 -> p1 = p2 /\ a1 = a2.
Proof.
  unfold stack_key. rewrite !append_cons, !append_nil_l. intros [= Heq].
  apply digits_dollar_inj in Heq as [Hp Ha]; [|apply pretty_nat_digits..].
  split; by apply (inj pretty).
Qed.

Lemma stack_key_not_rootStackKey p a : stack_key p a <> rootStackKey.
Proof. apply (stack_key_not_root (Some p) a). Qed.

End StackKeyFacts.

(** ** Rows of the stack table *)

Section StackPathFacts.
Import Trace Resolve Tables Assembler TableShape StackPaths.

Lemma JsMap_keys_set_NoDup {K V : Type} `{EqDecision K} (m : JsMap.t K V) k v :
  NoDup (JsMap.keys m) -> NoDup (JsMap.keys (JsMap.set m k v)).
Proof.
  intros Hnd. rewrite JsMap_keys_set. case_bool_decide as Hk; [done|].
  apply NoDup_app. split; [done|]. split; [|apply NoDup_singleton].
  intros x Hx Hx'. apply list_elem_of_singleton in Hx' as ->. done.
Qed.

Lemma stack_paths_keys_length fk st :
  stack_paths fk st ->
  length (JsMap.keys (ss_stackKeyToIndex st)) = StackTable.length (ss_stackTable st).
Proof.
  intros (_ & Hvalues & _). unfold JsMap.keys.
  rewrite length_fmap, <- (length_fmap snd).
  change (snd <$> ss_stackKeyToIndex st) with (JsMap.values (ss_stackKeyToIndex st)).
  by rewrite Hvalues, length_seq.
Qed.

Lemma stack_paths_bound fk st k i :
  stack_paths fk st -> JsMap.get (ss_stackKeyToIndex st) k = Some i ->
  (i < StackTable.length (ss_stackTable st))%nat.
Proof.
  intros Hp0 Hget. pose proof Hp0 as (Hnd & Hvalues & _).
  pose proof (stack_paths_keys_length fk st Hp0) as Hlen.
  apply (JsMap_numbering _ (JsMap.keys (ss_stackKeyToIndex st))) in Hget;
    [|done|by rewrite Hlen|done].
  apply lookup_lt_Some in Hget. lia.
Qed.

Lemma stack_paths_get_inj fk st k1 k2 i :
  stack_paths fk st ->
  JsMap.get (ss_stackKeyToIndex st) k1 = Some i ->
  JsMap.get (ss_stackKeyToIndex st) k2 = Some i -> k1 = k2.
Proof.
  intros Hp0 H1 H2. pose proof Hp0 as (Hnd & Hvalues & _).
  pose proof (stack_paths_keys_length fk st Hp0) as Hlen.
  apply (JsMap_numbering _ (JsMap.keys (ss_stackKeyToIndex st))) in H1;
    [|done|by rewrite Hlen|done].
  apply (JsMap_numbering _ (JsMap.keys (ss_stackKeyToIndex st))) in H2;
    [|done|by rewrite Hlen|done].
  congruence.
Qed.

(** One step of the walk: the row of the key is there afterwards,
    created if it was not. *)
Lemma walk_step fk st p a :
  stack_paths fk st -> (p < StackTable.length (ss_stackTable st))%nat ->
  forall t1 m1,
    (if negb (JsMap.has (ss_stackKeyToIndex st) (stack_key p a))
     then createStack (ss_stackTable st) (ss_stackKeyToIndex st) (stack_key p a)
                      (cell_of (Some p)) (JsMap.get fk (KeyNumber a))
     else (ss_stackTable st, ss_stackKeyToIndex st)) = (t1, m1) ->
    (forall samples1, stack_paths fk (mkStackState t1 m1 samples1)) /\
    (forall k v, JsMap.get (ss_stackKeyToIndex st) k = Some v -> JsMap.get m1 k = Some v) /\
    exists q, JsMap.get m1 (stack_key p a) = Some q /\ (q < StackTable.length t1)%nat.
Proof.
  intros Hpaths Hp t1 m1.
  destruct (JsMap.has (ss_stackKeyToIndex st) (stack_key p a)) eqn:Hhas; cbn [negb].
  - intros [= <- <-]. split; [intros samples1; exact Hpaths|]. split; [done|].
    apply JsMap_has_true in Hhas as [q Hq]. exists q. split; [done|].
    by eapply stack_paths_bound.
  - apply JsMap_has_false in Hhas. unfold createStack. intros [= <- <-].
    destruct Hpaths as (Hnd & Hvalues & Hlp & Hlf & Hroot & Hp0 & Hf0 & Hrows).
    set (n := StackTable.length (ss_stackTable st)) in *.
    assert (Hmono : forall k v, JsMap.get (ss_stackKeyToIndex st) k = Some v ->
              JsMap.get (JsMap.set (ss_stackKeyToIndex st) (stack_key p a) n) k = Some v).
    { intros k v Hk. rewrite JsMap_get_set_ne; [done|]. intros <-. congruence. }
    split; [|split; [done|]].
    + intros samples1. unfold stack_paths.
      cbn [ss_stackTable ss_stackKeyToIndex StackTable.prefix StackTable.frame
           StackTable.length]. fold n.
      split; [by apply JsMap_keys_set_NoDup|].
      split.
      { rewrite JsMap_set_absent by done. unfold JsMap.values in *.
        rewrite fmap_app, Hvalues. cbn [fmap list_fmap snd]. by rewrite seq_S. }
      split; [rewrite length_app; simpl; lia|].
      split; [rewrite length_app; simpl; lia|].
      split; [by apply Hmono|].
      split; [rewrite lookup_app_l by lia; done|].
      split; [rewrite lookup_app_l by lia; done|].
      intros p' a' i. destruct (decide (stack_key p a = stack_key p' a')) as [Heq|Hne].
      * rewrite <- Heq, JsMap_get_set_eq. intros [= <-].
        apply stack_key_inj in Heq as [<- <-].
        split; [done|]. split.
        -- rewrite lookup_app_r by lia. by rewrite Hlp, Nat.sub_diag.
        -- rewrite lookup_app_r by lia. by rewrite Hlf, Nat.sub_diag.
      * rewrite JsMap_get_set_ne by done. intros Hi.
        destruct (Hrows p' a' i Hi) as (Hlt & Hpi & Hfi).
        split; [done|]. split.
        -- by apply lookup_app_l_Some.
        -- by apply lookup_app_l_Some.
    + exists n. split; [apply JsMap_get_set_eq|].
      cbn [StackTable.length]. lia.
Qed.

Lemma walkStack_paths fk ts : forall stackTrace p st,
  stack_paths fk st -> (p < StackTable.length (ss_stackTable st))%nat ->
  stack_paths fk (walkStack fk ts stackTrace (Some p) st) /\
  (forall k v, JsMap.get (ss_stackKeyToIndex st) k = Some v ->
     JsMap.get (ss_stackKeyToIndex (walkStack fk ts stackTrace (Some p) st)) k = Some v) /\
  exists r,
    path_row (ss_stackKeyToIndex (walkStack fk ts stackTrace (Some p) st)) p stackTrace
    = Some r /\
    (r < StackTable.length (ss_stackTable (walkStack fk ts stackTrace (Some p) st)))%nat /\
    SamplesTable.stack (ss_samples (walkStack fk ts stackTrace (Some p) st))
    = SamplesTable.stack (ss_samples st)
      ++ match stackTrace with [] => [] | _ :: _ => [Some r] end.
Proof.
  induction stackTrace as [|a rest IH]; intros p st Hpaths Hp.
  - cbn [walkStack path_row]. split; [done|]. split; [done|].
    exists p. by rewrite app_nil_r.
  - cbn [walkStack]. change ("$" +:+ show_index (Some p) +:+ "$" +:+ pretty a)%string
      with (stack_key p a).
    destruct (if negb (JsMap.has (ss_stackKeyToIndex st) (stack_key p a))
              then createStack (ss_stackTable st) (ss_stackKeyToIndex st) (stack_key p a)
                               (cell_of (Some p)) (JsMap.get fk (KeyNumber a))
              else (ss_stackTable st, ss_stackKeyToIndex st)) as [t1 m1] eqn:Hstep.
    destruct (walk_step fk st p a Hpaths Hp t1 m1 Hstep) as (Hpaths1 & Hmono1 & q & Hq & Hqlt).
    rewrite Hq.
    match goal with |- context [walkStack fk ts rest (Some q) ?s] => set (st1 := s) end.
    destruct (IH q st1 (Hpaths1 _) Hqlt) as (Hpaths' & Hmono' & r & Hr & Hrlt & Hcells).
    split; [done|]. split; [intros k v Hk; by apply Hmono', Hmono1|].
    exists r. cbn [path_row].
    rewrite (Hmono' _ _ Hq). cbn [mbind option_bind]. split; [done|]. split; [done|].
    rewrite Hcells. subst st1. cbn [ss_samples].
    destruct rest as [|b rest]; cbn [SamplesTable.stack].
    + cbn [path_row walkStack] in Hr. injection Hr as <-. by rewrite app_nil_r.
    + done.
Qed.

Lemma path_row_mono (m m' : JsMap.t string nat) : 
  (forall k v, JsMap.get m k = Some v -> JsMap.get m' k = Some v) ->
  forall stack p r, path_row m p stack = Some r -> path_row m' p stack = Some r.
Proof.
  intros Hmono. induction stack as [|a rest IH]; intros p r; cbn [path_row]; [done|].
  destruct (JsMap.get m (stack_key p a)) as [q|] eqn:Hq; [|done].
  rewrite (Hmono _ _ Hq). cbn [mbind option_bind]. apply IH.
Qed.

Lemma path_row_snoc (m : JsMap.t string nat) stack a : forall p,
  path_row m p (stack ++ [a])
  = path_row m p stack ≫= fun q => JsMap.get m (stack_key q a).
Proof.
  induction stack as [|b rest IH]; intros p; cbn [path_row app].
  - cbn. by destruct (JsMap.get m (stack_key p a)).
  - destruct (JsMap.get m (stack_key p b)); cbn; [apply IH|done].
Qed.

(** Two stacks with the same row are the same stack. *)
Lemma path_row_inj fk st : stack_paths fk st ->
  forall s1 s2 r,
    path_row (ss_stackKeyToIndex st) 0 s1 = Some r ->
    path_row (ss_stackKeyToIndex st) 0 s2 = Some r -> s1 = s2.
Proof.
  intros Hpaths.
  pose proof Hpaths as (_ & _ & _ & _ & _ & _ & _ & Hrows).
  induction s1 as [|a1 s1 IH] using rev_ind; intros s2 r H1 H2.
  - cbn in H1. injection H1 as <-.
    destruct s2 as [|a2 s2 _] using rev_ind; [done|].
    rewrite path_row_snoc in H2.
    destruct (path_row _ 0 s2) as [q|]; [|done]. cbn in H2.
    apply Hrows in H2 as (Hlt & _). lia.
  - rewrite path_row_snoc in H1.
    destruct (path_row _ 0 s1) as [q1|] eqn:Hq1; [|done]. cbn in H1.
    destruct s2 as [|a2 s2 _] using rev_ind.
    + cbn in H2. injection H2 as <-. apply Hrows in H1 as (Hlt & _). lia.
    + rewrite path_row_snoc in H2.
      destruct (path_row _ 0 s2) as [q2|] eqn:Hq2; [|done]. cbn in H2.
      pose proof (stack_paths_get_inj _ _ _ _ _ Hpaths H1 H2) as Hkey.
      apply stack_key_inj in Hkey as [<- <-].
      by rewrite (IH s2 q1 eq_refl Hq2).
Qed.

End StackPathFacts.

(** ** The rows of the samples *)

Section SampleRowFacts.
Import Trace Resolve Tables Assembler TableShape StackPaths.

Lemma sample_stacks_app l1 l2 :
  sample_stacks (l1 ++ l2) = sample_stacks l1 ++ sample_stacks l2.
Proof. unfold sample_stacks. by rewrite List.filter_app, omap_app. Qed.

Lemma sample_stacks_one sample stackTrace :
  backtraceStack sample = Some stackTrace ->
  sample_stacks [sample] = match stackTrace with [] => [] | _ :: _ => [stackTrace] end.
Proof.
  intros Hstack. unfold sample_stacks, has_frames. cbn [List.filter]. rewrite Hstack.
  destruct stackTrace; cbn; [done|]. by rewrite Hstack.
Qed.

Lemma sample_stacks_nonempty samples stack :
  stack ∈ sample_stacks samples -> stack <> [].
Proof.
  unfold sample_stacks. intros Hin. apply list_elem_of_omap in Hin as (s & Hs & Hstack).
  apply list_elem_of_In, List.filter_In in Hs as [_ Hf].
  unfold has_frames in Hf. rewrite Hstack in Hf. by destruct stack.
Qed.

Lemma rootStack_paths fk : stack_paths fk rootStack /\ sample_rows rootStack (sample_stacks []).
Proof.
  split; [|constructor].
  unfold stack_paths. cbn.
  split; [apply NoDup_singleton|]. do 6 (split; [done|]).
  intros p a i. rewrite decide_False by apply stack_key_not_rootStackKey. done.
Qed.

Lemma processSamples_paths fk : forall samples done st st',
  stack_paths fk st -> sample_rows st (sample_stacks done) ->
  foldl (processSample fk) (inr st) samples = inr st' ->
  stack_paths fk st' /\ sample_rows st' (sample_stacks (done ++ samples)).
Proof.
  intros samples. induction samples as [|sample samples IH]; intros done st st' Hpaths Hrows;
    cbn [foldl].
  - intros [= <-]. by rewrite app_nil_r.
  - destruct (backtraceStack sample) as [stackTrace|] eqn:Hstack.
    2:{ assert (Hs : processSample fk (inr st) sample
                     = inl (Error "TypeError: stackTrace is undefined")).
        { unfold processSample. by rewrite Hstack. }
        by rewrite Hs, processSample_throw. }
    assert (Hs : processSample fk (inr st) sample
                 = inr (walkStack fk (timestamp sample) stackTrace (Some 0%nat) st)).
    { unfold processSample. rewrite Hstack.
      by destruct Hpaths as (_ & _ & _ & _ & -> & _). }
    rewrite Hs. clear Hs.
    assert (H0 : (0 < StackTable.length (ss_stackTable st))%nat).
    { eapply stack_paths_bound; [done|]. by destruct Hpaths as (_ & _ & _ & _ & ? & _). }
    destruct (walkStack_paths fk (timestamp sample) stackTrace 0 st Hpaths H0)
      as (Hpaths1 & Hmono & r & Hr & Hrlt & Hcells).
    rewrite cons_middle, app_assoc. apply IH; [done|].
    rewrite sample_stacks_app, (sample_stacks_one _ _ Hstack).
    unfold sample_rows. rewrite Hcells. apply Forall2_app.
    + eapply Forall2_impl; [exact Hrows|]. intros stack cell [-> [q Hq]].
      rewrite Hq. split; [|eauto]. symmetry. by eapply path_row_mono.
    + destruct stackTrace; constructor; [|constructor]. split; [done|eauto].
Qed.

Lemma getProcessedThread_paths threadId samples frames thread :
  getProcessedThread threadId samples frames = inr thread ->
  exists st,
    thread = mkThread ("Thread " +:+ pretty threadId)
               (fs_funcTable (frameTables frames)) (fs_frameTable (frameTables frames))
               (ss_stackTable st) (fs_stringTable (frameTables frames)) (ss_samples st) /\
    foldl (processSample (fs_frameKeyToIndex (frameTables frames))) (inr rootStack) samples
    = inr st /\
    stack_paths (fs_frameKeyToIndex (frameTables frames)) st /\
    sample_rows st (sample_stacks samples).
Proof.
  unfold getProcessedThread.
  destruct (foldl _ _ samples) as [e|st] eqn:Hfold; [done|].
  intros [= <-]. exists st. split; [done|]. split; [done|].
  destruct (rootStack_paths (fs_frameKeyToIndex (frameTables frames))) as [Hp Hr].
  apply (processSamples_paths _ samples [] rootStack st Hp Hr Hfold).
Qed.

Lemma path_row_above fk st : stack_paths fk st ->
  forall stack p r,
    path_row (ss_stackKeyToIndex st) p stack = Some r ->
    (p <= r)%nat /\ (stack <> [] -> (p < r)%nat).
Proof.
  intros (_ & _ & _ & _ & _ & _ & _ & Hrows).
  induction stack as [|a rest IH]; intros p r; cbn [path_row].
  - intros [= <-]. split; [lia|done].
  - destruct (JsMap.get _ (stack_key p a)) as [q|] eqn:Hq; [|done]. cbn.
    intros Hr. apply Hrows in Hq as (Hlt & _). apply IH in Hr as [Hle _].
    split; [lia|intros _; lia].
Qed.

(** The stack table is a trie of the stacks: every sample that has a
    frame gets a row of the stack table other than the root row, and
    two samples of a thread get the same row exactly when their stacks
    are equal. *)
Theorem samples_share_stack_rows
    (threadId : N) (samples : list Sample) (addressToFrameMap : frameMap)
    (thread : Thread)
    (Hthread : getProcessedThread threadId samples addressToFrameMap = inr thread) :
  exists rows : list nat,
    SamplesTable.stack (Tables.samples thread) = Some <$> rows /\
    length rows = length (sample_stacks samples) /\
    (forall j r, rows !! j = Some r ->
       (0 < r < StackTable.length (stackTable thread))%nat) /\
    (forall j1 j2 s1 s2 r1 r2,
       sample_stacks samples !! j1 = Some s1 -> sample_stacks samples !! j2 = Some s2 ->
       rows !! j1 = Some r1 -> rows !! j2 = Some r2 ->
       (r1 = r2 <-> s1 = s2)).
Proof.
  apply getProcessedThread_paths in Hthread as (st & -> & _ & Hpaths & Hrows).
  cbn [Tables.samples stackTable].
  set (m := ss_stackKeyToIndex st) in *.
  assert (Hcells : exists rows,
             SamplesTable.stack (ss_samples st) = Some <$> rows /\
             Forall2 (fun stack r => path_row m 0 stack = Some r) (sample_stacks samples) rows).
  { unfold sample_rows in Hrows. fold m in Hrows. clear -Hrows.
    induction Hrows as [|stack cell stacks cells [-> [r Hr]] _ (rows & -> & IH)].
    - exists []. split; [done|constructor].
    - exists (r :: rows). rewrite Hr. split; [done|]. by constructor. }
  destruct Hcells as (rows & Hcells & Hall).
  exists rows. split; [done|]. split; [symmetry; by eapply Forall2_length|]. split.
  - intros j r Hj.
    destruct (Forall2_lookup_r _ _ _ _ _ Hall Hj) as (stack & Hstack & Hr).
    destruct (path_row_above _ _ Hpaths _ _ _ Hr) as [_ Hlt].
    split.
    + apply Hlt. eapply sample_stacks_nonempty. by eapply list_elem_of_lookup_2.
    + destruct stack as [|a rest] using rev_ind.
      * exfalso. eapply sample_stacks_nonempty; [|done]. by eapply list_elem_of_lookup_2.
      * rewrite path_row_snoc in Hr. destruct (path_row m 0 rest) as [q|]; [|done].
        cbn in Hr. by eapply stack_paths_bound.
  - intros j1 j2 s1 s2 r1 r2 Hs1 Hs2 Hr1 Hr2.
    destruct (Forall2_lookup_l _ _ _ _ _ Hall Hs1) as (r1' & Hr1' & Hp1).
    destruct (Forall2_lookup_l _ _ _ _ _ Hall Hs2) as (r2' & Hr2' & Hp2).
    rewrite Hr1 in Hr1'. rewrite Hr2 in Hr2'. injection Hr1' as <-. injection Hr2' as <-.
    split.
    + intros <-. by eapply path_row_inj.
    + intros <-. congruence.
Qed.

Lemma samples_share_stack_rows_example :
  exists thread rows,
    getProcessedThread 1
      (Example.thread1_samples ++ [mkSample 5000 1 0 (Some [9; 5]%N)])
      Example.frames_resolved = inr thread /\
    SamplesTable.stack (Tables.samples thread) = Some <$> rows /\
    length rows = 3%nat.
Proof.
  remember (getProcessedThread 1
              (Example.thread1_samples ++ [mkSample 5000 1 0 (Some [9; 5]%N)])
              Example.frames_resolved) as res eqn:Hres.
  destruct res as [e|thread]; [vm_compute in Hres; discriminate|].
  symmetry in Hres.
  destruct (samples_share_stack_rows _ _ _ _ Hres) as (rows & Hcells & Hlen & _).
  exists thread, rows. split; [reflexivity|]. split; [exact Hcells|].
  rewrite Hlen. reflexivity.
Defined.

End SampleRowFacts.


(** ** Reading the stacks back from the tables *)

Section ReadBackFacts.
Import Trace Resolve Tables Assembler TableShape StackPaths.

Lemma frame_index_addFrame st name fileName funcKey frameAddress :
  frame_index_ok st ->
  length (FrameTable.address (fs_frameTable st)) = FrameTable.length (fs_frameTable st) ->
  let st' := addFrame st name fileName funcKey frameAddress in
  frame_index_ok st' /\
  length (FrameTable.address (fs_frameTable st')) = FrameTable.length (fs_frameTable st') /\
  is_Some (JsMap.get (fs_frameKeyToIndex st') frameAddress) /\
  (forall k, is_Some (JsMap.get (fs_frameKeyToIndex st) k) ->
             is_Some (JsMap.get (fs_frameKeyToIndex st') k)).
Proof.
  intros Hok Hlen. cbv zeta. unfold addFrame.
  pose proof (getOrCreateFunc_spec (fs_funcTable st) (fs_funcKeyToIndex st)
                (fs_stringTable st) name fileName funcKey) as Hg.
  destruct (getOrCreateFunc _ _ _ _ _ _) as [[[indexToFunc funcTable] funcKeyToIndex] strings1].
  cbn [fst snd] in Hg. destruct Hg as (Hp1 & _ & _).
  unfold createFrame.
  destruct (indexForString_spec strings1 (show_key frameAddress)) as (Hlook & Hp2 & _).
  destruct (indexForString strings1 (show_key frameAddress)) as [addressIndex strings2].
  cbn [fst snd] in Hlook, Hp2. unfold frame_index_ok. simpl.
  split; [|split; [|split]].
  - intros k f. destruct (decide (frameAddress = k)) as [<-|Hne].
    + rewrite JsMap_get_set_eq. intros [= <-]. exists addressIndex.
      split; [|done]. rewrite lookup_app_r by lia. by rewrite Hlen, Nat.sub_diag.
    + rewrite JsMap_get_set_ne by done. intros Hk.
      destruct (Hok k f Hk) as (a & Ha & Hs). exists a. split.
      * by apply lookup_app_l_Some.
      * eapply prefix_lookup_Some; [exact Hs|]. by etrans.
  - rewrite length_app. simpl. lia.
  - rewrite JsMap_get_set_eq. eauto.
  - intros k Hk. destruct (decide (frameAddress = k)) as [<-|Hne].
    + rewrite JsMap_get_set_eq. eauto.
    + by rewrite JsMap_get_set_ne.
Qed.

Lemma frame_index_fold frames : forall st,
  frame_index_ok st ->
  length (FrameTable.address (fs_frameTable st)) = FrameTable.length (fs_frameTable st) ->
  frame_index_ok (foldl addFrameData st frames) /\
  (forall k, is_Some (JsMap.get (fs_frameKeyToIndex st) k) ->
             is_Some (JsMap.get (fs_frameKeyToIndex (foldl addFrameData st frames)) k)) /\
  (forall a, a ∈ JsMap.keys frames ->
     is_Some (JsMap.get (fs_frameKeyToIndex (foldl addFrameData st frames)) (KeyNumber a))).
Proof.
  unfold JsMap.keys.
  induction frames as [|[addr info] frames IH]; intros st Hok Hlen; cbn [foldl fmap list_fmap].
  - split; [done|]. split; [done|]. intros a Ha. by apply elem_of_nil in Ha.
  - destruct (frame_index_addFrame st (Resolve.name info) (default ""%string (file info))
                (key info) (KeyNumber addr) Hok Hlen) as (Hok1 & Hlen1 & Hnew & Hmono).
    destruct (IH _ Hok1 Hlen1) as (Hok' & Hmono' & Hall').
    split; [done|]. split; [intros k Hk; by apply Hmono', Hmono|].
    intros a Ha. apply elem_of_cons in Ha as [->|Ha]; [|by apply Hall'].
    by apply Hmono'.
Qed.

Lemma frameTables_index frames :
  frame_index_ok (frameTables frames) /\
  JsMap.get (fs_frameKeyToIndex (frameTables frames)) rootFrameAddress = Some 0%nat /\
  (forall a, a ∈ JsMap.keys frames ->
     is_Some (JsMap.get (fs_frameKeyToIndex (frameTables frames)) (KeyNumber a))).
Proof.
  unfold frameTables.
  assert (Hroot : frame_index_ok rootFrames /\
                  length (FrameTable.address (fs_frameTable rootFrames))
                  = FrameTable.length (fs_frameTable rootFrames)).
  { split; [|done].
    assert (Hfk : fs_frameKeyToIndex rootFrames = [(rootFrameAddress, 0%nat)]) by reflexivity.
    assert (Haddr : FrameTable.address (fs_frameTable rootFrames) = [2%nat]) by reflexivity.
    assert (Hstr : fs_stringTable rootFrames = ["(root)"; ""; "$00000000"]%string)
      by reflexivity.
    intros k f. rewrite Hfk, Haddr, Hstr. cbn [JsMap.get].
    destruct (decide (k = rootFrameAddress)) as [->|Hne]; [|done].
    intros [= <-]. exists 2%nat. done. }
  destruct Hroot as [Hok Hlen].
  destruct (frame_index_fold frames rootFrames Hok Hlen) as (Hok' & _ & Hall).
  split; [done|]. split; [|done].
  assert (Hget : forall st, JsMap.get (fs_frameKeyToIndex st) rootFrameAddress = Some 0%nat ->
            JsMap.get (fs_frameKeyToIndex (foldl addFrameData st frames)) rootFrameAddress
            = Some 0%nat).
  { clear. induction frames as [|[addr info] frames IH]; intros st Hst; cbn [foldl]; [done|].
    apply IH. unfold addFrameData, addFrame. cbn [fst snd].
    destruct (getOrCreateFunc _ _ _ _ _ _) as [[[? ?] ?] ?]. unfold createFrame.
    destruct (indexForString _ _) as [? ?]. cbn [fs_frameKeyToIndex].
    by rewrite JsMap_get_set_ne. }
  by apply Hget.
Qed.

(** A stack that has a row is read back from it. *)
Lemma stack_addresses_path thread fs st :
  stack_paths (fs_frameKeyToIndex fs) st -> frame_index_ok fs ->
  stackTable thread = ss_stackTable st ->
  frameTable thread = fs_frameTable fs ->
  stringTable thread = fs_stringTable fs ->
  forall stack p n texts r,
    stack_addresses n thread p = Some texts ->
    Forall (fun a => is_Some (JsMap.get (fs_frameKeyToIndex fs) (KeyNumber a))) stack ->
    path_row (ss_stackKeyToIndex st) p stack = Some r ->
    stack_addresses (n + length stack) thread r = Some (rev (pretty <$> stack) ++ texts).
Proof.
  intros Hpaths Hok Hst Hft Hstr.
  pose proof Hpaths as (_ & _ & _ & _ & _ & _ & _ & Hrows).
  induction stack as [|a rest IH]; intros p n texts r Hp Hcov; cbn [path_row].
  - intros [= <-]. by rewrite Nat.add_0_r.
  - destruct (JsMap.get _ (stack_key p a)) as [q|] eqn:Hq; [|done]. cbn [mbind option_bind].
    intros Hr. apply Forall_cons in Hcov as [[f Hf] Hcov].
    destruct (Hrows p a q Hq) as (_ & Hprefix & Hframe).
    destruct (Hok _ _ Hf) as (ai & Hai & Htext).
    assert (Hqtexts : stack_addresses (S n) thread q = Some (pretty a :: texts)).
    { cbn [stack_addresses]. rewrite Hst, Hft, Hstr, Hframe, Hf. cbn [mbind option_bind].
      rewrite Hai. cbn [mbind option_bind]. rewrite Htext. cbn [mbind option_bind].
      rewrite Hprefix, Hp. done. }
    specialize (IH q (S n) _ r Hqtexts Hcov Hr).
    cbn [length fmap list_fmap rev]. rewrite <- app_assoc. cbn [app].
    by rewrite Nat.add_succ_r.
Qed.

Lemma walkStack_frame_cells fk ts n : forall stackTrace parentIndex st,
  Forall (fun a => exists f, JsMap.get fk (KeyNumber a) = Some f /\ (f < n)%nat) stackTrace ->
  Forall (fun c => exists f, c = Some f /\ (f < n)%nat) (StackTable.frame (ss_stackTable st)) ->
  Forall (fun c => exists f, c = Some f /\ (f < n)%nat)
         (StackTable.frame (ss_stackTable (walkStack fk ts stackTrace parentIndex st))).
Proof.
  induction stackTrace as [|a rest IH]; intros parentIndex st Hcov Hcells; [done|].
  apply Forall_cons in Hcov as [Ha Hcov]. cbn [walkStack].
  match goal with |- context [if ?b then _ else _] => destruct b end;
    apply IH; try done; cbn [createStack ss_stackTable StackTable.frame fst snd].
  apply Forall_app. split; [done|]. constructor; [|constructor].
  destruct Ha as (f & -> & Hf). eauto.
Qed.

Lemma processSamples_frame_cells fk n : forall samples st st',
  Forall (fun sample => forall stack a, backtraceStack sample = Some stack -> a ∈ stack ->
            exists f, JsMap.get fk (KeyNumber a) = Some f /\ (f < n)%nat) samples ->
  Forall (fun c => exists f, c = Some f /\ (f < n)%nat) (StackTable.frame (ss_stackTable st)) ->
  foldl (processSample fk) (inr st) samples = inr st' ->
  Forall (fun c => exists f, c = Some f /\ (f < n)%nat) (StackTable.frame (ss_stackTable st')).
Proof.
  intros samples. induction samples as [|sample samples IH]; intros st st' Hcov Hcells;
    cbn [foldl].
  - by intros [= <-].
  - apply Forall_cons in Hcov as [Hs Hcov].
    destruct (backtraceStack sample) as [stackTrace|] eqn:Hstack.
    2:{ assert (Hstep : processSample fk (inr st) sample
                        = inl (Error "TypeError: stackTrace is undefined")).
        { unfold processSample. by rewrite Hstack. }
        by rewrite Hstep, processSample_throw. }
    assert (Hstep : processSample fk (inr st) sample
                    = inr (walkStack fk (timestamp sample) stackTrace
                             (JsMap.get (ss_stackKeyToIndex st) rootStackKey) st)).
    { unfold processSample. by rewrite Hstack. }
    rewrite Hstep. apply IH; [done|]. apply walkStack_frame_cells; [|done].
    apply Forall_forall. intros a Ha. by apply (Hs stackTrace).
Qed.

Lemma sample_stacks_elem samples stack :
  stack ∈ sample_stacks samples ->
  exists sample, sample ∈ samples /\ backtraceStack sample = Some stack.
Proof.
  unfold sample_stacks. intros Hin. apply list_elem_of_omap in Hin as (s & Hs & Hstack).
  apply list_elem_of_In, List.filter_In in Hs as [Hs _].
  exists s. split; [by apply list_elem_of_In|done].
Qed.

Lemma getProcessedThread_read_back threadId samples frames thread :
  getProcessedThread threadId samples frames = inr thread ->
  (forall sample stack a,
      sample ∈ samples -> backtraceStack sample = Some stack -> a ∈ stack ->
      a ∈ JsMap.keys frames) ->
  exists rows : list nat,
    SamplesTable.stack (Tables.samples thread) = Some <$> rows /\
    Forall2 (fun stack r =>
               stack_addresses (S (length stack)) thread r
               = Some (rev (pretty <$> stack) ++ ["$00000000"%string]))
            (sample_stacks samples) rows /\
    Forall (fun c => exists f, c = Some f /\ (f < FrameTable.length (frameTable thread))%nat)
           (StackTable.frame (stackTable thread)).
Proof.
  intros Hthread Hcover.
  apply getProcessedThread_paths in Hthread as (st & -> & Hfold & Hpaths & Hrows).
  set (fs := frameTables frames) in *.
  destruct (frameTables_index frames) as (Hok & Hroot & Hall). fold fs in Hok, Hroot, Hall.
  destruct (frameTables_rect frames) as [_ (_ & _ & Hlen & _)]. fold fs in Hlen.
  set (thread := mkThread _ _ _ _ _ _).
  assert (Hbound : forall k f, JsMap.get (fs_frameKeyToIndex fs) k = Some f ->
            (f < FrameTable.length (fs_frameTable fs))%nat).
  { intros k f Hf. destruct (Hok k f Hf) as (a & Ha & _).
    apply lookup_lt_Some in Ha. lia. }
  assert (Hbase : stack_addresses 1 thread 0 = Some ["$00000000"%string]).
  { destruct (Hok _ _ Hroot) as (a0 & Ha0 & Htext).
    destruct Hpaths as (_ & _ & _ & _ & _ & Hp0 & Hf0 & _).
    cbn [stack_addresses]. subst thread. cbn [stackTable frameTable stringTable].
    rewrite Hf0. cbn [mbind option_bind]. rewrite Ha0. cbn [mbind option_bind].
    rewrite Htext. cbn [mbind option_bind]. by rewrite Hp0. }
  assert (Hcells : exists rows,
             SamplesTable.stack (ss_samples st) = Some <$> rows /\
             Forall2 (fun stack r => path_row (ss_stackKeyToIndex st) 0 stack = Some r)
                     (sample_stacks samples) rows).
  { unfold sample_rows in Hrows. clear -Hrows.
    induction Hrows as [|stack cell stacks cells [-> [r Hr]] _ (rows & -> & IH)].
    - exists []. split; [done|constructor].
    - exists (r :: rows). rewrite Hr. split; [done|]. by constructor. }
  destruct Hcells as (rows & Hcells & Hpath).
  exists rows. split; [done|]. split.
  - apply Forall2_same_length_lookup. split; [by eapply Forall2_length|].
    intros j stack r Hstack Hr.
    destruct (Forall2_lookup_l _ _ _ _ _ Hpath Hstack) as (r' & Hr' & Hrow).
    rewrite Hr in Hr'. injection Hr' as <-.
    apply (stack_addresses_path thread fs st Hpaths Hok eq_refl eq_refl eq_refl
             stack 0%nat 1%nat _ r Hbase); [|done].
    apply Forall_forall. intros a Ha. apply Hall.
    destruct (sample_stacks_elem samples stack) as (sample & Hs & Hst');
      [by eapply list_elem_of_lookup_2|].
    by eapply Hcover.
  - subst thread. cbn [stackTable frameTable].
    apply (processSamples_frame_cells (fs_frameKeyToIndex fs)
             (FrameTable.length (fs_frameTable fs)) samples rootStack st); [| |done].
    + apply Forall_forall. intros sample Hs stack a Hstack Ha.
      destruct (Hall a) as [f Hf]; [by eapply Hcover|]. exists f. split; [done|].
      by eapply Hbound.
    + constructor; [|constructor]. exists 0%nat. split; [done|]. by eapply Hbound.
Qed.

(** The tables of a thread hold the stacks of its samples: provided
    that every address of every stack is a key of the frame map, the
    row that a sample gets leads, prefix by prefix, to the root row,
    and the address texts of the frames on the way are the addresses
    of the sample's stack, from the innermost frame out to the root
    frame [$00000000]; and every frame cell of the stack table is a
    row of the frame table. *)
Theorem stack_rows_read_back
    (threadId : N) (samples : list Sample) (addressToFrameMap : frameMap)
    (thread : Thread)
    (Hthread : getProcessedThread threadId samples addressToFrameMap = inr thread)
    (Hcover : forall sample stack a,
        sample ∈ samples -> backtraceStack sample = Some stack -> a ∈ stack ->
        a ∈ JsMap.keys addressToFrameMap) :
  exists rows : list nat,
    SamplesTable.stack (Tables.samples thread) = Some <$> rows /\
    Forall2 (fun stack r =>
               stack_addresses (S (length stack)) thread r
               = Some (rev (pretty <$> stack) ++ ["$00000000"%string]))
            (sample_stacks samples) rows /\
    Forall (fun c => exists f, c = Some f /\ (f < FrameTable.length (frameTable thread))%nat)
           (StackTable.frame (stackTable thread)).
Proof.
  exact (getProcessedThread_read_back threadId samples addressToFrameMap thread
           Hthread Hcover).
Qed.

Lemma stack_rows_read_back_example :
  exists thread rows,
    getProcessedThread 1 Example.thread1_samples Example.frames_resolved = inr thread /\
    SamplesTable.stack (Tables.samples thread) = Some <$> rows /\
    Forall2 (fun stack r =>
               stack_addresses (S (length stack)) thread r
               = Some (rev (pretty <$> stack) ++ ["$00000000"%string]))
            [[9; 5]; [7]]%N rows.
Proof.
  remember (getProcessedThread 1 Example.thread1_samples Example.frames_resolved)
    as res eqn:Hres.
  destruct res as [e|thread]; [vm_compute in Hres; discriminate|].
  symmetry in Hres.
  destruct (stack_rows_read_back _ _ _ _ Hres) as (rows & Hcells & Hread & _).
  - intros sample stack a Hs Hstack Ha.
    repeat (apply elem_of_cons in Hs as [->|Hs]);
      [| |
       |by apply elem_of_nil in Hs];
      cbn in Hstack; injection Hstack as <-;
      repeat (apply elem_of_cons in Ha as [->|Ha]);
      try (by apply elem_of_nil in Ha);
      vm_compute; repeat ((by left) || right).
  - exists thread, rows. split; [reflexivity|]. split; [exact Hcells|exact Hread].
Defined.

End ReadBackFacts.


(** ** From the import of a run to the profile *)

Section ConvertFacts.
Import Trace Resolve Tables Assembler TableShape StackPaths.

Lemma processSamples_returns fk : forall samples st,
  Forall (fun sample => is_Some (backtraceStack sample)) samples ->
  exists st', foldl (processSample fk) (inr st) samples = inr st'.
Proof.
  intros samples. induction samples as [|sample samples IH]; intros st Hall; cbn [foldl].
  - eauto.
  - apply Forall_cons in Hall as [[stackTrace Hstack] Hall].
    assert (Hstep : processSample fk (inr st) sample
                    = inr (walkStack fk (timestamp sample) stackTrace
                             (JsMap.get (ss_stackKeyToIndex st) rootStackKey) st)).
    { unfold processSample. by rewrite Hstack. }
    rewrite Hstep. by apply IH.
Qed.

Lemma getProcessedThread_returns threadId samples frames :
  Forall (fun sample => is_Some (backtraceStack sample)) samples ->
  exists thread, getProcessedThread threadId samples frames = inr thread.
Proof.
  intros Hall. unfold getProcessedThread.
  destruct (processSamples_returns (fs_frameKeyToIndex (frameTables frames))
              samples rootStack Hall) as [st' Hst'].
  unfold ret. rewrite Hst'. eauto.
Qed.

Lemma pushThreads_returns frames : forall groups threads,
  Forall (fun g : N * list Sample =>
            Forall (fun sample => is_Some (backtraceStack sample)) g.2) groups ->
  exists threads', pushThreads threads frames groups = inr threads'.
Proof.
  induction groups as [|[tid group] groups IH]; intros threads Hall; cbn [pushThreads].
  - unfold ret. eauto.
  - apply Forall_cons in Hall as [Hg Hall].
    destruct (getProcessedThread_returns tid group frames Hg) as [thread ->].
    by apply IH.
Qed.

Lemma groupSamples_elem samples tid group sample :
  (tid, group) ∈ groupSamples samples -> sample ∈ group -> sample ∈ samples.
Proof.
  intros Hg Hs. apply list_elem_of_lookup in Hg as [i Hi].
  pose proof (groupSamples_fold_keys samples JsMap.empty) as Hkeys.
  fold (groupSamples samples) in Hkeys. simpl in Hkeys.
  fold (first_occurrences (threadID <$> samples)) in Hkeys.
  destruct (first_occurrences_spec (threadID <$> samples)) as [Hnd _].
  assert (Hget : JsMap.get (groupSamples samples) tid = Some group).
  { eapply JsMap_lookup_get; [by rewrite Hkeys|done]. }
  unfold groupSamples in Hget. rewrite groupSamples_fold_get in Hget. simpl in Hget.
  assert (Hgroup : group = filter (fun s => threadID s = tid) samples).
  { destruct (filter (fun s => threadID s = tid) samples); congruence. }
  rewrite Hgroup in Hs. by apply list_elem_of_filter in Hs as [_ Hs].
Qed.

(** What the import of a run returns is always assembled: every
    sample comes back with a resolved stack, every address of a stack
    is a key of the frame map that the import has updated, so the
    assembly of the threads does not throw, the profile has one thread
    per distinct thread id, and in every thread each frame cell of the
    stack table is a row of the frame table. *)
Theorem convertRun_assembles_every_import
    (fuel : nat) (tree : TraceDirectoryTree) (addressToFrameMap : frameMap) (number : N)
    (frames' : frameMap) (samples : list Sample)
    (Himport : importRunFromInstrumentsTrace fuel tree addressToFrameMap number
               = Some (inr (frames', samples))) :
  Forall (fun sample => exists stack,
            backtraceStack sample = Some stack /\
            Forall (fun a => a ∈ JsMap.keys frames') stack) samples /\
  exists profile,
    convertRun fuel tree addressToFrameMap number = Some (inr profile) /\
    platform profile = Some "Macintosh"%string /\
    length (threads profile) = length (first_occurrences (threadID <$> samples)) /\
    Forall (fun thread =>
              Forall (fun c => exists f,
                        c = Some f /\ (f < FrameTable.length (frameTable thread))%nat)
                     (StackTable.frame (stackTable thread)))
           (threads profile).
Proof.
  destruct (importRun_resolveRun _ _ _ _ _ _ Himport) as (arrays & raws & Hrun).
  rewrite resolveRun_resolved_run in Hrun.
  destruct (resolved_run_frames _ _ _ _ _ _ Hrun) as (_ & Hraw).
  assert (Hcover : forall sample stack a,
             sample ∈ samples -> backtraceStack sample = Some stack -> a ∈ stack ->
             a ∈ JsMap.keys frames').
  { intros sample stack a Hs Hstack Ha. apply JsMap_get_keys.
    rewrite (Hraw sample stack a Hs Hstack Ha). eauto. }
  assert (Hstacks : Forall (fun sample => is_Some (backtraceStack sample)) samples).
  { apply Forall_forall. intros sample Hs.
    destruct (resolved_run_sample _ _ _ _ _ _ _ Hrun Hs) as (leaves & _ & ->). eauto. }
  split.
  { apply Forall_forall. intros sample Hs.
    rewrite Forall_forall in Hstacks. destruct (Hstacks sample Hs) as [stack Hstack].
    exists stack. split; [done|]. apply Forall_forall. intros a Ha. by eapply Hcover. }
  assert (Hgroups : Forall (fun g : N * list Sample =>
                              Forall (fun sample => is_Some (backtraceStack sample)) g.2)
                           (groupSamples samples)).
  { apply Forall_forall. intros [tid group] Hg. cbn [snd].
    apply Forall_forall. intros sample Hs.
    rewrite Forall_forall in Hstacks. apply Hstacks. by eapply groupSamples_elem. }
  destruct (pushThreads_returns frames' (groupSamples samples) [] Hgroups) as [ts Hts].
  assert (Hpush : pushThreadsInProfile getEmptyProfile frames' samples
                  = inr (mkProfile None ts)).
  { unfold pushThreadsInProfile. cbn [threads getEmptyProfile platform]. by rewrite Hts. }
  exists (mkProfile (Some "Macintosh"%string) ts).
  split.
  { unfold convertRun. rewrite Himport. cbn [run_bind lift]. by rewrite Hpush. }
  split; [done|]. cbn [threads].
  destruct (pushThreadsInProfile_spec _ _ _ _ Hpush) as (new & Hnew & Hall).
  cbn [threads getEmptyProfile app] in Hnew. subst new.
  split.
  - rewrite <- (Forall2_length _ _ _ Hall).
    pose proof (groupSamples_fold_keys samples JsMap.empty) as Hkeys.
    fold (groupSamples samples) in Hkeys. simpl in Hkeys.
    fold (first_occurrences (threadID <$> samples)) in Hkeys.
    rewrite <- Hkeys. unfold JsMap.keys. by rewrite length_fmap.
  - apply Forall_forall. intros thread Ht. apply list_elem_of_lookup in Ht as [i Hi].
    destruct (Forall2_lookup_r _ _ _ _ _ Hall Hi) as ([tid group] & Hg & Hthread).
    cbn [fst snd] in Hthread.
    destruct (getProcessedThread_read_back tid group frames' thread Hthread)
      as (rows & _ & _ & Hcells); [|done].
    intros sample stack a Hs Hstack Ha. eapply Hcover; [|done|done].
    eapply groupSamples_elem; [|done]. by eapply list_elem_of_lookup_2.
Qed.

Lemma convertRun_assembles_example :
  exists profile,
    convertRun 4 Example.trace_tree Example.trace_frames 1 = Some (inr profile) /\
    platform profile = Some "Macintosh"%string /\
    length (threads profile) = 2%nat.
Proof.
  remember (importRunFromInstrumentsTrace 4 Example.trace_tree Example.trace_frames 1)
    as res eqn:Hres.
  destruct res as [[e|[frames' samples]]|];
    [vm_compute in Hres; discriminate| |vm_compute in Hres; discriminate].
  symmetry in Hres.
  destruct (convertRun_assembles_every_import _ _ _ _ _ _ Hres)
    as (_ & profile & Hconvert & Hplatform & Hlen & _).
  exists profile. split; [exact Hconvert|]. split; [exact Hplatform|].
  rewrite Hlen. vm_compute in Hres. injection Hres as <- <-. reflexivity.
Defined.

End ConvertFacts.


(** ** The file name test *)

Section ProfileFileFacts.
Import ProfileFile.

Lemma split_nonempty sep s : split sep s <> [].
Proof.
  destruct s as [|c s]; cbn [split]; [done|].
  case_bool_decide; [done|]. by destruct (split sep s).
Qed.

(** Joining the pieces with the separator gives the string back. *)
Lemma concat_split sep s : String.concat (String sep "") (split sep s) = s.
Proof.
  induction s as [|c s IH]; cbn [split]; [done|].
  case_bool_decide as Hc.
  - subst c. pose proof (split_nonempty sep s) as Hne.
    destruct (split sep s) as [|piece pieces]; [done|].
    cbn [String.concat] in IH |- *. rewrite append_nil_l, append_cons, append_nil_l.
    by rewrite IH.
  - pose proof (split_nonempty sep s) as Hne.
    destruct (split sep s) as [|piece pieces]; [done|].
    destruct pieces as [|piece' pieces]; cbn [String.concat] in IH |- *.
    + by rewrite IH.
    + rewrite append_cons. by rewrite IH.
Qed.

Lemma split_app sep p q :
  split sep (p +:+ String sep q) = split sep p ++ split sep q.
Proof.
  induction p as [|c p IH].
  - rewrite append_nil_l. cbn [split]. by rewrite bool_decide_eq_true_2.
  - rewrite append_cons. cbn [split]. rewrite IH. case_bool_decide; [done|].
    pose proof (split_nonempty sep p) as Hne.
    by destruct (split sep p).
Qed.

Lemma split_trace : split "." "trace" = ["trace"%string].
Proof. reflexivity. Qed.

Lemma string_app_assoc (a b c : string) :
  ((a +:+ b) +:+ c)%string = (a +:+ (b +:+ c))%string.
Proof.
  induction a as [|x a IH]; [by rewrite !append_nil_l|].
  rewrite !append_cons. by rewrite IH.
Qed.

Lemma concat_snoc sep (l : list string) x :
  l <> [] -> String.concat sep (l ++ [x]) = (String.concat sep l +:+ sep +:+ x)%string.
Proof.
  induction l as [|y l IH]; [done|]. intros _.
  destruct l as [|z l].
  - reflexivity.
  - change ((y :: z :: l) ++ [x]) with (y :: ((z :: l) ++ [x])).
    change (String.concat sep (y :: (z :: l) ++ [x]))
      with (y +:+ sep +:+ String.concat sep ((z :: l) ++ [x]))%string.
    change (String.concat sep (y :: z :: l))
      with (y +:+ sep +:+ String.concat sep (z :: l))%string.
    rewrite IH by done. by rewrite !string_app_assoc.
Qed.

(** A file is taken for an Instruments profile exactly when its name
    is a non-empty text followed by [.trace]; in particular a value
    that is no object with a string [name], a name without a dot, and
    the bare name [.trace] are not. *)
Theorem isInstrumentsProfile_iff (file : option string) :
  isInstrumentsProfile file = true
  <-> exists stem, stem <> ""%string /\ file = Some (stem +:+ ".trace")%string.
Proof.
  unfold isInstrumentsProfile. split.
  - set (name := default ""%string file).
    pose proof (concat_split "." name) as Hjoin.
    pose proof (split_nonempty "." name) as Hne.
    destruct (split "." name) as [|x pieces] using rev_ind; [done|]. clear IHpieces.
    rewrite last_snoc, length_app. cbn [length].
    destruct pieces as [|y pieces]; [done|].
    intros Htrue.
    destruct (_ || _) eqn:Hguard; [done|].
    apply bool_decide_eq_true in Htrue. injection Htrue as ->.
    rewrite concat_snoc in Hjoin by done.
    exists (String.concat "." (y :: pieces)). split.
    + apply orb_false_iff in Hguard as [_ Hguard].
      destruct pieces as [|z pieces].
      * cbn [String.concat]. intros ->. cbn in Hguard. done.
      * cbn [String.concat]. destruct y; [|done]. by rewrite append_nil_l.
    + destruct file as [name'|]; cbn in name; subst name.
      * by rewrite <- Hjoin.
      * exfalso. revert Hjoin. generalize (String.concat "." (y :: pieces)).
        intros [|? ?]; done.
  - intros (stem & Hstem & ->). cbv zeta. cbn [default from_option id].
    change (stem +:+ ".trace")%string with (stem +:+ String "." "trace")%string.
    rewrite split_app, split_trace.
    pose proof (concat_split "." stem) as Hjoin.
    pose proof (split_nonempty "." stem) as Hne.
    rewrite last_snoc, length_app. cbn [length].
    rewrite (bool_decide_eq_true_2 (Some "trace"%string = Some "trace"%string)) by done.
    destruct (split "." stem) as [|x pieces]; [done|].
    destruct pieces as [|y pieces].
    + cbn [String.concat] in Hjoin. subst x. cbn.
      rewrite bool_decide_eq_false_2; [done|]. by intros [= ->].
    + cbn. rewrite Nat.add_1_r. cbn. by rewrite andb_false_r.
Qed.

End ProfileFileFacts.


(** ** The pattern-matching pass on a table without class tags *)

Section UntaggedFacts.
Import Archive.

Variable classCases : list object -> jsval -> jsval -> completion jsval * list object.

Lemma setIndex_same (h : list object) oa i :
  (i < arrayLength h (VRef oa))%nat ->
  setIndex h oa i (index h (VRef oa) i) = h.
Proof.
  unfold arrayLength, setIndex, index.
  destruct (h !! oa) as [[?|elements|?|?|?]|] eqn:Hoa; try (simpl; lia).
  intros Hi. destruct (lookup_lt_is_Some_2 elements i Hi) as [v Hv].
  rewrite Hv. cbn [default from_option id].
  rewrite (list_insert_id elements i v Hv). by apply list_insert_id.
Qed.

Lemma patternMatchLoop_untagged root (h : list object) :
  (forall i, (i < arrayLength h (prop h root "$objects"))%nat ->
     isDictionary h (index h (prop h root "$objects") i)
     && truthy (prop h (index h (prop h root "$objects") i) "$class") = false) ->
  forall fuel i,
    (arrayLength h (prop h root "$objects") - i < fuel)%nat ->
    patternMatchLoop classCases fuel root h i = Some (None, h).
Proof.
  intros Hplain. induction fuel as [|fuel IH]; intros i Hfuel; [lia|].
  cbn [patternMatchLoop].
  destruct (Nat.ltb_spec i (arrayLength h (prop h root "$objects"))) as [Hi|Hi]; [|done].
  unfold patternMatchObjectiveC. rewrite (Hplain i Hi). cbn [ret].
  destruct (prop h root "$objects") as [| | | | |oa] eqn:Hobjects;
    try (apply IH; lia).
  rewrite setIndex_same by done. apply IH. lia.
Qed.

(** The pattern-matching pass of [expandKeyedArchive] leaves alone a
    table none of whose entries is a dictionary with a truthy [$class]:
    it comes to an end without calling the class rewriting, whatever
    the caller's hook, and the heap is as before. *)
Theorem patternMatch_leaves_untagged_table
    (fuel : nat) (h : list object) (root : jsval)
    (Hplain : forall i, (i < arrayLength h (prop h root "$objects"))%nat ->
        isDictionary h (index h (prop h root "$objects") i)
        && truthy (prop h (index h (prop h root "$objects") i) "$class") = false)
    (Hfuel : (arrayLength h (prop h root "$objects") < fuel)%nat) :
  patternMatchLoop classCases fuel root h 0 = Some (None, h).
Proof. apply patternMatchLoop_untagged; [done|lia]. Qed.

End UntaggedFacts.

Section UntaggedExample.
Import Archive.

Lemma patternMatch_leaves_untagged_example :
  patternMatchLoop (fun h _ _ => (throw "never called", h)) 4
    (VRef 0) Example.archive_heap 0
  = Some (None, Example.archive_heap).
Proof.
  apply patternMatch_leaves_untagged_table; [|vm_compute; lia].
  intros i Hi. change (arrayLength _ _) with 3%nat in Hi.
  destruct i as [|[|[|i]]]; [reflexivity..|lia].
Defined.

End UntaggedExample.


(** ** The loops over numbered keys *)

Section NumberedKeyFacts.
Import Archive ObjC.

Lemma string_app_inj_l (p a b : string) : (p +:+ a)%string = (p +:+ b)%string -> a = b.
Proof.
  induction p as [|c p IH]; [by rewrite !append_nil_l|].
  rewrite !append_cons. intros [= H]. by apply IH.
Qed.

Lemma numbered_key_inj (prefix : string) (i j : nat) :
  (prefix +:+ pretty i)%string = (prefix +:+ pretty j)%string -> i = j.
Proof. intros H. apply string_app_inj_l in H. by apply (inj pretty). Qed.

(** No more numbered keys are in a dictionary than it has fields. *)
Lemma numbered_keys_bound (value : JsMap.t string jsval) (prefix : string) (f : nat -> nat) n :
  (forall i j, f i = f j -> i = j) ->
  (forall i, (i < n)%nat -> JsMap.has value (prefix +:+ pretty (f i)) = true) ->
  (n <= length value)%nat.
Proof.
  intros Hf Hall.
  set (ks := (fun i => (prefix +:+ pretty (f i))%string) <$> seq 0 n).
  assert (Hnd : NoDup ks).
  { apply NoDup_fmap_2_strong; [|apply NoDup_seq].
    intros i j _ _ Hij. apply numbered_key_inj in Hij. by apply Hf. }
  assert (Hsub : forall k, k ∈ ks -> k ∈ JsMap.keys value).
  { intros k Hk. apply list_elem_of_fmap in Hk as (i & -> & Hi).
    apply elem_of_seq in Hi. apply JsMap_get_keys, JsMap_has_true, Hall. lia. }
  pose proof (submseteq_length _ _ (NoDup_submseteq _ _ Hnd Hsub)) as Hlen.
  subst ks. unfold JsMap.keys in Hlen. rewrite !length_fmap, length_seq in Hlen. done.
Qed.

Lemma numbered_S value prefix start n :
  numbered value prefix start (S n)
  = numbered value prefix start n ++ [field value (prefix +:+ pretty (start + n)%nat)].
Proof. unfold numbered. by rewrite seq_S, fmap_app. Qed.

Lemma numbered_length value prefix start n : length (numbered value prefix start n) = n.
Proof. unfold numbered. by rewrite length_fmap, length_seq. Qed.

Lemma nsArrayLoop_spec (value : JsMap.t string jsval) : forall fuel k,
  (forall i, (i < k)%nat -> JsMap.has value ("NS.object." +:+ pretty i) = true) ->
  (length value - k < fuel)%nat ->
  exists n,
    nsArrayLoop fuel value (numbered value "NS.object." 0 k)
    = Some (numbered value "NS.object." 0 n) /\
    (forall i, (i < n)%nat -> JsMap.has value ("NS.object." +:+ pretty i) = true) /\
    JsMap.has value ("NS.object." +:+ pretty n) = false.
Proof.
  induction fuel as [|fuel IH]; intros k Hk Hfuel; [lia|].
  cbn [nsArrayLoop]. rewrite numbered_length.
  destruct (JsMap.has value ("NS.object." +:+ pretty k)) eqn:Hhas; cbn [negb].
  - assert (Hk' : forall i, (i < S k)%nat ->
              JsMap.has value ("NS.object." +:+ pretty i) = true).
    { intros i Hi. destruct (decide (i = k)) as [->|]; [done|]. apply Hk. lia. }
    pose proof (numbered_keys_bound value "NS.object." id (S k) (fun i j H => H) Hk') as Hb.
    destruct (IH (S k) Hk') as (n & Hn & Hall & Hend); [lia|].
    rewrite numbered_S in Hn. cbn [Nat.add] in Hn. by exists n.
  - exists k. done.
Qed.

(** The [NSArray] case returns the value of [NS.objects] as it is when
    the key is there; otherwise its loop comes to an end within as many
    iterations as the dictionary has fields, and the new array holds
    the values of [NS.object.0], [NS.object.1], ... up to the first
    number whose key is missing (later numbers are not looked at). *)
Theorem nsArray_collects_numbered_objects
    (fuel : nat) (h : list object) (value : JsMap.t string jsval)
    (Hfuel : (length value < fuel)%nat) :
  (JsMap.has value "NS.objects" = true ->
   nsArray fuel h value = Some (field value "NS.objects", h)) /\
  (JsMap.has value "NS.objects" = false ->
   exists n,
     nsArray fuel h value
     = Some (VRef (length h), h ++ [OArray (numbered value "NS.object." 0 n)]) /\
     (forall i, (i < n)%nat -> JsMap.has value ("NS.object." +:+ pretty i) = true) /\
     JsMap.has value ("NS.object." +:+ pretty n) = false).
Proof.
  unfold nsArray. split; intros ->; [done|].
  destruct (nsArrayLoop_spec value fuel 0) as (n & Hn & Hall & Hend); [lia|lia|].
  exists n. change (numbered value "NS.object." 0 0) with (@nil jsval) in Hn.
  by rewrite Hn.
Qed.

Lemma nsArray_example :
  let value := [("$class"%string, VRef 7); ("NS.object.0"%string, VNumber 1);
                ("NS.object.1"%string, VNumber 2); ("NS.object.3"%string, VNumber 4)] in
  exists n,
    nsArray 5 [] value = Some (VRef 0, [OArray (numbered value "NS.object." 0 n)]) /\
    JsMap.has value ("NS.object." +:+ pretty n) = false.
Proof.
  intros value.
  destruct (nsArray_collects_numbered_objects 5 [] value) as [_ Hloop]; [simpl; lia|].
  destruct (Hloop eq_refl) as (n & Hn & _ & Hend).
  exists n. split; [exact Hn|exact Hend].
Defined.

End NumberedKeyFacts.

(** ** The loop of the NSDictionary case *)

Section DictionaryLoopFacts.
Import Archive ObjC.

(** The first [n] pairs of numbered keys and objects. *)
Lemma pairs_S (value : JsMap.t string jsval) n :
  zip (numbered value "NS.key." 0 (S n)) (numbered value "NS.object." 0 (S n))
  = zip (numbered value "NS.key." 0 n) (numbered value "NS.object." 0 n)
    ++ [(field value ("NS.key." +:+ pretty n), field value ("NS.object." +:+ pretty n))].
Proof.
  rewrite !numbered_S. cbn [Nat.add].
  rewrite zip_with_app by (by rewrite !numbered_length). done.
Qed.

Lemma pairs_keys (value : JsMap.t string jsval) n :
  JsMap.keys (zip (numbered value "NS.key." 0 n) (numbered value "NS.object." 0 n))
  = numbered value "NS.key." 0 n.
Proof. unfold JsMap.keys. apply fst_zip. by rewrite !numbered_length. Qed.

Lemma pairs_size (value : JsMap.t string jsval) n :
  JsMap.size (zip (numbered value "NS.key." 0 n) (numbered value "NS.object." 0 n)) = n.
Proof.
  unfold JsMap.size. rewrite length_zip_with, !numbered_length. lia.
Qed.

Lemma NoDup_numbered_take (value : JsMap.t string jsval) prefix n i :
  (i <= n)%nat -> NoDup (numbered value prefix 0 n) -> NoDup (numbered value prefix 0 i).
Proof.
  intros Hi Hnd. replace n with (i + (n - i))%nat in Hnd by lia.
  unfold numbered in *. rewrite seq_app, fmap_app in Hnd.
  by apply NoDup_app in Hnd as (Hnd & _).
Qed.

(** One iteration on the first [i] pairs, when the next key is new. *)
Lemma nsDictionaryLoop_step (value : JsMap.t string jsval) fuel i :
  JsMap.has value ("NS.key." +:+ pretty i) = true ->
  JsMap.has value ("NS.object." +:+ pretty i) = true ->
  NoDup (numbered value "NS.key." 0 (S i)) ->
  nsDictionaryLoop (S fuel) value
    (zip (numbered value "NS.key." 0 i) (numbered value "NS.object." 0 i))
  = nsDictionaryLoop fuel value
      (zip (numbered value "NS.key." 0 (S i)) (numbered value "NS.object." 0 (S i))).
Proof.
  intros Hk Ho Hnd. cbn [nsDictionaryLoop]. rewrite pairs_size, Hk, Ho. cbn [negb orb].
  rewrite JsMap_set_absent, <- pairs_S; [done|].
  apply eq_None_not_Some. intros Hsome. apply JsMap_get_keys in Hsome.
  rewrite pairs_keys in Hsome. rewrite numbered_S in Hnd. cbn [Nat.add] in Hnd.
  apply NoDup_app in Hnd as (_ & Hdisj & _).
  apply (Hdisj _ Hsome). apply list_elem_of_here.
Qed.

(** The loop of the [NSDictionary] case gives the pairs of
    [NS.key.i] and [NS.object.i] up to the first number [n] for which
    one of the two keys is missing, provided that the keys' values are
    pairwise different. *)
Theorem nsDictionaryLoop_collects_distinct_keys
    (fuel n : nat) (value : JsMap.t string jsval)
    (Hpresent : forall i, (i < n)%nat ->
        JsMap.has value ("NS.key." +:+ pretty i) = true /\
        JsMap.has value ("NS.object." +:+ pretty i) = true)
    (Hend : JsMap.has value ("NS.key." +:+ pretty n) = false \/
            JsMap.has value ("NS.object." +:+ pretty n) = false)
    (Hdistinct : NoDup (numbered value "NS.key." 0 n))
    (Hfuel : (n < fuel)%nat) :
  nsDictionaryLoop fuel value JsMap.empty
  = Some (zip (numbered value "NS.key." 0 n) (numbered value "NS.object." 0 n)).
Proof.
  assert (Hgen : forall d i fuel', (i + d = n)%nat ->
            nsDictionaryLoop (d + S fuel') value
              (zip (numbered value "NS.key." 0 i) (numbered value "NS.object." 0 i))
            = Some (zip (numbered value "NS.key." 0 n) (numbered value "NS.object." 0 n))).
  { induction d as [|d IH]; intros i fuel' Hi.
    - replace i with n by lia. cbn [Nat.add nsDictionaryLoop]. rewrite pairs_size.
      destruct Hend as [-> | ->]; [done|]. by rewrite orb_true_r.
    - destruct (Hpresent i) as [Hk Ho]; [lia|].
      change (S d + S fuel')%nat with (S (d + S fuel')).
      rewrite nsDictionaryLoop_step; [|done|done|].
      + apply IH. lia.
      + eapply NoDup_numbered_take; [|done]. lia. }
  replace fuel with (n + S (fuel - n - 1))%nat by lia.
  by apply (Hgen n 0%nat).
Qed.

Lemma nsDictionaryLoop_collects_example :
  nsDictionaryLoop 3
    [("NS.key.0"%string, VString "a"); ("NS.object.0"%string, VNumber 1);
     ("NS.key.1"%string, VString "b"); ("NS.object.1"%string, VNumber 2)]
    JsMap.empty
  = Some [(VString "a", VNumber 1); (VString "b", VNumber 2)].
Proof.
  apply (nsDictionaryLoop_collects_distinct_keys 3 2).
  - intros i Hi. destruct i as [|[|i]]; [by split|by split|lia].
  - by left.
  - vm_compute. repeat constructor; intros Hin;
      repeat (apply elem_of_cons in Hin as [Hin|Hin]; [discriminate|]);
      by apply elem_of_nil in Hin.
  - lia.
Defined.

(** A map with the keys [ks] keeps them when a pair with one of these
    keys is set, so the loop reads the same number again. *)
Lemma nsDictionaryLoop_stuck (value : JsMap.t string jsval) n :
  JsMap.has value ("NS.key." +:+ pretty n) = true ->
  JsMap.has value ("NS.object." +:+ pretty n) = true ->
  forall fuel (map : JsMap.t jsval jsval),
    JsMap.size map = n ->
    field value ("NS.key." +:+ pretty n) ∈ JsMap.keys map ->
    nsDictionaryLoop fuel value map = None.
Proof.
  intros Hk Ho. induction fuel as [|fuel IH]; intros map Hsize Hin; [done|].
  cbn [nsDictionaryLoop]. rewrite Hsize, Hk, Ho. cbn [negb orb].
  assert (Hkeys : JsMap.keys (JsMap.set map (field value ("NS.key." +:+ pretty n))
                                (field value ("NS.object." +:+ pretty n)))
                  = JsMap.keys map).
  { rewrite JsMap_keys_set. by rewrite bool_decide_eq_true_2. }
  apply IH.
  - pose proof (f_equal length Hkeys) as Hl. unfold JsMap.keys in Hl.
    rewrite !length_fmap in Hl. unfold JsMap.size in *. congruence.
  - by rewrite Hkeys.
Qed.

(** The loop of the [NSDictionary] case does not come to an end on a
    dictionary in which the value of [NS.key.n] is equal to the value
    of an earlier key: the pair is set on the existing entry, the size
    of the map stays [n], and the same keys are read again. *)
Theorem nsDictionaryLoop_repeated_key_never_returns
    (n : nat) (value : JsMap.t string jsval)
    (Hpresent : forall i, (i <= n)%nat ->
        JsMap.has value ("NS.key." +:+ pretty i) = true /\
        JsMap.has value ("NS.object." +:+ pretty i) = true)
    (Hdistinct : NoDup (numbered value "NS.key." 0 n))
    (Hrepeat : field value ("NS.key." +:+ pretty n) ∈ numbered value "NS.key." 0 n) :
  forall fuel, nsDictionaryLoop fuel value JsMap.empty = None.
Proof.
  assert (Hgen : forall fuel i, (i <= n)%nat ->
            nsDictionaryLoop fuel value
              (zip (numbered value "NS.key." 0 i) (numbered value "NS.object." 0 i)) = None).
  { induction fuel as [|fuel IH]; intros i Hi; [done|].
    destruct (decide (i = n)) as [->|Hne].
    - destruct (Hpresent n) as [Hk Ho]; [lia|].
      apply (nsDictionaryLoop_stuck value n Hk Ho); [apply pairs_size|].
      by rewrite pairs_keys.
    - destruct (Hpresent i) as [Hk Ho]; [lia|].
      rewrite nsDictionaryLoop_step; [|done|done|].
      + apply IH. lia.
      + eapply NoDup_numbered_take; [|done]. lia. }
  intros fuel. by apply (Hgen fuel 0%nat); lia.
Qed.

Lemma nsDictionaryLoop_repeated_key_example :
  nsDictionaryLoop 1000
    [("NS.key.0"%string, VString "a"); ("NS.object.0"%string, VNumber 1);
     ("NS.key.1"%string, VString "a"); ("NS.object.1"%string, VNumber 2)]
    JsMap.empty
  = None.
Proof.
  apply (nsDictionaryLoop_repeated_key_never_returns 1).
  - intros i Hi. destruct i as [|[|i]]; [by split|by split|lia].
  - vm_compute. repeat constructor; set_solver.
  - vm_compute. set_solver.
Defined.

End DictionaryLoopFacts.

(** ** The loop of the PFTSymbolData case *)

Section SymbolDataFacts.
Import Archive ObjC.

Lemma field_has (value : JsMap.t string jsval) key :
  isNullish (field value key) = false -> JsMap.has value key = true.
Proof.
  unfold field, JsMap.has. by destruct (JsMap.get value key).
Qed.

Lemma addressToLineLoop_spec (object : JsMap.t string jsval) : forall fuel j map,
  (forall j', (j' < j)%nat ->
     isNullish (field object ("$" +:+ pretty (3 + 2 * j')%nat)) = false) ->
  (length object - j < fuel)%nat ->
  exists n,
    addressToLineLoop fuel object (3 + 2 * j) map
    = Some (foldl (fun m j' =>
                     JsMap.set m (field object ("$" +:+ pretty (3 + 2 * j')%nat))
                                 (field object ("$" +:+ pretty (4 + 2 * j')%nat)))
                  map (seq j n)) /\
    (forall j', (j <= j' < j + n)%nat ->
       isNullish (field object ("$" +:+ pretty (3 + 2 * j')%nat)) = false /\
       isNullish (field object ("$" +:+ pretty (4 + 2 * j')%nat)) = false) /\
    isNullish (field object ("$" +:+ pretty (3 + 2 * (j + n))%nat))
    || isNullish (field object ("$" +:+ pretty (4 + 2 * (j + n))%nat)) = true.
Proof.
  induction fuel as [|fuel IH]; intros j map Hbefore Hfuel; [lia|].
  cbn [addressToLineLoop].
  replace (3 + 2 * j + 1)%nat with (4 + 2 * j)%nat by lia.
  destruct (isNullish (field object ("$" +:+ pretty (3 + 2 * j)%nat))
            || isNullish (field object ("$" +:+ pretty (4 + 2 * j)%nat))) eqn:Hnull.
  - exists 0%nat. rewrite Nat.add_0_r. split; [done|]. split; [intros j' Hj'; lia|done].
  - apply orb_false_iff in Hnull as [Ha Hl].
    assert (Hbefore' : forall j', (j' < S j)%nat ->
              isNullish (field object ("$" +:+ pretty (3 + 2 * j')%nat)) = false).
    { intros j' Hj'. destruct (decide (j' = j)) as [->|]; [done|]. apply Hbefore. lia. }
    assert (Hb : (S j <= length object)%nat).
    { apply (numbered_keys_bound object "$" (fun j' => (3 + 2 * j')%nat)).
      - intros a b Hab. lia.
      - intros j' Hj'. by apply field_has, Hbefore'. }
    replace (3 + 2 * j + 2)%nat with (3 + 2 * S j)%nat by lia.
    destruct (IH (S j) (JsMap.set map (field object ("$" +:+ pretty (3 + 2 * j)%nat))
                                      (field object ("$" +:+ pretty (4 + 2 * j)%nat)))
                Hbefore') as (n & Hn & Hall & Hend); [lia|].
    exists (S n). cbn [seq foldl]. split; [done|]. split.
    + intros j' Hj'. destruct (decide (j' = j)) as [->|]; [done|]. apply Hall. lia.
    + by replace (j + S n)%nat with (S j + n)%nat by lia.
Qed.

(** The [PFTSymbolData] case always comes to an end, within as many
    iterations as the dictionary has fields: the new [Map] takes the
    pairs ([$3], [$4]), ([$5], [$6]), ... in this order, up to the
    first pair with a member that is [null] or missing (what follows
    is not looked at), and the new dictionary carries [$0] as the
    symbol name and [$1] as the source path. *)
Theorem pftSymbolData_reads_address_line_pairs
    (fuel : nat) (h : list object) (object : JsMap.t string jsval)
    (Hfuel : (length object < fuel)%nat) :
  exists n,
    pftSymbolData fuel h object
    = Some (VRef (length h),
            h ++ [ODict [("symbolName"%string, field object "$0");
                         ("sourcePath"%string, field object "$1");
                         ("addressToLine"%string, VRef (S (length h)))];
                  OMap (foldl (fun m j =>
                                 JsMap.set m (field object ("$" +:+ pretty (3 + 2 * j)%nat))
                                             (field object ("$" +:+ pretty (4 + 2 * j)%nat)))
                              JsMap.empty (seq 0 n))]) /\
    (forall j, (j < n)%nat ->
       isNullish (field object ("$" +:+ pretty (3 + 2 * j)%nat)) = false /\
       isNullish (field object ("$" +:+ pretty (4 + 2 * j)%nat)) = false) /\
    isNullish (field object ("$" +:+ pretty (3 + 2 * n)%nat))
    || isNullish (field object ("$" +:+ pretty (4 + 2 * n)%nat)) = true.
Proof.
  destruct (addressToLineLoop_spec object fuel 0 JsMap.empty) as (n & Hn & Hall & Hend);
    [intros j' Hj'; lia|lia|].
  exists n. unfold pftSymbolData.
  change (3 + 2 * 0)%nat with 3%nat in Hn. rewrite Hn. cbn [mbind option_bind].
  split; [done|]. split; [intros j Hj; apply Hall; lia|done].
Qed.

Lemma pftSymbolData_example :
  let object := [("$0"%string, VString "main"); ("$1"%string, VString "a.c");
                 ("$3"%string, VNumber 4096); ("$4"%string, VNumber 12);
                 ("$5"%string, VNumber 4100); ("$7"%string, VNumber 4104);
                 ("$8"%string, VNumber 14)] in
  exists n,
    pftSymbolData 8 [] object
    = Some (VRef 0,
            [ODict [("symbolName"%string, VString "main");
                    ("sourcePath"%string, VString "a.c");
                    ("addressToLine"%string, VRef 1)];
             OMap (foldl (fun m j =>
                            JsMap.set m (field object ("$" +:+ pretty (3 + 2 * j)%nat))
                                        (field object ("$" +:+ pretty (4 + 2 * j)%nat)))
                         JsMap.empty (seq 0 n))]) /\
    isNullish (field object ("$" +:+ pretty (3 + 2 * n)%nat))
    || isNullish (field object ("$" +:+ pretty (4 + 2 * n)%nat)) = true.
Proof.
  intros object.
  destruct (pftSymbolData_reads_address_line_pairs 8 [] object) as (n & Hn & _ & Hend);
    [simpl; lia|].
  exists n. split; [exact Hn|exact Hend].
Defined.

End SymbolDataFacts.


(** ** The frame maps of the runs *)

Section FormTemplateFacts.
Import Resolve FormTemplate TableShape.

Lemma insertFrame_keep_first m symbol address :
  insertFrame m symbol address = keep_first m (address, symbolFrame symbol address).
Proof.
  unfold insertFrame, getOrInsert, keep_first. cbn [fst snd].
  by destruct (JsMap.has m address).
Qed.

Lemma addSymbol_entries m symbol :
  addSymbol m symbol = foldl keep_first m (symbol_entries symbol).
Proof.
  destruct symbol as [symbol|]; [|done]. cbn [addSymbol symbol_entries].
  generalize (JsMap.keys (addressToLine symbol)). intros addresses. revert m.
  induction addresses as [|a addresses IH]; intros m; [done|].
  cbn [foldl fmap list_fmap]. by rewrite IH, insertFrame_keep_first.
Qed.

Lemma addSymbols_entries symbols : forall m,
  foldl addSymbol m symbols = foldl keep_first m (concat (symbol_entries <$> symbols)).
Proof.
  induction symbols as [|symbol symbols IH]; intros m; [done|].
  cbn [foldl fmap list_fmap concat]. by rewrite foldl_app, IH, addSymbol_entries.
Qed.

Lemma addPid_eq a runNumber st symbols m :
  maps st !! a = Some m ->
  addPid a runNumber st symbols
  = mkRunsState (<[a := foldl addSymbol m symbols]> (maps st)) (runs st ++ [(runNumber, a)]).
Proof.
  intros Hm. unfold addPid. unfold frameMap, JsMap.t in *.
  cbv zeta. by rewrite Hm.
Qed.

(** The loop over the processes of one run: the map at [a] takes the
    symbols of every process, and one entry is pushed per process. *)
Lemma addPid_fold a runNumber : forall pids st m,
  maps st !! a = Some m ->
  foldl (addPid a runNumber) st pids
  = mkRunsState
      (<[a := foldl keep_first m (concat (symbol_entries <$> concat pids))]> (maps st))
      (runs st ++ replicate (length pids) (runNumber, a)).
Proof.
  induction pids as [|symbols pids IH]; intros st m Hm.
  - cbn. rewrite app_nil_r, list_insert_id by done. by destruct st.
  - cbn [foldl]. rewrite (addPid_eq _ _ _ _ m Hm).
    rewrite (IH _ (foldl addSymbol m symbols)).
    2:{ cbn [maps]. apply list_lookup_insert_eq. by eapply lookup_lt_Some. }
    cbn [maps runs]. rewrite list_insert_insert_eq.
    cbn [concat length replicate]. rewrite fmap_app, concat_app, foldl_app.
    rewrite addSymbols_entries, <- app_assoc. done.
Qed.

Lemma addRun_found allRunData st runNumber symbolsByPid :
  symbolsOf allRunData runNumber = Some symbolsByPid ->
  addRun allRunData (inr st) runNumber
  = inr (mkRunsState
           (maps st ++ [first_frames (run_entries symbolsByPid)])
           (runs st ++ replicate (length symbolsByPid) (runNumber, length (maps st)))).
Proof.
  unfold symbolsOf, addRun, getOrThrow.
  destruct (JsMap.get (runData allRunData) runNumber) as [data|]; [|done].
  cbn [mbind option_bind ret]. intros ->. cbv zeta. unfold ret.
  rewrite (addPid_fold _ _ _ _ []).
  2:{ cbn [maps]. rewrite lookup_app_r by lia. by rewrite Nat.sub_diag. }
  cbn [maps runs]. unfold JsMap.values. rewrite length_fmap.
  f_equal. f_equal.
  rewrite insert_app_r_alt by lia. by rewrite Nat.sub_diag.
Qed.

Lemma addRun_throw allRunData e (l : list N) :
  foldl (addRun allRunData) (inl e) l = inl e.
Proof. induction l; simpl; done. Qed.

Lemma addRuns_found allRunData : forall (l : list N) st,
  Forall (fun rn => is_Some (symbolsOf allRunData rn)) l ->
  Forall (fun entry : N * nat => (entry.2 < length (maps st))%nat) (runs st) ->
  exists st',
    foldl (addRun allRunData) (inr st) l = inr st' /\
    (fun entry : N * nat => (entry.1, default [] (maps st' !! entry.2))) <$> runs st'
    = ((fun entry : N * nat => (entry.1, default [] (maps st !! entry.2))) <$> runs st)
      ++ concat (run_group allRunData <$> l).
Proof.
  induction l as [|rn l IH]; intros st Hall Hruns.
  - exists st. cbn. by rewrite app_nil_r.
  - apply Forall_cons in Hall as [[symbolsByPid Hsym] Hall]. cbn [foldl].
    rewrite (addRun_found _ _ _ _ Hsym).
    match goal with |- context [foldl _ (inr ?s) l] => set (st1 := s) end.
    destruct (IH st1 Hall) as (st' & Hfold & Hderef).
    { subst st1. cbn [maps runs]. rewrite length_app. cbn [length].
      apply Forall_app. split.
      - eapply Forall_impl; [exact Hruns|]. intros e He. simpl in He. lia.
      - apply Forall_replicate. cbn [snd]. lia. }
    exists st'. split; [done|]. rewrite Hderef. subst st1. cbn [maps runs].
    rewrite fmap_app, fmap_replicate. cbn [fst snd fmap list_fmap concat].
    rewrite (list_lookup_middle (maps st) [] _ (length (maps st)) eq_refl). cbn [lookup list_lookup default
      from_option id].
    rewrite <- app_assoc. f_equal.
    + apply Forall_fmap_ext_1. eapply Forall_impl; [exact Hruns|].
      intros e He. cbv beta in He |- *. by rewrite (lookup_app_l (maps st) _ e.2 He).
    + f_equal. unfold run_group. by rewrite Hsym.
Qed.

(** The entry of an address in the map of the first occurrences is the
    first entry of the address. *)
Lemma keep_first_get entries : forall m a,
  JsMap.get (foldl keep_first m entries) a
  = match JsMap.get m a with
    | Some f => Some f
    | None => JsMap.get entries a
    end.
Proof.
  induction entries as [|[a' f'] entries IH]; intros m a; cbn [foldl JsMap.get].
  - by destruct (JsMap.get m a).
  - rewrite IH. unfold keep_first. cbn [fst snd].
    destruct (JsMap.has m a') eqn:Hhas.
    + destruct (JsMap.get m a) as [f|] eqn:Hget; [done|].
      rewrite decide_False; [done|]. intros ->.
      apply JsMap_has_true in Hhas as [? ?]. congruence.
    + apply JsMap_has_false in Hhas. destruct (decide (a = a')) as [->|Hne].
      * by rewrite JsMap_get_set_eq, Hhas.
      * rewrite JsMap_get_set_ne by done. done.
Qed.

(** [readFormTemplateFile] pushes one entry of [runs] per process of a
    run, but all the entries of a run hold the one map of the run, so
    each of them ends up with the frames of all the processes of the
    run: when every run number has its [symbolsByPid], the array is,
    run after run, as many copies of the run number with this map as
    the run has processes.  In the map an address has the frame of the
    first symbol that lists it, later symbols with the same address
    changing nothing. *)
Theorem runs_share_the_frames_of_their_run (allRunData : RunListData)
    (Hfound : Forall (fun rn => is_Some (symbolsOf allRunData rn)) (runNumbers allRunData)) :
  readRuns allRunData
  = inr (concat ((fun rn =>
                    let symbolsByPid := default [] (symbolsOf allRunData rn) in
                    replicate (length symbolsByPid)
                              (rn, first_frames (run_entries symbolsByPid)))
                   <$> runNumbers allRunData)) /\
  (forall entries a, JsMap.get (first_frames entries) a = JsMap.get entries a).
Proof.
  split.
  - unfold readRuns.
    destruct (addRuns_found allRunData (runNumbers allRunData) (mkRunsState [] []) Hfound)
      as (st' & Hfold & Hderef); [constructor|].
    unfold ret in *. rewrite Hfold, Hderef. done.
  - intros entries a. unfold first_frames. by rewrite keep_first_get.
Qed.

Lemma runs_share_example :
  let main := mkSymbolInfo (TString "a.c") (TString "main") [(4096, 1); (4100, 2)]%N in
  let other := mkSymbolInfo TNull (TString "") [(4100, 7); (8192, 9)]%N in
  let allRunData :=
    mkRunListData [1%N]
      [(1%N, [("symbolsByPid"%string, [(10%N, [Some main; None]); (11%N, [Some other])])])] in
  exists frames,
    readRuns allRunData = inr [(1%N, frames); (1%N, frames)] /\
    JsMap.keys frames = [4096; 4100; 8192]%N.
Proof.
  intros main other allRunData.
  destruct (runs_share_the_frames_of_their_run allRunData) as [Hruns _].
  - repeat constructor. by eexists.
  - eexists. split; [exact Hruns|]. reflexivity.
Defined.

(** [readFormTemplateFile] throws at the first run number for which
    the run data has no entry, or no [symbolsByPid]; the message names
    the missing key. *)
Theorem readRuns_missing_run_data
    (allRunData : RunListData) (before after : list N) (runNumber : N)
    (Hnumbers : runNumbers allRunData = before ++ runNumber :: after)
    (Hbefore : Forall (fun rn => is_Some (symbolsOf allRunData rn)) before)
    (Hmissing : symbolsOf allRunData runNumber = None) :
  readRuns allRunData
  = inl (Error (match JsMap.get (runData allRunData) runNumber with
                | None => "Expected key " +:+ pretty runNumber
                | Some _ => "Expected key symbolsByPid"
                end)).
Proof.
  unfold readRuns. rewrite Hnumbers, foldl_app.
  destruct (addRuns_found allRunData before (mkRunsState [] []) Hbefore)
    as (st' & Hfold & _); [constructor|].
  unfold ret in *. rewrite Hfold. cbn [foldl].
  assert (Hstep : addRun allRunData (inr st') runNumber
                  = inl (Error (match JsMap.get (runData allRunData) runNumber with
                                | None => "Expected key " +:+ pretty runNumber
                                | Some _ => "Expected key symbolsByPid"
                                end))).
  { unfold addRun, getOrThrow. unfold symbolsOf in Hmissing.
    destruct (JsMap.get (runData allRunData) runNumber) as [data|]; [|done].
    cbn [mbind option_bind] in Hmissing. cbn [ret]. by rewrite Hmissing. }
  by rewrite Hstep, addRun_throw.
Qed.

Lemma readRuns_missing_example :
  readRuns (mkRunListData [1%N; 2%N] [(1%N, [("symbolsByPid"%string, [])])])
  = inl (Error "Expected key 2").
Proof.
  rewrite (readRuns_missing_run_data _ [1%N] [] 2%N);
    [vm_compute; reflexivity|reflexivity| |reflexivity].
  repeat constructor. by eexists.
Defined.

End FormTemplateFacts.
